(** * ReWord audio coordinator (utils/audio): a shallow embedding

    The module under study keeps three module-level variables
    ([cachedVoices], [isLoaded], [currentAudio]) and talks to three
    platform objects: [window.speechSynthesis], [HTMLAudioElement]s and the
    [window] event target.  The embedding below makes the platform state
    explicit, threads it through every function, and represents the
    suspended halves of the [async] functions as first-order continuations
    that the platform events resume. *)

From Stdlib Require Import String Ascii QArith Qminmax.
From stdpp Require Import base numbers option list relations.

Local Open Scope N_scope.

(** ** JavaScript strings

    A JS string is a sequence of UTF-16 code units.  This matters for
    [encodeURIComponent], which throws [URIError] on a lone surrogate. *)

Definition jsstring := list N.

Fixpoint js (s : string) : jsstring :=
  match s with
  | EmptyString => []
  | String a r => N_of_ascii a :: js r
  end.

Definition in_range (lo hi c : N) : bool := (lo <=? c) && (c <=? hi).

(** The characters [encodeURIComponent] leaves alone:
    [A-Z a-z 0-9 - _ . ! ~ * ' ( )]. *)
Definition isUnescaped (c : N) : bool :=
  in_range 65 90 c || in_range 97 122 c || in_range 48 57 c
  || bool_decide (c ∈ [45; 95; 46; 33; 126; 42; 39; 40; 41]).

Definition isLeadingSurrogate (c : N) : bool := in_range 0xD800 0xDBFF c.
Definition isTrailingSurrogate (c : N) : bool := in_range 0xDC00 0xDFFF c.

Definition surrogatePairToCodePoint (lead trail : N) : N :=
  (lead - 0xD800) * 0x400 + (trail - 0xDC00) + 0x10000.

Definition utf8 (cp : N) : list N :=
  if cp <? 0x80 then [cp]
  else if cp <? 0x800 then [0xC0 + cp / 64; 0x80 + cp mod 64]
  else if cp <? 0x10000 then
    [0xE0 + cp / 4096; 0x80 + (cp / 64) mod 64; 0x80 + cp mod 64]
  else
    [0xF0 + cp / 262144; 0x80 + (cp / 4096) mod 64;
     0x80 + (cp / 64) mod 64; 0x80 + cp mod 64].

Definition hexDigit (d : N) : N := if d <? 10 then 48 + d else 55 + d.

Definition percentEncode (octets : list N) : jsstring :=
  flat_map (fun b => [37; hexDigit (b / 16); hexDigit (b mod 16)]) octets.

(** [None] is the [URIError] exception. *)
Fixpoint encodeURIComponent (s : jsstring) : option jsstring :=
  match s with
  | [] => Some []
  | c :: rest =>
      if isUnescaped c then cons c <$> encodeURIComponent rest
      else if isTrailingSurrogate c then None
      else if isLeadingSurrogate c then
        match rest with
        | d :: rest' =>
            if isTrailingSurrogate d
            then app (percentEncode (utf8 (surrogatePairToCodePoint c d)))
                   <$> encodeURIComponent rest'
            else None
        | [] => None
        end
      else app (percentEncode (utf8 c)) <$> encodeURIComponent rest
  end.

(** ** Data model *)

Inductive Accent := US | UK.

(** A [SpeechSynthesisVoice]; only [lang] is read by the module. *)
Record Voice := mkVoice { voiceName : jsstring; lang : jsstring }.

(** A [SpeechSynthesisUtterance] as handed to [synth.speak].  JS numbers are
    taken as rationals (the module only compares and copies them). *)
Record Utterance := mkUtterance {
  u_text : jsstring;
  u_rate : Q;
  u_pitch : Q;
  u_volume : Q;
  u_voice : option Voice;
  u_lang : jsstring
}.

(** State of a promise. *)
Inductive PState := Pending | Resolved | Rejected.

(** The rest of [playTextToSpeech] after [await waitForVoices()]: its
    arguments and the promise of the call. *)
Record TtsK := mkTtsK {
  k_text : jsstring;
  k_accent : Accent;
  k_rate : Q;
  k_repeat : Z;
  k_op : nat
}.

(** Who awaits the promise returned by [playUrl]. *)
Inductive AudioWaiter :=
| WExternal                                   (* a caller outside the module *)
| WWord (text : jsstring) (accent : Accent) (speed : Q) (op : nat)
| WSentenceExplicit (text : jsstring) (accent : Accent) (speed : Q) (op : nat)
| WSentenceLookup (text : jsstring) (accent : Accent) (speed : Q) (op : nat).

(** An [HTMLAudioElement] created by [playUrl], with the promise whose
    [resolve]/[reject] its handlers close over. *)
Record AudioEl := mkAudio {
  a_src : jsstring;
  a_playbackRate : Q;
  a_paused : bool;
  a_ended : bool;
  a_error : bool;
  a_currentTime : Q;
  a_promise : PState;
  a_waiter : AudioWaiter
}.

Definition playing (a : AudioEl) : bool :=
  negb (a_paused a) && negb (a_ended a) && negb (a_error a).

(** [synth.onvoiceschanged]: [undefined] where the platform lacks the
    property, else [null] or the installed handler. *)
Inductive Ovc := OvcUndefined | OvcNull | OvcUpdateVoices.

(** A pending [waitForVoices] promise and the code awaiting it. *)
Record Wait := mkWait { w_state : PState; w_k : TtsK }.

Inductive LogEntry :=
| ConsoleWarn (msg : jsstring)
| ConsoleError (msg : jsstring).

Record World := mkWorld {
  (* module variables *)
  cachedVoices : list Voice;
  isLoaded : bool;
  currentAudio : option nat;
  (* window.speechSynthesis *)
  synthVoices : list Voice;          (* what getVoices() returns *)
  synthPaused : bool;
  synthQueue : list Utterance;
  onvoiceschanged : Ovc;
  voiceListeners : list nat;         (* 'voiceschanged' listeners, by wait *)
  (* window *)
  stopSignals : nat;                 (* dispatched 'reword:stop-media' *)
  console : list LogEntry;
  (* heap and runtime *)
  audios : list AudioEl;             (* an element's identity is its index *)
  waits : list Wait;
  timers : list (N * nat);           (* due time, wait *)
  now : N;                           (* clock, ms *)
  microtasks : list (TtsK * list Voice);
  ops : list PState                  (* promises of the async entry points *)
}.

Definition cache_voices (v : list Voice) (s : World) : World :=
  mkWorld v true (currentAudio s) (synthVoices s) (synthPaused s)
    (synthQueue s) (onvoiceschanged s) (voiceListeners s) (stopSignals s)
    (console s) (audios s) (waits s) (timers s) (now s) (microtasks s) (ops s).

Definition set_currentAudio (c : option nat) (s : World) : World :=
  mkWorld (cachedVoices s) (isLoaded s) c (synthVoices s) (synthPaused s)
    (synthQueue s) (onvoiceschanged s) (voiceListeners s) (stopSignals s)
    (console s) (audios s) (waits s) (timers s) (now s) (microtasks s) (ops s).

Definition set_synthVoices (v : list Voice) (s : World) : World :=
  mkWorld (cachedVoices s) (isLoaded s) (currentAudio s) v (synthPaused s)
    (synthQueue s) (onvoiceschanged s) (voiceListeners s) (stopSignals s)
    (console s) (audios s) (waits s) (timers s) (now s) (microtasks s) (ops s).

Definition set_synthPaused (b : bool) (s : World) : World :=
  mkWorld (cachedVoices s) (isLoaded s) (currentAudio s) (synthVoices s) b
    (synthQueue s) (onvoiceschanged s) (voiceListeners s) (stopSignals s)
    (console s) (audios s) (waits s) (timers s) (now s) (microtasks s) (ops s).

Definition set_synthQueue (q : list Utterance) (s : World) : World :=
  mkWorld (cachedVoices s) (isLoaded s) (currentAudio s) (synthVoices s)
    (synthPaused s) q (onvoiceschanged s) (voiceListeners s) (stopSignals s)
    (console s) (audios s) (waits s) (timers s) (now s) (microtasks s) (ops s).

Definition set_onvoiceschanged (o : Ovc) (s : World) : World :=
  mkWorld (cachedVoices s) (isLoaded s) (currentAudio s) (synthVoices s)
    (synthPaused s) (synthQueue s) o (voiceListeners s) (stopSignals s)
    (console s) (audios s) (waits s) (timers s) (now s) (microtasks s) (ops s).

Definition set_voiceListeners (l : list nat) (s : World) : World :=
  mkWorld (cachedVoices s) (isLoaded s) (currentAudio s) (synthVoices s)
    (synthPaused s) (synthQueue s) (onvoiceschanged s) l (stopSignals s)
    (console s) (audios s) (waits s) (timers s) (now s) (microtasks s) (ops s).

Definition set_stopSignals (n : nat) (s : World) : World :=
  mkWorld (cachedVoices s) (isLoaded s) (currentAudio s) (synthVoices s)
    (synthPaused s) (synthQueue s) (onvoiceschanged s) (voiceListeners s) n
    (console s) (audios s) (waits s) (timers s) (now s) (microtasks s) (ops s).

Definition set_console (c : list LogEntry) (s : World) : World :=
  mkWorld (cachedVoices s) (isLoaded s) (currentAudio s) (synthVoices s)
    (synthPaused s) (synthQueue s) (onvoiceschanged s) (voiceListeners s)
    (stopSignals s) c (audios s) (waits s) (timers s) (now s) (microtasks s)
    (ops s).

Definition set_audios (a : list AudioEl) (s : World) : World :=
  mkWorld (cachedVoices s) (isLoaded s) (currentAudio s) (synthVoices s)
    (synthPaused s) (synthQueue s) (onvoiceschanged s) (voiceListeners s)
    (stopSignals s) (console s) a (waits s) (timers s) (now s) (microtasks s)
    (ops s).

Definition set_waits (w : list Wait) (s : World) : World :=
  mkWorld (cachedVoices s) (isLoaded s) (currentAudio s) (synthVoices s)
    (synthPaused s) (synthQueue s) (onvoiceschanged s) (voiceListeners s)
    (stopSignals s) (console s) (audios s) w (timers s) (now s) (microtasks s)
    (ops s).

Definition set_timers (t : list (N * nat)) (s : World) : World :=
  mkWorld (cachedVoices s) (isLoaded s) (currentAudio s) (synthVoices s)
    (synthPaused s) (synthQueue s) (onvoiceschanged s) (voiceListeners s)
    (stopSignals s) (console s) (audios s) (waits s) t (now s) (microtasks s)
    (ops s).

Definition set_now (t : N) (s : World) : World :=
  mkWorld (cachedVoices s) (isLoaded s) (currentAudio s) (synthVoices s)
    (synthPaused s) (synthQueue s) (onvoiceschanged s) (voiceListeners s)
    (stopSignals s) (console s) (audios s) (waits s) (timers s) t
    (microtasks s) (ops s).

Definition set_microtasks (m : list (TtsK * list Voice)) (s : World) : World :=
  mkWorld (cachedVoices s) (isLoaded s) (currentAudio s) (synthVoices s)
    (synthPaused s) (synthQueue s) (onvoiceschanged s) (voiceListeners s)
    (stopSignals s) (console s) (audios s) (waits s) (timers s) (now s) m
    (ops s).

Definition set_ops (o : list PState) (s : World) : World :=
  mkWorld (cachedVoices s) (isLoaded s) (currentAudio s) (synthVoices s)
    (synthPaused s) (synthQueue s) (onvoiceschanged s) (voiceListeners s)
    (stopSignals s) (console s) (audios s) (waits s) (timers s) (now s)
    (microtasks s) o.

(** ** Audio elements *)

Definition with_playbackRate (r : Q) (a : AudioEl) : AudioEl :=
  mkAudio (a_src a) r (a_paused a) (a_ended a) (a_error a) (a_currentTime a)
    (a_promise a) (a_waiter a).

Definition with_paused (b : bool) (a : AudioEl) : AudioEl :=
  mkAudio (a_src a) (a_playbackRate a) b (a_ended a) (a_error a)
    (a_currentTime a) (a_promise a) (a_waiter a).

Definition with_ended (b : bool) (a : AudioEl) : AudioEl :=
  mkAudio (a_src a) (a_playbackRate a) (a_paused a) b (a_error a)
    (a_currentTime a) (a_promise a) (a_waiter a).

Definition with_error (b : bool) (a : AudioEl) : AudioEl :=
  mkAudio (a_src a) (a_playbackRate a) (a_paused a) (a_ended a) b
    (a_currentTime a) (a_promise a) (a_waiter a).

Definition with_currentTime (t : Q) (a : AudioEl) : AudioEl :=
  mkAudio (a_src a) (a_playbackRate a) (a_paused a) (a_ended a) (a_error a) t
    (a_promise a) (a_waiter a).

Definition with_promise (p : PState) (a : AudioEl) : AudioEl :=
  mkAudio (a_src a) (a_playbackRate a) (a_paused a) (a_ended a) (a_error a)
    (a_currentTime a) p (a_waiter a).

(** [new Audio(url)]: paused, at time 0, rate 1; the promise and its waiter
    are those of the enclosing [playUrl] call. *)
Definition newAudio (url : jsstring) (w : AudioWaiter) : AudioEl :=
  mkAudio url 1 true false false 0 Pending w.

Definition update_audio (f : AudioEl -> AudioEl) (a : nat) (s : World)
    : World :=
  set_audios (alter f a (audios s)) s.

Definition nonEmpty {A} (l : list A) : bool := (0 <? length l)%nat.

Definition resolve_op (op : nat) (s : World) : World :=
  set_ops (<[op := Resolved]> (ops s)) s.

Definition new_op (p : PState) (s : World) : World :=
  set_ops (ops s ++ [p]) s.

Definition log (e : LogEntry) (s : World) : World :=
  set_console (console s ++ [e]) s.

(** ** The module's functions *)

Definition updateVoices (s : World) : World :=
  let voices := synthVoices s in
  if nonEmpty voices then cache_voices voices s else s.

Definition preloadVoices (s : World) : World :=
  let s := updateVoices s in
  match onvoiceschanged s with
  | OvcUndefined => s
  | _ => set_onvoiceschanged OvcUpdateVoices s
  end.

Definition stopAudio (s : World) : World :=
  (* 1. synth.cancel() *)
  let s := set_synthQueue [] s in
  (* 2. the tracked element *)
  let s := match currentAudio s with
           | Some a =>
               let s := update_audio (with_paused true) a s in
               let s := update_audio (with_currentTime 0) a s in
               set_currentAudio None s
           | None => s
           end in
  (* 3. window.dispatchEvent(new CustomEvent('reword:stop-media')) *)
  set_stopSignals (S (stopSignals s)) s.

Definition synth_resume_if_paused (s : World) : World :=
  if synthPaused s then set_synthPaused false s else s.

Definition synth_speak (u : Utterance) (s : World) : World :=
  set_synthQueue (synthQueue s ++ [u]) s.

Definition unlockAudio (s : World) : World :=
  let s := synth_resume_if_paused s in
  synth_speak (mkUtterance (js " ") 10 1 0 None []) s.

Definition push_microtask (k : TtsK) (v : list Voice) (s : World) : World :=
  set_microtasks (microtasks s ++ [(k, v)]) s.

(** [resolve(v)] of the promise of wait [w]: the first call schedules the
    awaiting code, later calls do nothing. *)
Definition resolveWait (w : nat) (v : list Voice) (s : World) : World :=
  match waits s !! w with
  | Some (mkWait Pending k) =>
      push_microtask k v (set_waits (<[w := mkWait Resolved k]> (waits s)) s)
  | _ => s
  end.

Definition removeListener (w : nat) (s : World) : World :=
  set_voiceListeners (filter (fun x => x <> w) (voiceListeners s)) s.

(** The ['voiceschanged'] listener installed by wait [w]. *)
Definition voicesHandler (w : nat) (s : World) : World :=
  let v := synthVoices s in
  if nonEmpty v
  then resolveWait w v (removeListener w (cache_voices v s))
  else s.

(** The [setTimeout] callback installed by wait [w]. *)
Definition timeoutCallback (w : nat) (s : World) : World :=
  let s := removeListener w s in
  resolveWait w (synthVoices s) s.

(** [await waitForVoices()], with [k] the code that awaits it. *)
Definition waitForVoices (k : TtsK) (s : World) : World :=
  if isLoaded s && nonEmpty (cachedVoices s)
  then push_microtask k (cachedVoices s) s
  else
    let v := synthVoices s in
    if nonEmpty v then push_microtask k v (cache_voices v s)
    else
      let w := length (waits s) in
      let s := set_waits (waits s ++ [mkWait Pending k]) s in
      let s := set_voiceListeners (voiceListeners s ++ [w]) s in
      set_timers (timers s ++ [(now s + 2000, w)]) s.

(** [playUrl(url, playbackRate)]; the promise it returns is the one of the
    element it creates, whose index is [length (audios s)], and [w] is the
    code awaiting that promise. *)
Definition playUrl (url : jsstring) (playbackRate : Q) (w : AudioWaiter)
    (s : World) : World :=
  let s := stopAudio s in
  let audio := length (audios s) in
  let s := set_audios (audios s ++ [newAudio url w]) s in
  let s := set_currentAudio (Some audio) s in
  let s := update_audio (with_playbackRate playbackRate) audio s in
  update_audio (with_paused false) audio s.

Definition langTagOf (accent : Accent) : jsstring :=
  match accent with UK => js "en-GB" | US => js "en-US" end.

Definition startsWith (s p : jsstring) : bool := bool_decide (p `prefix_of` s).

(** [voices.find(v => v.lang === langTag) ||
     voices.find(v => v.lang.startsWith('en'))] *)
Definition targetVoice (voices : list Voice) (langTag : jsstring)
    : option Voice :=
  match List.find (fun v => bool_decide (lang v = langTag)) voices with
  | Some v => Some v
  | None => List.find (fun v => startsWith (lang v) (js "en")) voices
  end.

Definition safeRate (rate : Q) : Q := Qmax (1 # 10) (Qmin 10 rate).

Definition makeUtterance (text : jsstring) (rate : Q) (tv : option Voice)
    (langTag : jsstring) : Utterance :=
  match tv with
  | Some v => mkUtterance text (safeRate rate) 1 1 (Some v) (lang v)
  | None => mkUtterance text (safeRate rate) 1 1 None langTag
  end.

(** The body of the [for] loop, [n] iterations left. *)
Fixpoint speakLoop (n : nat) (u : Utterance) (s : World) : World :=
  match n with
  | O => s
  | S n' => speakLoop n' u (synth_speak u s)
  end.

(** [playTextToSpeech] from the point where [waitForVoices] delivered
    [voices]. *)
Definition ttsContinue (k : TtsK) (voices : list Voice) (s : World) : World :=
  let langTag := langTagOf (k_accent k) in
  let tv := targetVoice voices langTag in
  let s := speakLoop (Z.to_nat (k_repeat k))
             (makeUtterance (k_text k) (k_rate k) tv langTag) s in
  resolve_op (k_op k) s.

(** [playTextToSpeech] up to [await waitForVoices()].  [repeat] is a count,
    taken as an integer.  Nothing inside the [try] block throws here
    (creating an utterance, setting its fields, [synth.speak]), so the
    [catch] that logs ["TTS Error"] has nothing to catch. *)
Definition playTextToSpeech (text : jsstring) (accent : Accent) (rate : Q)
    (repeat : Z) (s : World) : World :=
  let op := length (ops s) in
  if negb (nonEmpty text) || (repeat <=? 0)%Z then new_op Resolved s
  else
    let s := new_op Pending s in
    let s := stopAudio s in
    let s := synth_resume_if_paused s in
    waitForVoices (mkTtsK text accent rate repeat op) s.

Definition typeOf (accent : Accent) : jsstring :=
  match accent with UK => js "1" | US => js "2" end.

(** [`https://dict.youdao.com/dictvoice?audio=${enc}&type=${type}`] *)
Definition dictvoiceUrl (enc : jsstring) (accent : Accent) : jsstring :=
  js "https://dict.youdao.com/dictvoice?audio=" ++ enc ++ js "&type="
    ++ typeOf accent.

(** [playSentenceAudio] from the dictionary lookup on (after the explicit
    URL was skipped or failed).  [encodeURIComponent] runs outside the
    [try], so its exception rejects the promise of the call. *)
Definition sentenceLookup (text : jsstring) (accent : Accent) (speed : Q)
    (op : nat) (s : World) : World :=
  match encodeURIComponent text with
  | None => set_ops (<[op := Rejected]> (ops s)) s
  | Some enc =>
      playUrl (dictvoiceUrl enc accent) speed
        (WSentenceLookup text accent speed op) s
  end.

(** The code after [await playUrl(...)], run when the promise settles. *)
Definition resume (w : AudioWaiter) (outcome : PState) (s : World) : World :=
  match w, outcome with
  | WExternal, _ => s
  | _, Pending => s
  | WWord text accent speed op, Resolved => resolve_op op s
  | WWord text accent speed op, Rejected =>
      let s := log (ConsoleWarn (js "Online audio failed for " ++ text
                                   ++ js ", falling back to TTS")) s in
      let s := playTextToSpeech text accent speed 1 s in
      resolve_op op s
  | WSentenceExplicit text accent speed op, Resolved => resolve_op op s
  | WSentenceExplicit text accent speed op, Rejected =>
      let s := log (ConsoleWarn (js "Explicit URL failed")) s in
      sentenceLookup text accent speed op s
  | WSentenceLookup text accent speed op, Resolved => resolve_op op s
  | WSentenceLookup text accent speed op, Rejected =>
      let s := playTextToSpeech text accent speed 1 s in
      resolve_op op s
  end.

(** [resolve()] / [reject(e)] of the promise of element [a]: only the first
    call settles it and resumes the awaiting code.  The resumed code runs
    right here: the handlers run in a task of their own, so the microtask
    that resumes it is the next thing to run. *)
Definition settle (a : nat) (outcome : PState) (s : World) : World :=
  match audios s !! a with
  | Some el =>
      match a_promise el with
      | Pending =>
          resume (a_waiter el) outcome (update_audio (with_promise outcome) a s)
      | _ => s
      end
  | None => s
  end.

(** [if (currentAudio === audio) currentAudio = null] *)
Definition clearIfCurrent (a : nat) (s : World) : World :=
  if decide (currentAudio s = Some a) then set_currentAudio None s else s.

Definition onended (a : nat) (s : World) : World :=
  settle a Resolved (clearIfCurrent a s).

Definition onerror (a : nat) (s : World) : World :=
  settle a Rejected (clearIfCurrent a s).

(** The [catch] callback on the promise of [audio.play()]. *)
Definition onPlayRejected (a : nat) (s : World) : World :=
  settle a Rejected (clearIfCurrent a s).

(** [playWordAudio] up to [await playUrl(url, speed)].  The URL is built
    before the [try]: an exception of [encodeURIComponent] rejects the
    promise of the call. *)
Definition playWordAudio (text : jsstring) (accent : Accent) (speed : Q)
    (s : World) : World :=
  let op := length (ops s) in
  if negb (nonEmpty text) then new_op Resolved s
  else
    match encodeURIComponent text with
    | None => new_op Rejected s
    | Some enc =>
        playUrl (dictvoiceUrl enc accent) speed (WWord text accent speed op)
          (new_op Pending s)
    end.

(** [if (explicitUrl)]: [undefined] and the empty string are falsy. *)
Definition truthy (u : option jsstring) : bool :=
  match u with Some x => nonEmpty x | None => false end.

(** [playSentenceAudio] up to its first [await]. *)
Definition playSentenceAudio (text : jsstring) (explicitUrl : option jsstring)
    (accent : Accent) (speed : Q) (s : World) : World :=
  let op := length (ops s) in
  let s := new_op Pending s in
  if truthy explicitUrl
  then playUrl (default [] explicitUrl) speed
         (WSentenceExplicit text accent speed op) s
  else sentenceLookup text accent speed op s.

(** ** The event loop

    A run is a sequence of calls into the module (from UI code), of platform
    events, and of task boundaries.  Microtasks (the code resumed by an
    already settled promise) run at task boundaries; every platform event is
    a task of its own. *)

Inductive Call :=
| CPreloadVoices
| CStopAudio
| CUnlockAudio
| CPlayUrl (url : jsstring) (playbackRate : Q)
| CPlayTextToSpeech (text : jsstring) (accent : Accent) (rate : Q) (repeat : Z)
| CPlayWordAudio (text : jsstring) (accent : Accent) (speed : Q)
| CPlaySentenceAudio (text : jsstring) (explicitUrl : option jsstring)
    (accent : Accent) (speed : Q).

Inductive Event :=
| EvEnded (a : nat)                 (* 'ended' on element a *)
| EvError (a : nat)                 (* 'error' on element a *)
| EvPlayRejected (a : nat)          (* the promise of a.play() rejects *)
| EvTimeUpdate (a : nat) (t : Q)    (* playback of a advances to t *)
| EvVoices (v : list Voice) (fire : bool)
                                    (* the platform's voice list becomes v,
                                       with or without 'voiceschanged' *)
| EvTimer                           (* the oldest timer fires, if due *)
| EvTick (dt : N)                   (* dt ms pass *)
| EvUtteranceEnd.                   (* the utterance being spoken finishes *)

Inductive Label :=
| LCall (c : Call)
| LEvent (e : Event)
| LYield.

Definition call (c : Call) (s : World) : World :=
  match c with
  | CPreloadVoices => preloadVoices s
  | CStopAudio => stopAudio s
  | CUnlockAudio => unlockAudio s
  | CPlayUrl url r => playUrl url r WExternal s
  | CPlayTextToSpeech t a r n => playTextToSpeech t a r n s
  | CPlayWordAudio t a sp => playWordAudio t a sp s
  | CPlaySentenceAudio t u a sp => playSentenceAudio t u a sp s
  end.

(** Dispatch of ['voiceschanged']: the [onvoiceschanged] handler and the
    listeners present at dispatch.  All of them store the same list, so
    their relative order does not matter. *)
Definition fireVoicesChanged (s : World) : World :=
  let s := match onvoiceschanged s with
           | OvcUpdateVoices => updateVoices s
           | _ => s
           end in
  foldl (fun s w => voicesHandler w s) s (voiceListeners s).

(** A platform event: the change on the platform side, then the handler
    the module installed.  [audio.play()] is taken to start playback at
    once; when its promise rejects (autoplay block, unsupported source) the
    element is back to paused. *)
Definition handle (e : Event) (s : World) : World :=
  match e with
  | EvEnded a => onended a (update_audio (with_ended true) a s)
  | EvError a => onerror a (update_audio (with_error true) a s)
  | EvPlayRejected a => onPlayRejected a (update_audio (with_paused true) a s)
  | EvTimeUpdate a t =>
      match audios s !! a with
      | Some el => if playing el then update_audio (with_currentTime t) a s
                   else s
      | None => s
      end
  | EvVoices v fire =>
      let s := set_synthVoices v s in
      if fire then fireVoicesChanged s else s
  | EvTimer =>
      match timers s with
      | (due, w) :: rest =>
          if due <=? now s then timeoutCallback w (set_timers rest s) else s
      | [] => s
      end
  | EvTick dt => set_now (now s + dt) s
  | EvUtteranceEnd =>
      if synthPaused s then s else set_synthQueue (tail (synthQueue s)) s
  end.

(** Run the queued microtasks.  The resumed code queues none itself. *)
Definition drain (s : World) : World :=
  foldl (fun s m => ttsContinue (fst m) (snd m) s) (set_microtasks [] s)
    (microtasks s).

Definition step (l : Label) (s : World) : World :=
  match l with
  | LCall c => call c s
  | LEvent e => drain (handle e (drain s))
  | LYield => drain s
  end.

Definition run (ls : list Label) (s : World) : World :=
  foldl (fun s l => step l s) s ls.

(** The state at module load: nothing cached, nothing tracked; the platform
    decides which voices exist and whether [onvoiceschanged] is supported. *)
Definition init (v : list Voice) (o : Ovc) : World :=
  mkWorld [] false None v false [] o [] 0 [] [] [] [] 0 [] [].

Definition reachable (s : World) : Prop :=
  exists v o ls, s = run ls (init v o).

(** ** Predicates used in the statements *)

(** Every element that is playing is the tracked one. *)
Definition tracked_if_playing (s : World) : Prop :=
  forall i el, audios s !! i = Some el -> playing el = true ->
               currentAudio s = Some i.

(** No element is playing. *)
Definition silent (s : World) : Prop :=
  forall i el, audios s !! i = Some el -> playing el = false.

(** [s'] has the elements and the tracked handle of [s]. *)
Definition same_audio (s s' : World) : Prop :=
  audios s' = audios s /\ currentAudio s' = currentAudio s.

(** The calls that begin a playback (their guards pass and the lookup URL
    can be built). *)
Definition starts_playback (c : Call) : bool :=
  match c with
  | CPlayUrl _ _ => true
  | CPlayTextToSpeech text _ _ repeat => nonEmpty text && (0 <? repeat)%Z
  | CPlayWordAudio text _ _ =>
      nonEmpty text && bool_decide (is_Some (encodeURIComponent text))
  | CPlaySentenceAudio text u _ _ =>
      truthy u || bool_decide (is_Some (encodeURIComponent text))
  | _ => false
  end.

(** Two sample runs. *)
Definition two_plays : list Label :=
  [LCall (CPlayUrl (js "a.mp3") 1); LYield; LCall (CPlayUrl (js "b.mp3") 1)].













Definition warnOnline (text : jsstring) : LogEntry :=
  ConsoleWarn (js "Online audio failed for " ++ text
                 ++ js ", falling back to TTS").

Definition warnExplicit : LogEntry := ConsoleWarn (js "Explicit URL failed").

(** Sample data for the scenarios. *)
Definition voiceUS : Voice := mkVoice (js "Samantha") (js "en-US").
Definition voiceGB : Voice := mkVoice (js "Daniel") (js "en-GB").
Definition voiceAU : Voice := mkVoice (js "Karen") (js "en-AU").
Definition voiceFR : Voice := mkVoice (js "Thomas") (js "fr-FR").
Definition hello : jsstring := js "hello".

(** The voices [waitForVoices] can deliver without waiting: the cached
    catalog, else the platform's current list when it is not empty. *)
Definition available (s : World) : option (list Voice) :=
  if isLoaded s && nonEmpty (cachedVoices s) then Some (cachedVoices s)
  else if nonEmpty (synthVoices s) then Some (synthVoices s)
  else None.

(** [v] is the first element of [l] that satisfies [f]. *)
Definition first_with {A} (f : A -> bool) (l : list A) (v : A) : Prop :=
  exists l1 l2, l = l1 ++ v :: l2 /\ f v = true
                /\ forall x, In x l1 -> f x = false.

Definition hasLang (tag : jsstring) (v : Voice) : bool :=
  bool_decide (lang v = tag).

Definition isEnglish (v : Voice) : bool := startsWith (lang v) (js "en").

(** ** The atomic state changes of the module

    Every function of the module, and every platform event, is a sequence
    of the changes below.  [okText] restricts the texts handed to the entry
    points and [okVoices] the voice lists the platform may switch to, so
    that invariants can be stated for restricted runs. *)

Definition ok_waiter (okText : jsstring -> Prop) (w : AudioWaiter) : Prop :=
  match w with
  | WExternal => True
  | WWord t _ _ _ | WSentenceExplicit t _ _ _ | WSentenceLookup t _ _ _ =>
      okText t
  end.

Definition waiters_ok (okText : jsstring -> Prop) (s : World) : Prop :=
  forall i el, audios s !! i = Some el -> ok_waiter okText (a_waiter el).

(** [s'] differs from [s] only in the audio flags, the handle, the speech
    queue and pause flag, [onvoiceschanged], the signal count, the console. *)
Definition frame_eq (s s' : World) : Prop :=
  cachedVoices s' = cachedVoices s /\ isLoaded s' = isLoaded s
  /\ synthVoices s' = synthVoices s
  /\ voiceListeners s' = voiceListeners s
  /\ waits s' = waits s /\ timers s' = timers s /\ now s' = now s
  /\ microtasks s' = microtasks s /\ ops s' = ops s
  /\ (a_waiter <$> audios s') = (a_waiter <$> audios s).

Inductive move (okText : jsstring -> Prop) (okVoices : list Voice -> Prop)
    : World -> World -> Prop :=
| mv_frame s s' : frame_eq s s' -> move okText okVoices s s'
| mv_cache s :
    nonEmpty (synthVoices s) = true ->
    move okText okVoices s (cache_voices (synthVoices s) s)
| mv_register k s :
    available s = None ->
    move okText okVoices s
      (set_timers (timers s ++ [((now s + 2000)%N, length (waits s))])
         (set_voiceListeners (voiceListeners s ++ [length (waits s)])
            (set_waits (waits s ++ [mkWait Pending k]) s)))
| mv_voices w s :
    nonEmpty (synthVoices s) = true ->
    move okText okVoices s
      (resolveWait w (synthVoices s) (removeListener w s))
| mv_timeout due w rest s :
    timers s = (due, w) :: rest -> (due <= now s)%N ->
    move okText okVoices s (timeoutCallback w (set_timers rest s))
| mv_push k v s :
    available s = Some v -> move okText okVoices s (push_microtask k v s)
| mv_drain s : move okText okVoices s (set_microtasks [] s)
| mv_new_op p s : p <> Rejected -> move okText okVoices s (new_op p s)
| mv_resolve_op op s : move okText okVoices s (resolve_op op s)
| mv_reject_new text s :
    encodeURIComponent text = None -> okText text ->
    move okText okVoices s (new_op Rejected s)
| mv_reject text op s :
    encodeURIComponent text = None -> okText text ->
    move okText okVoices s (set_ops (<[op := Rejected]> (ops s)) s)
| mv_audio url w s :
    ok_waiter okText w ->
    move okText okVoices s (set_audios (audios s ++ [newAudio url w]) s)
| mv_tick dt s : move okText okVoices s (set_now (now s + dt)%N s)
| mv_platform v s : okVoices v -> move okText okVoices s (set_synthVoices v s).

Definition moves (okText : jsstring -> Prop) (okVoices : list Voice -> Prop)
    : World -> World -> Prop :=
  rtc (move okText okVoices).

Definition ok_call (okText : jsstring -> Prop) (c : Call) : Prop :=
  match c with
  | CPlayWordAudio t _ _ => okText t
  | CPlaySentenceAudio t _ _ _ => okText t
  | _ => True
  end.

Definition ok_event (okVoices : list Voice -> Prop) (e : Event) : Prop :=
  match e with
  | EvVoices v _ => okVoices v
  | _ => True
  end.

Definition ok_label (okText : jsstring -> Prop)
    (okVoices : list Voice -> Prop) (l : Label) : Prop :=
  match l with
  | LCall c => ok_call okText c
  | LEvent e => ok_event okVoices e
  | LYield => True
  end.

(** Number of steps of a run at which the cached catalog goes from empty to
    non-empty. *)
Fixpoint fills (ls : list Label) (s : World) : nat :=
  match ls with
  | [] => 0
  | l :: ls' =>
      ((if negb (nonEmpty (cachedVoices s))
           && nonEmpty (cachedVoices (step l s)) then 1 else 0)
       + fills ls' (step l s))%nat
  end.


Definition anyVoices (v : list Voice) : Prop := True.



(** ** Predicates about [waitForVoices] *)

Definition anyText (t : jsstring) : Prop := True.

(** The platform reports no voice. *)
Definition noVoices (v : list Voice) : Prop := v = [].

(** A run in which the platform has no voices: its voice list, if it
    changes at all, stays empty. *)
Definition voiceless (ls : list Label) : Prop :=
  Forall (ok_label anyText noVoices) ls.

(** Wait [w], created for the awaiting code [k], is in state [st]. *)
Definition wait_is (w : nat) (k : TtsK) (st : PState) (s : World) : Prop :=
  waits s !! w = Some (mkWait st k).

(** No timer is further away than 2000 ms. *)
Definition timers_near (s : World) : Prop :=
  Forall (fun x => (fst x <= now s + 2000)%N) (timers s).

(** While wait [w] is pending, its timer, due at [B], is queued behind
    timers that are due no later. *)
Definition timer_queued (w : nat) (k : TtsK) (B : N) (s : World) : Prop :=
  wait_is w k Pending s ->
  exists pre post, timers s = pre ++ (B, w) :: post
                   /\ Forall (fun x => (fst x <= B)%N) pre.

(** [n] timer events in a row. *)
Definition timer_events (n : nat) : list Label :=
  replicate n (LEvent EvTimer).

(** Wait [w] exists, was created for [k], and is pending or resolved. *)
Definition wait_alive (w : nat) (k : TtsK) (s : World) : Prop :=
  exists st, wait_is w k st s /\ st <> Rejected.

(** In a run without voices: until time [B], wait [w] stays pending. *)
Definition pending_until (w : nat) (k : TtsK) (B : N) (s : World) : Prop :=
  synthVoices s = []
  /\ (w < length (waits s))%nat
  /\ (forall d, (d, w) ∈ timers s -> d = B)
  /\ ((now s < B)%N -> wait_is w k Pending s).

(** Every timer belongs to a wait that exists. *)
Definition timers_bound (s : World) : Prop :=
  Forall (fun x => (snd x < length (waits s))%nat) (timers s).

Definition sampleK : TtsK := mkTtsK hello US 1 1 0.

(** Every pending wait has its [voiceschanged] listener installed. *)
Definition listening (s : World) : Prop :=
  forall w k, wait_is w k Pending s -> w ∈ voiceListeners s.

(** ** The primitive actions of the module

    A finer account of what the functions do than [move]: every function
    of the module and every platform event is a sequence of the actions
    below, each with the precondition under which the code performs it. *)

(** The flags the platform sets on an element whose playback is over. *)
Inductive is_mark : (AudioEl -> AudioEl) -> Prop :=
| mark_ended : is_mark (with_ended true)
| mark_error : is_mark (with_error true)
| mark_paused : is_mark (with_paused true).

(** The utterances the module hands to [synth.speak]: the silent one of
    [unlockAudio] and those of the loop of [playTextToSpeech]. *)
Inductive spoken : Utterance -> Prop :=
| spoken_unlock : spoken (mkUtterance (js " ") 10 1 0 None [])
| spoken_tts text rate voices accent :
    spoken (makeUtterance text rate
              (targetVoice voices (langTagOf accent)) (langTagOf accent)).

(** The promise of an entry point that the code awaiting an element
    settles. *)
Definition waiter_op (w : AudioWaiter) : option nat :=
  match w with
  | WExternal => None
  | WWord _ _ _ op | WSentenceExplicit _ _ _ op | WSentenceLookup _ _ _ op =>
      Some op
  end.

(** [drains] tells whether emptying the microtask queue (the first thing
    [drain] does) is among the actions; calls and event handlers do
    without it. *)
Inductive act (drains : bool) : World -> World -> Prop :=
| act_stop s : act drains s (stopAudio s)
| act_play_external url r s : act drains s (playUrl url r WExternal s)
| act_play_fresh url r w s :
    waiter_op w = Some (length (ops s)) ->
    act drains s (playUrl url r w (new_op Pending s))
| act_play_inherit url r text accent speed op a el s :
    audios s !! a = Some el ->
    a_waiter el = WSentenceExplicit text accent speed op ->
    act drains s (playUrl url r (WSentenceLookup text accent speed op) s)
| act_cache s :
    nonEmpty (synthVoices s) = true ->
    act drains s (cache_voices (synthVoices s) s)
| act_install s :
    onvoiceschanged s <> OvcUndefined ->
    act drains s (set_onvoiceschanged OvcUpdateVoices s)
| act_resume s : act drains s (synth_resume_if_paused s)
| act_speak u s : spoken u -> act drains s (synth_speak u s)
| act_push k v s : act drains s (push_microtask k v s)
| act_register k s :
    available s = None ->
    act drains s
      (set_timers (timers s ++ [((now s + 2000)%N, length (waits s))])
         (set_voiceListeners (voiceListeners s ++ [length (waits s)])
            (set_waits (waits s ++ [mkWait Pending k]) s)))
| act_unlisten w s : act drains s (removeListener w s)
| act_resolve_wait w v s :
    w ∉ voiceListeners s -> act drains s (resolveWait w v s)
| act_pop_timer due w rest s :
    timers s = (due, w) :: rest -> (due <= now s)%N ->
    act drains s (set_timers rest s)
| act_new_op p s : act drains s (new_op p s)
| act_resolve_op op s : act drains s (resolve_op op s)
| act_reject_fresh s :
    act drains s
      (set_ops (<[length (ops s) := Rejected]> (ops (new_op Pending s)))
         (new_op Pending s))
| act_reject_inherit text accent speed op a el s :
    audios s !! a = Some el ->
    a_waiter el = WSentenceExplicit text accent speed op ->
    act drains s (set_ops (<[op := Rejected]> (ops s)) s)
| act_log e s : act drains s (log e s)
| act_mark f a s : is_mark f -> act drains s (update_audio f a s)
| act_clear a s : act drains s (clearIfCurrent a s)
| act_settle a o s :
    currentAudio s <> Some a -> a_promise <$> audios s !! a = Some Pending ->
    o <> Pending ->
    act drains s (update_audio (with_promise o) a s)
| act_time a t el s :
    audios s !! a = Some el -> playing el = true ->
    act drains s (update_audio (with_currentTime t) a s)
| act_voices v s : act drains s (set_synthVoices v s)
| act_tick dt s : act drains s (set_now (now s + dt)%N s)
| act_utterance_end s :
    synthPaused s = false ->
    act drains s (set_synthQueue (tail (synthQueue s)) s)
| act_drain s : drains = true -> act drains s (set_microtasks [] s).

Definition acts (drains : bool) : World -> World -> Prop := rtc (act drains).

(** ** Predicates of the further properties *)

(** What the platform accepts and the module intends of an utterance: a
    rate within [0.1, 10], pitch 1, the language of its voice when it has
    one, and an English language tag unless it is the silent utterance of
    [unlockAudio]. *)
Definition speech_ok (u : Utterance) : Prop :=
  (1 # 10 <= u_rate u)%Q /\ (u_rate u <= 10)%Q /\ (u_pitch u == 1)%Q
  /\ (forall v, u_voice u = Some v -> u_lang u = lang v)
  /\ (startsWith (u_lang u) (js "en") = true
      \/ (u_volume u == 0)%Q /\ u_text u = js " ").

(** From [s] to [s'] no element began to play unless a Stop Signal was
    dispatched in between. *)
Definition announced (s s' : World) : Prop :=
  (stopSignals s <= stopSignals s')%nat
  /\ (stopSignals s' = stopSignals s ->
      forall i el', audios s' !! i = Some el' -> playing el' = true ->
                    exists el, audios s !! i = Some el /\ playing el = true).


(** Every ['voiceschanged'] listener belongs to a pending wait, once. *)
Definition listeners_live (s : World) : Prop :=
  NoDup (voiceListeners s)
  /\ forall w, w ∈ voiceListeners s -> exists k, wait_is w k Pending s.

(** Every pending wait has its timer queued. *)
Definition timers_cover (s : World) : Prop :=
  forall w k, wait_is w k Pending s -> exists due, (due, w) ∈ timers s.

(** The code awaiting the elements, in the order of the elements. *)
Definition waiters (s : World) : list AudioWaiter := a_waiter <$> audios s.

(** Every promise that awaiting code will settle exists. *)
Definition waiter_bound (s : World) : Prop :=
  forall w op, w ∈ waiters s -> waiter_op w = Some op ->
               (op < length (ops s))%nat.

(** Promise [op] exists and no code awaiting an explicit URL holds it (the
    only code that may reject the promise it holds). *)
Definition op_unshared (op : nat) (s : World) : Prop :=
  (op < length (ops s))%nat
  /\ forall text accent speed,
       WSentenceExplicit text accent speed op ∉ waiters s.

(** Where a [playTextToSpeech] call stands: its promise is resolved, or
    the code [k] that will resolve it is queued as a microtask, or it waits
    for the voices in wait [w]. *)
Definition tts_progress (k : TtsK) (ow : option nat) (s : World) : Prop :=
  ops s !! k_op k = Some Resolved
  \/ (exists v, (k, v) ∈ microtasks s)
  \/ (exists w, ow = Some w /\ wait_is w k Pending s).

(** ** Predicates about the lookup URL *)

(** A JS string proper: every element is a 16-bit code unit. *)
Definition codeUnits (s : jsstring) : Prop := Forall (fun c => c < 65536) s.

(** What [encodeURIComponent] emits: an unreserved character or ['%']. *)
Definition urlSafe (c : N) : Prop := isUnescaped c = true \/ c = 37.

(** The code units that one step of [encodeURIComponent] escapes together,
    and the code point they stand for. *)
Definition escaped_unit (u : jsstring) (cp : N) : Prop :=
  (u = [cp] /\ cp < 0x10000 /\ isUnescaped cp = false
   /\ isLeadingSurrogate cp = false /\ isTrailingSurrogate cp = false)
  \/ (exists lead trail,
        u = [lead; trail] /\ isLeadingSurrogate lead = true
        /\ isTrailingSurrogate trail = true
        /\ cp = surrogatePairToCodePoint lead trail).

(** * The media sections of the word-detail page (MediaSection)

    Three components play media of their own and take part in the
    coordination: each subscribes to ['reword:stop-media'] while mounted and
    calls [stopAudio] (imported as [stopGlobalAudio]) before it starts to
    play.  A component is modelled by its React state and, for the music
    player, the flags of its [<audio>] element; its event handlers are
    functions on the state of the page. *)

(** [VideoLectureSection]: the number of videos it was given, [activeIdx]
    and [isPlaying].  The [<video autoPlay>] element is rendered exactly
    while [isPlaying] holds. *)
Record Lecture := mkLecture {
  l_videos : nat;
  l_activeIdx : Z;
  l_isPlaying : bool
}.

(** [VideoSceneSection]: the number of sentences and [playingId]; the
    [<video autoPlay>] of a card is rendered exactly while [playingId] is
    its index. *)
Record Scene := mkScene {
  sc_sents : nat;
  sc_playingId : option nat
}.

(** [MusicSection]: the number of songs, [activeIdx], [isPlaying], and the
    [paused] and [ended] flags of the [<audio>] element behind [audioRef]
    (the element exists when there is a song to render). *)
Record Music := mkMusic {
  m_sents : nat;
  m_activeIdx : Z;
  m_isPlaying : bool;
  m_paused : bool;
  m_ended : bool
}.

Record Page := mkPage {
  world : World;
  lecture : option Lecture;
  scene : option Scene;
  music : option Music
}.

Definition set_world (w : World) (p : Page) : Page :=
  mkPage w (lecture p) (scene p) (music p).

Definition set_lecture (l : option Lecture) (p : Page) : Page :=
  mkPage (world p) l (scene p) (music p).

Definition set_scene (s : option Scene) (p : Page) : Page :=
  mkPage (world p) (lecture p) s (music p).

Definition set_music (m : option Music) (p : Page) : Page :=
  mkPage (world p) (lecture p) (scene p) m.

Definition setIsPlaying (b : bool) (l : Lecture) : Lecture :=
  mkLecture (l_videos l) (l_activeIdx l) b.

Definition setActiveIdx (i : Z) (l : Lecture) : Lecture :=
  mkLecture (l_videos l) i (l_isPlaying l).

Definition setPlayingId (i : option nat) (s : Scene) : Scene :=
  mkScene (sc_sents s) i.

Definition music_setIsPlaying (b : bool) (m : Music) : Music :=
  mkMusic (m_sents m) (m_activeIdx m) b (m_paused m) (m_ended m).

Definition music_setActiveIdx (i : Z) (m : Music) : Music :=
  mkMusic (m_sents m) i (m_isPlaying m) (m_paused m) (m_ended m).

(** [audioRef.current.pause()] *)
Definition music_pause (m : Music) : Music :=
  mkMusic (m_sents m) (m_activeIdx m) (m_isPlaying m) true (m_ended m).

(** [audioRef.current.play()], taken to start playback at once (from the
    beginning when the song had ended). *)
Definition music_play (m : Music) : Music :=
  mkMusic (m_sents m) (m_activeIdx m) (m_isPlaying m) false false.

(** [audioRef.current] is the element once a song is rendered. *)
Definition has_audioRef (m : Music) : bool := (0 <? m_sents m)%nat.

(** The three [handleStop] listeners. *)
Definition lecture_handleStop (l : Lecture) : Lecture := setIsPlaying false l.

Definition scene_handleStop (s : Scene) : Scene := setPlayingId None s.

Definition music_handleStop (m : Music) : Music :=
  let m := if has_audioRef m then music_pause m else m in
  music_setIsPlaying false m.

(** Dispatch of ['reword:stop-media'] to the mounted components. *)
Definition dispatchStop (p : Page) : Page :=
  mkPage (world p) (lecture_handleStop <$> lecture p)
    (scene_handleStop <$> scene p) (music_handleStop <$> music p).

(** [stopAudio] called on the page: the module's part, then the listeners
    (the dispatch is the last statement of [stopAudio]). *)
Definition stopGlobalAudio (p : Page) : Page :=
  dispatchStop (set_world (stopAudio (world p)) p).

(** The effect of [VideoLectureSection] that depends on [activeIdx]:
    [stopGlobalAudio(); setIsPlaying(false)].  It runs after mount and
    after every change of [activeIdx]. *)
Definition lecture_effect (p : Page) : Page :=
  let p := stopGlobalAudio p in
  set_lecture (setIsPlaying false <$> lecture p) p.

Definition mountLecture (videos : nat) (p : Page) : Page :=
  match lecture p with
  | Some _ => p
  | None => lecture_effect (set_lecture (Some (mkLecture videos 0 false)) p)
  end.

(** [handlePlayClick]; the button is rendered when there is a video. *)
Definition handlePlayClick (p : Page) : Page :=
  match lecture p with
  | Some l =>
      if (0 <? l_videos l)%nat then
        if negb (l_isPlaying l)
        then let p := stopGlobalAudio p in
             set_lecture (setIsPlaying true <$> lecture p) p
        else set_lecture (Some (setIsPlaying false l)) p
      else p
  | None => p
  end.

(** [setActiveIdx(f)] from the arrows, rendered when there are several
    videos; a change of [activeIdx] triggers the effect. *)
Definition lecture_navigate (f : Lecture -> Z) (p : Page) : Page :=
  match lecture p with
  | Some l =>
      if (1 <? l_videos l)%nat then
        let i := f l in
        if decide (i = l_activeIdx l) then p
        else lecture_effect (set_lecture (Some (setActiveIdx i l)) p)
      else p
  | None => p
  end.

(** [p => Math.max(0, p - 1)] *)
Definition lecture_prev (l : Lecture) : Z := Z.max 0 (l_activeIdx l - 1).

(** [p => Math.min(videos.length - 1, p + 1)] *)
Definition lecture_next (l : Lecture) : Z :=
  Z.min (Z.of_nat (l_videos l) - 1) (l_activeIdx l + 1).

(** [onEnded] of the lecture video, which exists while [isPlaying]. *)
Definition lecture_onEnded (p : Page) : Page :=
  match lecture p with
  | Some l => if l_isPlaying l
              then set_lecture (Some (setIsPlaying false l)) p else p
  | None => p
  end.

Definition mountScene (sents : nat) (p : Page) : Page :=
  match scene p with
  | Some _ => p
  | None => set_scene (Some (mkScene sents None)) p
  end.

(** [handlePlay(idx)], from the button of card [idx]. *)
Definition handlePlay (idx : nat) (p : Page) : Page :=
  match scene p with
  | Some s =>
      if (idx <? sc_sents s)%nat then
        if decide (sc_playingId s = Some idx)
        then set_scene (Some (setPlayingId None s)) p
        else let p := stopGlobalAudio p in
             set_scene (setPlayingId (Some idx) <$> scene p) p
      else p
  | None => p
  end.

(** [onEnded] of the scene video being played. *)
Definition scene_onEnded (p : Page) : Page :=
  set_scene (setPlayingId None <$> scene p) p.

Definition mountMusic (sents : nat) (p : Page) : Page :=
  match music p with
  | Some _ => p
  | None => set_music (Some (mkMusic sents 0 false true false)) p
  end.

(** [togglePlay] *)
Definition togglePlay (p : Page) : Page :=
  match music p with
  | Some m =>
      if negb (has_audioRef m) then p
      else if m_isPlaying m
      then set_music (Some (music_setIsPlaying false (music_pause m))) p
      else let p := stopGlobalAudio p in
           set_music
             ((fun m => music_setIsPlaying true (music_play m)) <$> music p) p
  | None => p
  end.

(** The arrows of the music player, rendered when there are several songs:
    they change [activeIdx] and nothing else. *)
Definition music_navigate (f : Music -> Z) (p : Page) : Page :=
  match music p with
  | Some m => if (1 <? m_sents m)%nat
              then set_music (Some (music_setActiveIdx (f m) m)) p else p
  | None => p
  end.

Definition music_prev (m : Music) : Z := Z.max 0 (m_activeIdx m - 1).

Definition music_next (m : Music) : Z :=
  Z.min (Z.of_nat (m_sents m) - 1) (m_activeIdx m + 1).

(** The song reaches its end: the element has ended and [onEnded] runs. *)
Definition music_onEnded (p : Page) : Page :=
  match music p with
  | Some m =>
      if has_audioRef m
      then set_music
             (Some (music_setIsPlaying false
                      (mkMusic (m_sents m) (m_activeIdx m) (m_isPlaying m)
                         (m_paused m) true))) p
      else p
  | None => p
  end.

(** The promise of [play()] rejects: the element is paused (again) and
    [console.error] logs the error, [msg]. *)
Definition music_playRejected (msg : jsstring) (p : Page) : Page :=
  match music p with
  | Some m =>
      if has_audioRef m
      then set_world (log (ConsoleError msg) (world p))
             (set_music (Some (music_pause m)) p)
      else p
  | None => p
  end.

(** The platform pauses the element on its own (it loads a new source
    after [activeIdx] changed). *)
Definition music_reload (p : Page) : Page :=
  set_music (music_pause <$> music p) p.

(** ** Runs of the page *)

Inductive PLabel :=
| PModule (l : Label)          (* a call into the module or a platform event *)
| PMountLecture (videos : nat)
| PUnmountLecture
| PLecturePlayClick
| PLecturePrev
| PLectureNext
| PLectureEnded
| PMountScene (sents : nat)
| PUnmountScene
| PScenePlay (idx : nat)
| PSceneEnded
| PMountMusic (sents : nat)
| PUnmountMusic
| PMusicToggle
| PMusicPrev
| PMusicNext
| PMusicEnded
| PMusicPlayRejected (msg : jsstring)
| PMusicReload.

(** A step of the module inside the page.  The listeners of the components
    touch no state of the module and running them twice is running them
    once, so they are run once, after the step, when the step dispatched
    the signal. *)
Definition module_step (l : Label) (p : Page) : Page :=
  let w := step l (world p) in
  let p' := set_world w p in
  if (stopSignals (world p) <? stopSignals w)%nat then dispatchStop p'
  else p'.

Definition page_step (l : PLabel) (p : Page) : Page :=
  match l with
  | PModule l => module_step l p
  | PMountLecture n => mountLecture n p
  | PUnmountLecture => set_lecture None p
  | PLecturePlayClick => handlePlayClick p
  | PLecturePrev => lecture_navigate lecture_prev p
  | PLectureNext => lecture_navigate lecture_next p
  | PLectureEnded => lecture_onEnded p
  | PMountScene n => mountScene n p
  | PUnmountScene => set_scene None p
  | PScenePlay idx => handlePlay idx p
  | PSceneEnded => scene_onEnded p
  | PMountMusic n => mountMusic n p
  | PUnmountMusic => set_music None p
  | PMusicToggle => togglePlay p
  | PMusicPrev => music_navigate music_prev p
  | PMusicNext => music_navigate music_next p
  | PMusicEnded => music_onEnded p
  | PMusicPlayRejected msg => music_playRejected msg p
  | PMusicReload => music_reload p
  end.

Definition page_run (ls : list PLabel) (p : Page) : Page :=
  foldl (fun p l => page_step l p) p ls.

(** The page when the module has loaded and no section is mounted. *)
Definition initPage (v : list Voice) (o : Ovc) : Page :=
  mkPage (init v o) None None None.

Definition page_reachable (p : Page) : Prop :=
  exists v o ls, p = page_run ls (initPage v o).

(** ** Predicates about the page *)

Definition lecture_playing (p : Page) : bool :=
  match lecture p with Some l => l_isPlaying l | None => false end.

Definition scene_playing (p : Page) : bool :=
  match scene p with
  | Some s => bool_decide (is_Some (sc_playingId s))
  | None => false
  end.

(** The [<audio>] element of the music player sounds. *)
Definition music_audible (p : Page) : bool :=
  match music p with
  | Some m => has_audioRef m && negb (m_paused m) && negb (m_ended m)
  | None => false
  end.

(** The number of sections that play. *)
Definition sections_playing (p : Page) : nat :=
  (Nat.b2n (lecture_playing p) + Nat.b2n (scene_playing p)
   + Nat.b2n (music_audible p))%nat.

(** At most one source plays on the page: at most one section, and no
    element of the module while a section plays (at most one element
    otherwise, the tracked one). *)
Definition one_source (p : Page) : Prop :=
  tracked_if_playing (world p)
  /\ (sections_playing p <= 1)%nat
  /\ (sections_playing p = 1%nat -> silent (world p)).

(** Nothing plays on the page, speech aside. *)
Definition page_silent (p : Page) : Prop :=
  silent (world p) /\ sections_playing p = 0%nat.

(** The indices held by the sections are those of an item they were
    given. *)
Definition indices_ok (p : Page) : Prop :=
  (forall l, lecture p = Some l ->
             (0 <= l_activeIdx l)%Z
             /\ ((0 < l_videos l)%nat ->
                 (l_activeIdx l < Z.of_nat (l_videos l))%Z))
  /\ (forall s i, scene p = Some s -> sc_playingId s = Some i ->
                  (i < sc_sents s)%nat)
  /\ (forall m, music p = Some m ->
                (0 <= m_activeIdx m)%Z
                /\ ((0 < m_sents m)%nat ->
                    (m_activeIdx m < Z.of_nat (m_sents m))%Z)).

(** What the interface of the sections shows of the media: a playing
    section shows so. *)
Definition music_ui_ok (p : Page) : Prop :=
  music_audible p = true ->
  exists m, music p = Some m /\ m_isPlaying m = true.

(** * The application shell (App)

    [App] keeps the lists and settings in React state, loads them from the
    persistent storage when it mounts, routes by the parameters of the URL,
    and writes every item back when it changes.  Values are taken
    uniformly (the types of the items are erased at run time). *)

(** The items of the storage, in the order of the source. *)
Inductive Key :=
| KEntries | KScenarios | KStyles | KOriginalText | KInteraction
| KPageWidget | KEngines | KAnki | KAutoTranslate | KDictionaries.

#[global] Instance Key_eq_dec : EqDecision Key.
Proof. solve_decision. Defined.

(** The items that have an effect writing them back; [dictionaries] has
    none. *)
Definition synced : list Key :=
  [KEntries; KScenarios; KStyles; KOriginalText; KInteraction; KPageWidget;
   KEngines; KAnki; KAutoTranslate].

(** [URLSearchParams.get]: the value of the first pair with that name. *)
Definition params_get (name : jsstring) (params : list (jsstring * jsstring))
    : option jsstring :=
  snd <$> List.find (fun kv => bool_decide (fst kv = name)) params.

Section AppModel.
Context {V : Type} `{EqDecision V}.

(** Modelled from the spec: the persistent key-value storage (utils/storage
    is not among the sources): [getValue] reads the item of a key, [null]
    when there is none, and [setValue] writes it. *)
Definition Storage := Key -> option V.

Definition setValue (k : Key) (v : V) (st : Storage) : Storage :=
  fun k' => if decide (k' = k) then Some v else st k'.

(** The React state of [App]. *)
Record App := mkApp {
  isLoading : bool;
  currentView : jsstring;
  activeSettingSection : option jsstring;
  detailWord : jsstring;
  managerSearchQuery : jsstring;
  managerTab : jsstring;
  items : Key -> V;
  pendingScroll : option jsstring   (* the section of the 100 ms timer *)
}.

Definition setCurrentView (v : jsstring) (a : App) : App :=
  mkApp (isLoading a) v (activeSettingSection a) (detailWord a)
    (managerSearchQuery a) (managerTab a) (items a) (pendingScroll a).

Definition setActiveSettingSection (s : option jsstring) (a : App) : App :=
  mkApp (isLoading a) (currentView a) s (detailWord a)
    (managerSearchQuery a) (managerTab a) (items a) (pendingScroll a).

Definition setDetailWord (w : jsstring) (a : App) : App :=
  mkApp (isLoading a) (currentView a) (activeSettingSection a) w
    (managerSearchQuery a) (managerTab a) (items a) (pendingScroll a).

Definition setManagerSearchQuery (q : jsstring) (a : App) : App :=
  mkApp (isLoading a) (currentView a) (activeSettingSection a) (detailWord a)
    q (managerTab a) (items a) (pendingScroll a).

Definition setManagerTab (t : jsstring) (a : App) : App :=
  mkApp (isLoading a) (currentView a) (activeSettingSection a) (detailWord a)
    (managerSearchQuery a) t (items a) (pendingScroll a).

Definition setIsLoading (b : bool) (a : App) : App :=
  mkApp b (currentView a) (activeSettingSection a) (detailWord a)
    (managerSearchQuery a) (managerTab a) (items a) (pendingScroll a).

Definition setItem (k : Key) (v : V) (a : App) : App :=
  mkApp (isLoading a) (currentView a) (activeSettingSection a) (detailWord a)
    (managerSearchQuery a) (managerTab a)
    (fun k' => if decide (k' = k) then v else items a k') (pendingScroll a).

Definition setPendingScroll (s : option jsstring) (a : App) : App :=
  mkApp (isLoading a) (currentView a) (activeSettingSection a) (detailWord a)
    (managerSearchQuery a) (managerTab a) (items a) s.

Variable truthyValue : V -> bool.      (* JS truthiness of a stored value *)
Variable initial : Key -> V.           (* the initial state: [] or DEFAULT_* *)

(** The state of the first render. *)
Definition initApp : App :=
  mkApp true (js "dashboard") None [] [] (js "all") initial None.

(** [if (sX) setX(sX)] for the value read for key [k]. *)
Definition adopt (st : Storage) (a : App) (k : Key) : App :=
  match st k with
  | Some v => if truthyValue v then setItem k v a else a
  | None => a
  end.

(** The routing by URL parameters at the end of [loadData]. *)
Definition route (params : list (jsstring * jsstring)) (a : App) : App :=
  let viewParam := params_get (js "view") params in
  let wordParam := params_get (js "word") params in
  let tabParam := params_get (js "tab") params in
  let searchParam := params_get (js "search") params in
  if bool_decide (viewParam = Some (js "word-detail")) && truthy wordParam
  then setCurrentView (js "word-detail")
         (setDetailWord (default [] wordParam) a)
  else if bool_decide (viewParam = Some (js "words")) then
    let a := setCurrentView (js "words") a in
    let a := if truthy tabParam then setManagerTab (default [] tabParam) a
             else a in
    if truthy searchParam
    then setManagerSearchQuery (default [] searchParam) a else a
  else if bool_decide (viewParam = Some (js "settings")) then
    let a := setCurrentView (js "settings") a in
    let sectionParam := params_get (js "section") params in
    if truthy sectionParam then setPendingScroll sectionParam a else a
  else a.

(** [loadData] from the point where the ten reads have returned [st]: the
    reads are adopted in the order of the source, then the routing, then
    [setIsLoading(false)]. *)
Definition loadData (params : list (jsstring * jsstring)) (st : Storage)
    (a : App) : App :=
  let a := foldl (adopt st) a
             [KEntries; KScenarios; KStyles; KOriginalText; KInteraction;
              KPageWidget; KEngines; KAnki; KAutoTranslate; KDictionaries] in
  setIsLoading false (route params a).

(** [handleSettingScroll], as far as the state goes. *)
Definition handleSettingScroll (id : jsstring) (a : App) : App :=
  setActiveSettingSection (Some id) a.

Definition handleShowDetail (word : jsstring) (a : App) : App :=
  setCurrentView (js "word-detail") (setDetailWord word a).

Definition handleOpenWords (word : jsstring) (a : App) : App :=
  setCurrentView (js "words")
    (setManagerTab (js "all") (setManagerSearchQuery word a)).

(** [onViewChange] of the sidebar. *)
Definition onViewChange (v : jsstring) (a : App) : App :=
  let a := setCurrentView v a in
  if bool_decide (v = js "words")
  then setManagerTab (js "all") (setManagerSearchQuery [] a) else a.

(** [onBack] of the word detail. *)
Definition onBack (a : App) : App := setCurrentView (js "words") a.

(** The effect of one item,
    [useEffect(() => { if (!isLoading) storage.setValue(x) }, [x, isLoading])],
    after a render that took the state from [old] to [new]: it runs when
    one of its dependencies changed. *)
Definition syncEffect (old new : App) (st : Storage) (k : Key) : Storage :=
  if (bool_decide (items new k <> items old k)
      || negb (Bool.eqb (isLoading new) (isLoading old)))
     && negb (isLoading new)
  then setValue k (items new k) st else st.

Definition runEffects (old new : App) (st : Storage) : Storage :=
  foldl (syncEffect old new) st synced.

(** Whether the effect of key [k] writes after a render from [old] to
    [new]. *)
Definition writes (old new : App) (k : Key) : bool :=
  (bool_decide (items new k <> items old k)
   || negb (Bool.eqb (isLoading new) (isLoading old)))
  && negb (isLoading new).

Inductive AppEvent :=
| ALoaded (params : list (jsstring * jsstring))
                        (* [loadData] has read the storage *)
| ASetItem (k : Key) (v : V)       (* a child sets a list or a setting *)
| AViewChange (v : jsstring)
| AShowDetail (word : jsstring)
| AOpenWords (word : jsstring)
| ABack
| ASettingScroll (id : jsstring)
| AScrollTimer.                     (* the 100 ms timer of the routing *)

Definition app_handler (e : AppEvent) (st : Storage) (a : App) : App :=
  match e with
  | ALoaded params => if isLoading a then loadData params st a else a
  | ASetItem k v => setItem k v a
  | AViewChange v => onViewChange v a
  | AShowDetail w => handleShowDetail w a
  | AOpenWords w => handleOpenWords w a
  | ABack => onBack a
  | ASettingScroll id => handleSettingScroll id a
  | AScrollTimer =>
      match pendingScroll a with
      | Some id => handleSettingScroll id (setPendingScroll None a)
      | None => a
      end
  end.

(** An event: the handler, then the effects of the render it causes. *)
Definition app_step (e : AppEvent) (s : App * Storage) : App * Storage :=
  let a' := app_handler e (snd s) (fst s) in
  (a', runEffects (fst s) a' (snd s)).

Definition app_run (es : list AppEvent) (s : App * Storage) : App * Storage :=
  foldl (fun s e => app_step e s) s es.

(** The state [loadData] builds from storage [st]: what was stored, the
    initial value where nothing (or a falsy value) was. *)
Definition loaded (st : Storage) (k : Key) : V :=
  match st k with
  | Some v => if truthyValue v then v else initial k
  | None => initial k
  end.

(** Every synced item of the storage is the one in the state. *)
Definition mirrored (s : App * Storage) : Prop :=
  forall k, k ∈ synced -> snd s k = Some (items (fst s) k).
End AppModel.

Arguments App : clear implicits.
Arguments Storage : clear implicits.

(** * Properties *)

(** ** [encodeURIComponent] on sample inputs *)

Example encode_hello_world :
  encodeURIComponent (js "hello world") = Some (js "hello%20world").
Proof. reflexivity. Qed.

Example encode_e_acute : encodeURIComponent [0xE9] = Some (js "%C3%A9").
Proof. reflexivity. Qed.

Example encode_emoji :
  encodeURIComponent [0xD83D; 0xDE00] = Some (js "%F0%9F%98%80").
Proof. reflexivity. Qed.

Example encode_lone_surrogate : encodeURIComponent [0xD800] = None.
Proof. reflexivity. Qed.


(** ** Proof automation *)

Arguments stopAudio : simpl never.
Arguments playUrl : simpl never.
Arguments playTextToSpeech : simpl never.
Arguments waitForVoices : simpl never.
Arguments ttsContinue : simpl never.
Arguments sentenceLookup : simpl never.
Arguments settle : simpl never.
Arguments drain : simpl never.
Arguments encodeURIComponent : simpl never.
Arguments dictvoiceUrl : simpl never.

(** Expose the record built by the setters, then reduce projections. *)
Ltac wsimpl :=
  cbn
    [resolve_op new_op log push_microtask removeListener synth_speak
     update_audio cache_voices set_currentAudio set_synthVoices
     set_synthPaused set_synthQueue set_onvoiceschanged set_voiceListeners
     set_stopSignals set_console set_audios set_waits set_timers set_now
     set_microtasks set_ops
     cachedVoices isLoaded currentAudio synthVoices synthPaused synthQueue
     onvoiceschanged voiceListeners stopSignals console audios waits timers
     now microtasks ops] in *.

(** ** Frame lemmas: what leaves the audio elements alone *)

Lemma same_audio_refl s : same_audio s s.
Proof. split; wsimpl; reflexivity. Qed.

Lemma same_audio_trans s1 s2 s3 :
  same_audio s1 s2 -> same_audio s2 s3 -> same_audio s1 s3.
Proof. intros [A1 C1] [A2 C2]. split; congruence. Qed.

Lemma tracked_same_audio s s' :
  same_audio s s' -> tracked_if_playing s -> tracked_if_playing s'.
Proof.
  intros [A C] H i el Hi Hp. rewrite C. rewrite A in Hi. eauto.
Qed.

Lemma speakLoop_same_audio n u s : same_audio s (speakLoop n u s).
Proof.
  revert s. induction n as [|n IH]; intros s; simpl.
  - apply same_audio_refl.
  - eapply same_audio_trans; [|apply IH]. split; wsimpl; reflexivity.
Qed.

Lemma ttsContinue_same_audio k v s : same_audio s (ttsContinue k v s).
Proof.
  unfold ttsContinue, resolve_op.
  destruct (speakLoop_same_audio (Z.to_nat (k_repeat k))
              (makeUtterance (k_text k) (k_rate k)
                 (targetVoice v (langTagOf (k_accent k)))
                 (langTagOf (k_accent k))) s) as [A C].
  split; wsimpl; assumption.
Qed.

Lemma foldl_same_audio {B} (f : World -> B -> World) l :
  (forall s b, same_audio s (f s b)) ->
  forall s, same_audio s (foldl f s l).
Proof.
  intros Hf. induction l as [|b l IH]; intros s; simpl.
  - apply same_audio_refl.
  - eapply same_audio_trans; [apply Hf | apply IH].
Qed.

Lemma drain_same_audio s : same_audio s (drain s).
Proof.
  unfold drain.
  eapply same_audio_trans;
    [| apply foldl_same_audio; intros; apply ttsContinue_same_audio].
  split; wsimpl; reflexivity.
Qed.

Lemma resolveWait_same_audio w v s : same_audio s (resolveWait w v s).
Proof.
  unfold resolveWait. destruct (waits s !! w) as [[[] k]|];
    split; wsimpl; reflexivity.
Qed.

Lemma voicesHandler_same_audio w s : same_audio s (voicesHandler w s).
Proof.
  unfold voicesHandler. destruct (nonEmpty (synthVoices s)).
  - eapply same_audio_trans; [| apply resolveWait_same_audio].
    split; wsimpl; reflexivity.
  - apply same_audio_refl.
Qed.

Lemma updateVoices_same_audio s : same_audio s (updateVoices s).
Proof.
  unfold updateVoices. destruct (nonEmpty (synthVoices s));
    split; wsimpl; reflexivity.
Qed.

Lemma fireVoicesChanged_same_audio s : same_audio s (fireVoicesChanged s).
Proof.
  unfold fireVoicesChanged.
  eapply same_audio_trans;
    [| apply foldl_same_audio; intros; apply voicesHandler_same_audio].
  destruct (onvoiceschanged s);
    auto using same_audio_refl, updateVoices_same_audio.
Qed.

Lemma timeoutCallback_same_audio w s : same_audio s (timeoutCallback w s).
Proof.
  unfold timeoutCallback.
  eapply same_audio_trans; [| apply resolveWait_same_audio].
  split; wsimpl; reflexivity.
Qed.

Lemma waitForVoices_same_audio k s : same_audio s (waitForVoices k s).
Proof.
  unfold waitForVoices.
  destruct (isLoaded s && nonEmpty (cachedVoices s)); [split; wsimpl; reflexivity|].
  destruct (nonEmpty (synthVoices s)); split; wsimpl; reflexivity.
Qed.

Lemma preloadVoices_same_audio s : same_audio s (preloadVoices s).
Proof.
  unfold preloadVoices.
  destruct (updateVoices_same_audio s) as [A C].
  destruct (onvoiceschanged (updateVoices s)); split; wsimpl; assumption.
Qed.

Lemma unlockAudio_same_audio s : same_audio s (unlockAudio s).
Proof.
  unfold unlockAudio, synth_resume_if_paused.
  destruct (synthPaused s); split; wsimpl; reflexivity.
Qed.

(** ** [stopAudio] and [playUrl] on the audio elements *)

Lemma playing_with_paused_true el : playing (with_paused true el) = false.
Proof. reflexivity. Qed.

Lemma playing_with_currentTime t el :
  playing (with_currentTime t el) = playing el.
Proof. reflexivity. Qed.

Lemma playing_with_promise p el : playing (with_promise p el) = playing el.
Proof. reflexivity. Qed.

Lemma silent_tracked s : silent s -> tracked_if_playing s.
Proof. intros H i el Hi Hp. rewrite (H i el Hi) in Hp. discriminate. Qed.

Lemma stopAudio_currentAudio s : currentAudio (stopAudio s) = None.
Proof.
  unfold stopAudio. wsimpl. destruct (currentAudio s) eqn:E; wsimpl; auto.
Qed.

Lemma stopAudio_synthQueue s : synthQueue (stopAudio s) = [].
Proof.
  unfold stopAudio. wsimpl. destruct (currentAudio s) eqn:E; wsimpl; auto.
Qed.

Lemma stopAudio_stopSignals s :
  stopSignals (stopAudio s) = S (stopSignals s).
Proof.
  unfold stopAudio. wsimpl. destruct (currentAudio s) eqn:E; wsimpl; auto.
Qed.

Lemma stopAudio_audios s :
  audios (stopAudio s) =
  match currentAudio s with
  | Some a => alter (fun el => with_currentTime 0 (with_paused true el)) a
                (audios s)
  | None => audios s
  end.
Proof.
  unfold stopAudio. wsimpl. destruct (currentAudio s) as [a|]; wsimpl; [|easy].
  rewrite list_alter_alter_eq. reflexivity.
Qed.

Lemma stopAudio_length s : length (audios (stopAudio s)) = length (audios s).
Proof.
  rewrite stopAudio_audios. destruct (currentAudio s); [|easy].
  apply length_alter.
Qed.

Lemma stopAudio_silent s : tracked_if_playing s -> silent (stopAudio s).
Proof.
  intros H i el. rewrite stopAudio_audios.
  destruct (currentAudio s) as [a|] eqn:E.
  - destruct (decide (a = i)) as [->|Hne].
    + rewrite list_lookup_alter_eq.
      destruct (audios s !! i); simpl; [|discriminate].
      intros [= <-]. reflexivity.
    + rewrite list_lookup_alter_ne by assumption. intros Hi.
      destruct (playing el) eqn:Hp; [|reflexivity].
      specialize (H i el Hi Hp). congruence.
  - intros Hi. destruct (playing el) eqn:Hp; [|reflexivity].
    specialize (H i el Hi Hp). congruence.
Qed.

Lemma stopAudio_tracked s :
  tracked_if_playing s -> tracked_if_playing (stopAudio s).
Proof. intros H. apply silent_tracked, stopAudio_silent, H. Qed.

Lemma playUrl_audios url r w s :
  audios (playUrl url r w s) =
  audios (stopAudio s)
    ++ [with_paused false (with_playbackRate r (newAudio url w))].
Proof.
  unfold playUrl. wsimpl.
  rewrite <- (Nat.add_0_r (length (audios (stopAudio s)))).
  rewrite !alter_app_r. reflexivity.
Qed.

Lemma playUrl_currentAudio url r w s :
  currentAudio (playUrl url r w s) = Some (length (audios s)).
Proof. unfold playUrl. wsimpl. rewrite stopAudio_length. reflexivity. Qed.

Lemma playUrl_tracked url r w s :
  tracked_if_playing s -> tracked_if_playing (playUrl url r w s).
Proof.
  intros H i el. rewrite playUrl_audios, playUrl_currentAudio.
  intros Hi Hp. apply lookup_app_Some in Hi as [Hi|[Hlen Hi]].
  - rewrite (stopAudio_silent s H i el Hi) in Hp. discriminate.
  - rewrite stopAudio_length in *. f_equal.
    apply lookup_lt_Some in Hi. simpl in Hi. lia.
Qed.

Lemma update_audio_tracked f a s :
  (forall el, playing (f el) = true -> playing el = true) ->
  tracked_if_playing s -> tracked_if_playing (update_audio f a s).
Proof.
  intros Hf H i el. wsimpl. destruct (decide (a = i)) as [->|Hne].
  - rewrite list_lookup_alter_eq.
    destruct (audios s !! i) as [el0|] eqn:E; simpl; [|discriminate].
    intros [= <-] Hp. eauto.
  - rewrite list_lookup_alter_ne by assumption. apply H.
Qed.

Lemma update_audio_stops f a s :
  (forall el, playing (f el) = false) ->
  forall el, audios (update_audio f a s) !! a = Some el -> playing el = false.
Proof.
  intros Hf el. wsimpl. rewrite list_lookup_alter_eq.
  destruct (audios s !! a); simpl; [|discriminate]. intros [= <-]. apply Hf.
Qed.

Lemma clearIfCurrent_tracked a s :
  (forall el, audios s !! a = Some el -> playing el = false) ->
  tracked_if_playing s -> tracked_if_playing (clearIfCurrent a s).
Proof.
  intros Ha H i el. unfold clearIfCurrent.
  destruct (decide (currentAudio s = Some a)) as [E|]; [|apply H].
  wsimpl. intros Hi Hp. specialize (H i el Hi Hp).
  assert (i = a) as -> by congruence.
  rewrite (Ha el Hi) in Hp. discriminate.
Qed.

Lemma clearIfCurrent_audios a s : audios (clearIfCurrent a s) = audios s.
Proof.
  unfold clearIfCurrent. destruct (decide (currentAudio s = Some a)); easy.
Qed.

Lemma playTextToSpeech_tracked text accent rate repeat s :
  tracked_if_playing s ->
  tracked_if_playing (playTextToSpeech text accent rate repeat s).
Proof.
  intros H. unfold playTextToSpeech.
  destruct (negb (nonEmpty text) || (repeat <=? 0)%Z).
  - eapply tracked_same_audio; [|exact H]. split; wsimpl; reflexivity.
  - eapply tracked_same_audio; [apply waitForVoices_same_audio|].
    eapply tracked_same_audio.
    { unfold synth_resume_if_paused.
      destruct (synthPaused _); split; wsimpl; reflexivity. }
    apply stopAudio_tracked.
    eapply tracked_same_audio; [|exact H]. split; wsimpl; reflexivity.
Qed.

Lemma sentenceLookup_tracked text accent speed op s :
  tracked_if_playing s ->
  tracked_if_playing (sentenceLookup text accent speed op s).
Proof.
  intros H. unfold sentenceLookup. destruct (encodeURIComponent text).
  - apply playUrl_tracked, H.
  - eapply tracked_same_audio; [|exact H]. split; wsimpl; reflexivity.
Qed.

Lemma resolve_op_tracked op s :
  tracked_if_playing s -> tracked_if_playing (resolve_op op s).
Proof. apply tracked_same_audio. split; wsimpl; reflexivity. Qed.

Lemma log_tracked e s : tracked_if_playing s -> tracked_if_playing (log e s).
Proof. apply tracked_same_audio. split; wsimpl; reflexivity. Qed.

Lemma resume_tracked w outcome s :
  tracked_if_playing s -> tracked_if_playing (resume w outcome s).
Proof.
  intros H. destruct w, outcome; simpl;
    auto using resolve_op_tracked, playTextToSpeech_tracked,
      sentenceLookup_tracked, log_tracked.
Qed.

Lemma settle_tracked a outcome s :
  tracked_if_playing s -> tracked_if_playing (settle a outcome s).
Proof.
  intros H. unfold settle. destruct (audios s !! a) as [el|]; [|exact H].
  destruct (a_promise el); try exact H.
  apply resume_tracked, update_audio_tracked; [|exact H].
  intros el'. rewrite playing_with_promise. trivial.
Qed.

(** An element that stopped playing (ended, failed, or had its [play()]
    rejected) runs its handler: the invariant survives. *)
Lemma handler_tracked f a outcome s :
  (forall el, playing (f el) = false) ->
  tracked_if_playing s ->
  tracked_if_playing (settle a outcome (clearIfCurrent a (update_audio f a s))).
Proof.
  intros Hf H. apply settle_tracked, clearIfCurrent_tracked.
  - apply update_audio_stops, Hf.
  - apply update_audio_tracked; [|exact H].
    intros el. rewrite Hf. discriminate.
Qed.

Lemma call_tracked c s : tracked_if_playing s -> tracked_if_playing (call c s).
Proof.
  intros H. destruct c; simpl.
  - eapply tracked_same_audio; [apply preloadVoices_same_audio | exact H].
  - apply stopAudio_tracked, H.
  - eapply tracked_same_audio; [apply unlockAudio_same_audio | exact H].
  - apply playUrl_tracked, H.
  - apply playTextToSpeech_tracked, H.
  - unfold playWordAudio. destruct (negb (nonEmpty text)).
    + eapply tracked_same_audio; [|exact H]. split; wsimpl; reflexivity.
    + destruct (encodeURIComponent text).
      * apply playUrl_tracked.
        eapply tracked_same_audio; [|exact H]. split; wsimpl; reflexivity.
      * eapply tracked_same_audio; [|exact H]. split; wsimpl; reflexivity.
  - unfold playSentenceAudio.
    assert (tracked_if_playing (new_op Pending s)) as H'.
    { eapply tracked_same_audio; [|exact H]. split; wsimpl; reflexivity. }
    destruct (truthy explicitUrl);
      auto using playUrl_tracked, sentenceLookup_tracked.
Qed.

Lemma handle_tracked e s :
  tracked_if_playing s -> tracked_if_playing (handle e s).
Proof.
  intros H. destruct e; simpl.
  - apply handler_tracked; [|exact H].
    intros el. unfold playing. simpl.
    rewrite andb_false_r. reflexivity.
  - apply handler_tracked; [|exact H].
    intros el. unfold playing. simpl. apply andb_false_r.
  - apply handler_tracked; [reflexivity | exact H].
  - destruct (audios s !! a) as [el|]; [|exact H].
    destruct (playing el); [|exact H].
    apply update_audio_tracked; [|exact H]. intros el'.
    rewrite playing_with_currentTime. trivial.
  - destruct fire.
    + eapply tracked_same_audio; [apply fireVoicesChanged_same_audio|].
      eapply tracked_same_audio; [|exact H]. split; wsimpl; reflexivity.
    + eapply tracked_same_audio; [|exact H]. split; wsimpl; reflexivity.
  - destruct (timers s) as [|[due w] rest]; [exact H|].
    destruct (due <=? now s)%N; [|exact H].
    eapply tracked_same_audio; [apply timeoutCallback_same_audio|].
    eapply tracked_same_audio; [|exact H]. split; wsimpl; reflexivity.
  - eapply tracked_same_audio; [|exact H]. split; wsimpl; reflexivity.
  - destruct (synthPaused s); [exact H|].
    eapply tracked_same_audio; [|exact H]. split; wsimpl; reflexivity.
Qed.

Lemma drain_tracked s : tracked_if_playing s -> tracked_if_playing (drain s).
Proof. apply tracked_same_audio, drain_same_audio. Qed.

Lemma step_tracked l s : tracked_if_playing s -> tracked_if_playing (step l s).
Proof.
  intros H. destruct l; simpl;
    auto using call_tracked, handle_tracked, drain_tracked.
Qed.

Lemma run_tracked ls s : tracked_if_playing s -> tracked_if_playing (run ls s).
Proof.
  revert s. induction ls as [|l ls IH]; intros s H; simpl; [exact H|].
  apply IH, step_tracked, H.
Qed.

Lemma init_tracked v o : tracked_if_playing (init v o).
Proof. intros i el Hi. discriminate. Qed.

Lemma reachable_tracked s : reachable s -> tracked_if_playing s.
Proof. intros (v & o & ls & ->). apply run_tracked, init_tracked. Qed.

Lemma stopAudio_new_op_audios p s :
  audios (stopAudio (new_op p s)) = audios (stopAudio s).
Proof. rewrite !stopAudio_audios. reflexivity. Qed.

(** A call that begins a playback leaves the elements as [stopAudio] left
    them, and at most appends the one it creates. *)
Lemma call_starts_audios c s :
  starts_playback c = true ->
  exists tl, audios (call c s) = audios (stopAudio s) ++ tl.
Proof.
  destruct c; simpl; try discriminate; intros Hc.
  - eexists. apply playUrl_audios.
  - exists []. rewrite app_nil_r. unfold playTextToSpeech.
    apply andb_true_iff in Hc as [-> Hr]. apply Z.ltb_lt in Hr.
    destruct (repeat <=? 0)%Z eqn:E; [apply Z.leb_le in E; lia|]. simpl.
    destruct (waitForVoices_same_audio
                (mkTtsK text accent rate repeat (length (ops s)))
                (synth_resume_if_paused (stopAudio (new_op Pending s))))
      as [-> _].
    unfold synth_resume_if_paused.
    destruct (synthPaused _); wsimpl; apply (stopAudio_new_op_audios Pending).
  - unfold playWordAudio. apply andb_true_iff in Hc as [-> He].
    apply bool_decide_eq_true in He as [enc ->]. cbn.
    eexists. rewrite playUrl_audios, stopAudio_new_op_audios. reflexivity.
  - unfold playSentenceAudio, sentenceLookup.
    destruct (truthy explicitUrl); cbn in *.
    + eexists. rewrite playUrl_audios, stopAudio_new_op_audios. reflexivity.
    + apply bool_decide_eq_true in Hc as [enc ->].
      eexists. rewrite playUrl_audios, stopAudio_new_op_audios. reflexivity.
Qed.

(** C1. In every state reached by any sequence of calls and platform events,
    at most one audio element is playing, and it is the tracked one.  Every
    call that begins a playback ([playUrl], [playTextToSpeech],
    [playWordAudio], [playSentenceAudio]) first runs [stopAudio], which
    leaves the previously tracked element paused at time 0 and the handle
    empty; [playUrl] registers and starts its new element only in that
    silent state. *)
Theorem C1_at_most_one_playing (s : World) (Hs : reachable s) :
  (forall i j a b,
      audios s !! i = Some a -> audios s !! j = Some b ->
      playing a = true -> playing b = true ->
      i = j /\ currentAudio s = Some i)
  /\ silent (stopAudio s) /\ currentAudio (stopAudio s) = None
  /\ (forall a el,
        currentAudio s = Some a -> audios s !! a = Some el ->
        audios (stopAudio s) !! a
        = Some (with_currentTime 0 (with_paused true el)))
  /\ (forall c, starts_playback c = true ->
        forall i el, (i < length (audios s))%nat ->
                     audios (call c s) !! i = Some el ->
                     audios (stopAudio s) !! i = Some el
                     /\ playing el = false)
  /\ (forall url r w,
        audios (playUrl url r w s)
        = audios (stopAudio s)
            ++ [with_paused false (with_playbackRate r (newAudio url w))]
        /\ currentAudio (playUrl url r w s)
           = Some (length (audios (stopAudio s)))).
Proof.
  pose proof (reachable_tracked s Hs) as T.
  split; [|split; [|split; [|split; [|split]]]].
  - intros i j a b Hi Hj Pa Pb.
    pose proof (T i a Hi Pa). pose proof (T j b Hj Pb).
    split; congruence.
  - apply stopAudio_silent, T.
  - apply stopAudio_currentAudio.
  - intros a el Hc Ha. rewrite stopAudio_audios, Hc, list_lookup_alter_eq, Ha.
    reflexivity.
  - intros c Hc i el Hi Hl.
    destruct (call_starts_audios c s Hc) as [tl E]. rewrite E in Hl.
    rewrite lookup_app_l in Hl by (rewrite stopAudio_length; exact Hi).
    split; [exact Hl|]. eapply stopAudio_silent; eassumption.
  - intros url r w. split; [apply playUrl_audios|].
    rewrite playUrl_currentAudio, stopAudio_length. reflexivity.
Qed.

Lemma C1_at_most_one_playing_witness :
  let s := run two_plays (init [] OvcNull) in
  (forall i j a b,
      audios s !! i = Some a -> audios s !! j = Some b ->
      playing a = true -> playing b = true ->
      i = j /\ currentAudio s = Some i)
  /\ silent (stopAudio s) /\ currentAudio (stopAudio s) = None
  /\ (forall a el,
        currentAudio s = Some a -> audios s !! a = Some el ->
        audios (stopAudio s) !! a
        = Some (with_currentTime 0 (with_paused true el)))
  /\ (forall c, starts_playback c = true ->
        forall i el, (i < length (audios s))%nat ->
                     audios (call c s) !! i = Some el ->
                     audios (stopAudio s) !! i = Some el
                     /\ playing el = false)
  /\ (forall url r w,
        audios (playUrl url r w s)
        = audios (stopAudio s)
            ++ [with_paused false (with_playbackRate r (newAudio url w))]
        /\ currentAudio (playUrl url r w s)
           = Some (length (audios (stopAudio s)))).
Proof.
  intros s. apply (C1_at_most_one_playing s).
  exists [], OvcNull, two_plays. reflexivity.
Defined.

(** The run of [two_plays]: the first element is paused and rewound, the
    second one plays and is tracked. *)
Example two_plays_state :
  let s := run two_plays (init [] OvcNull) in
  (playing <$> audios s) = [false; true] /\ currentAudio s = Some 1%nat
  /\ (a_paused <$> audios s) = [true; false] /\ stopSignals s = 2%nat.
Proof. vm_compute. repeat split. Qed.

(** ** The tracked element is playing *)

















(** ** [stopAudio] *)






(** ** Stability of the elements

    Generic in what is kept of an element, as long as pausing, seeking and
    the ended / error flags keep it. *)

Section Stability.
Variable K : AudioEl -> AudioEl -> Prop.
Hypothesis K_refl : forall el, K el el.
Hypothesis K_trans : forall x y z, K x y -> K y z -> K x z.
Hypothesis K_paused : forall b el, K el (with_paused b el).
Hypothesis K_currentTime : forall t el, K el (with_currentTime t el).
Hypothesis K_ended : forall b el, K el (with_ended b el).
Hypothesis K_error : forall b el, K el (with_error b el).


















End Stability.















(** ** [playUrl] *)


Lemma playUrl_length url r w s :
  length (audios (playUrl url r w s)) = S (length (audios s)).
Proof.
  rewrite playUrl_audios, length_app, stopAudio_length. simpl. lia.
Qed.

Lemma playUrl_synthQueue url r w s : synthQueue (playUrl url r w s) = [].
Proof. unfold playUrl. wsimpl. apply stopAudio_synthQueue. Qed.

Lemma playUrl_stopSignals url r w s :
  stopSignals (playUrl url r w s) = S (stopSignals s).
Proof. unfold playUrl. wsimpl. apply stopAudio_stopSignals. Qed.





(** ** The fallback chain *)






Lemma playUrl_frame url r w s :
  microtasks (playUrl url r w s) = microtasks s
  /\ waits (playUrl url r w s) = waits s
  /\ timers (playUrl url r w s) = timers s
  /\ ops (playUrl url r w s) = ops s
  /\ console (playUrl url r w s) = console s
  /\ cachedVoices (playUrl url r w s) = cachedVoices s.
Proof.
  unfold playUrl, stopAudio. wsimpl.
  destruct (currentAudio s); repeat split; reflexivity.
Qed.

Lemma playWordAudio_eq text accent speed enc s :
  nonEmpty text = true -> encodeURIComponent text = Some enc ->
  playWordAudio text accent speed s
  = playUrl (dictvoiceUrl enc accent) speed
      (WWord text accent speed (length (ops s))) (new_op Pending s).
Proof. intros Hn He. unfold playWordAudio. rewrite Hn, He. reflexivity. Qed.







(** Scenario 1: the dictionary audio plays to its end; nothing is spoken. *)
Example scenario_word_remote_ok :
  let s := run [LCall (CPlayWordAudio hello US 1); LEvent (EvEnded 0)]
             (init [voiceUS] OvcNull) in
  ops s = [Resolved] /\ synthQueue s = [] /\ microtasks s = []
  /\ length (audios s) = 1%nat /\ console s = [].
Proof. vm_compute. repeat split. Qed.

(** Scenario 2: the dictionary audio fails; one utterance at rate 1. *)
Example scenario_word_remote_fails :
  let s := run [LCall (CPlayWordAudio hello US 1); LEvent (EvError 0)]
             (init [voiceUS] OvcNull) in
  ops s = [Resolved; Resolved]
  /\ synthQueue s = [mkUtterance hello 1 1 1 (Some voiceUS) (js "en-US")]
  /\ length (audios s) = 1%nat
  /\ console s = [warnOnline hello].
Proof. vm_compute. repeat split. Qed.

(** Scenario 5: the explicit URL fails; the dictionary URL is played next,
    and only its failure reaches TTS. *)
Example scenario_sentence_explicit_fails :
  let c := CPlaySentenceAudio hello (Some (js "x.mp3")) UK 1 in
  let s := run [LCall c; LEvent (EvError 0)] (init [voiceUS] OvcNull) in
  let s' := run [LEvent (EvPlayRejected 1)] s in
  (a_src <$> audios s)
  = [js "x.mp3"; js "https://dict.youdao.com/dictvoice?audio=hello&type=1"]
  /\ (playing <$> audios s) = [false; true] /\ currentAudio s = Some 1%nat
  /\ ops s = [Pending] /\ synthQueue s = [] /\ console s = [warnExplicit]
  /\ ops s' = [Resolved; Resolved]
  /\ synthQueue s' = [mkUtterance hello 1 1 1 (Some voiceUS) (js "en-US")]
  /\ length (audios s') = 2%nat.
Proof. vm_compute. repeat split. Qed.

(** ** [playTextToSpeech] *)

Lemma speakLoop_synthQueue n u s :
  synthQueue (speakLoop n u s) = synthQueue s ++ replicate n u.
Proof.
  revert s. induction n as [|n IH]; intros s; simpl.
  - rewrite app_nil_r. reflexivity.
  - rewrite IH. wsimpl. rewrite <- app_assoc. reflexivity.
Qed.

Lemma speakLoop_frame n u s :
  ops (speakLoop n u s) = ops s /\ microtasks (speakLoop n u s) = microtasks s
  /\ waits (speakLoop n u s) = waits s /\ timers (speakLoop n u s) = timers s
  /\ cachedVoices (speakLoop n u s) = cachedVoices s
  /\ stopSignals (speakLoop n u s) = stopSignals s
  /\ console (speakLoop n u s) = console s.
Proof.
  revert s. induction n as [|n IH]; intros s; simpl; [tauto|].
  destruct (IH (synth_speak u s)) as (?&?&?&?&?&?&?). tauto.
Qed.

Lemma ttsContinue_synthQueue k v s :
  synthQueue (ttsContinue k v s)
  = synthQueue s
      ++ replicate (Z.to_nat (k_repeat k))
           (makeUtterance (k_text k) (k_rate k)
              (targetVoice v (langTagOf (k_accent k)))
              (langTagOf (k_accent k))).
Proof. unfold ttsContinue. wsimpl. apply speakLoop_synthQueue. Qed.

Lemma ttsContinue_ops k v s :
  ops (ttsContinue k v s) = <[k_op k := Resolved]> (ops s).
Proof.
  unfold ttsContinue. wsimpl.
  destruct (speakLoop_frame (Z.to_nat (k_repeat k))
              (makeUtterance (k_text k) (k_rate k)
                 (targetVoice v (langTagOf (k_accent k)))
                 (langTagOf (k_accent k))) s) as (-> & _).
  reflexivity.
Qed.


Lemma safeRate_bounds r : (1 # 10 <= safeRate r)%Q /\ (safeRate r <= 10)%Q.
Proof.
  unfold safeRate. split.
  - apply Q.le_max_l.
  - apply Q.max_lub; [discriminate | apply Q.le_min_l].
Qed.


Lemma safeRate_low r : (r <= 1 # 10)%Q -> (safeRate r == 1 # 10)%Q.
Proof.
  intros H. unfold safeRate. apply Q.max_l.
  apply Q.min_le_iff. right. exact H.
Qed.

Lemma safeRate_high r : (10 <= r)%Q -> (safeRate r == 10)%Q.
Proof.
  intros H. unfold safeRate. rewrite (Q.min_l 10 r H).
  apply Q.max_r. discriminate.
Qed.


Lemma playTextToSpeech_go text accent rate repeat s :
  nonEmpty text = true -> (0 < repeat)%Z ->
  playTextToSpeech text accent rate repeat s
  = waitForVoices (mkTtsK text accent rate repeat (length (ops s)))
      (synth_resume_if_paused (stopAudio (new_op Pending s))).
Proof.
  intros Hn Hr. unfold playTextToSpeech. rewrite Hn.
  destruct (repeat <=? 0)%Z eqn:E; [apply Z.leb_le in E; lia|]. reflexivity.
Qed.

Lemma synth_resume_frame s :
  currentAudio (synth_resume_if_paused s) = currentAudio s
  /\ synthQueue (synth_resume_if_paused s) = synthQueue s
  /\ stopSignals (synth_resume_if_paused s) = stopSignals s
  /\ microtasks (synth_resume_if_paused s) = microtasks s
  /\ cachedVoices (synth_resume_if_paused s) = cachedVoices s
  /\ isLoaded (synth_resume_if_paused s) = isLoaded s
  /\ synthVoices (synth_resume_if_paused s) = synthVoices s
  /\ waits (synth_resume_if_paused s) = waits s
  /\ timers (synth_resume_if_paused s) = timers s
  /\ voiceListeners (synth_resume_if_paused s) = voiceListeners s
  /\ now (synth_resume_if_paused s) = now s
  /\ synthPaused (synth_resume_if_paused s) = false.
Proof.
  unfold synth_resume_if_paused.
  destruct (synthPaused s) eqn:E; repeat split; assumption.
Qed.

Lemma stopAudio_frame s :
  microtasks (stopAudio s) = microtasks s
  /\ cachedVoices (stopAudio s) = cachedVoices s
  /\ isLoaded (stopAudio s) = isLoaded s
  /\ synthVoices (stopAudio s) = synthVoices s
  /\ waits (stopAudio s) = waits s
  /\ timers (stopAudio s) = timers s
  /\ voiceListeners (stopAudio s) = voiceListeners s
  /\ now (stopAudio s) = now s
  /\ ops (stopAudio s) = ops s
  /\ console (stopAudio s) = console s
  /\ synthPaused (stopAudio s) = synthPaused s
  /\ onvoiceschanged (stopAudio s) = onvoiceschanged s.
Proof.
  unfold stopAudio. wsimpl. destruct (currentAudio s); repeat split.
Qed.

Lemma waitForVoices_frame k s :
  currentAudio (waitForVoices k s) = currentAudio s
  /\ synthQueue (waitForVoices k s) = synthQueue s
  /\ stopSignals (waitForVoices k s) = stopSignals s
  /\ ops (waitForVoices k s) = ops s
  /\ console (waitForVoices k s) = console s
  /\ now (waitForVoices k s) = now s
  /\ synthVoices (waitForVoices k s) = synthVoices s.
Proof.
  unfold waitForVoices.
  destruct (isLoaded s && nonEmpty (cachedVoices s)); [repeat split|].
  destruct (nonEmpty (synthVoices s)); repeat split.
Qed.

Lemma waitForVoices_now k v s :
  available s = Some v ->
  microtasks (waitForVoices k s) = microtasks s ++ [(k, v)]
  /\ waits (waitForVoices k s) = waits s
  /\ timers (waitForVoices k s) = timers s
  /\ voiceListeners (waitForVoices k s) = voiceListeners s.
Proof.
  unfold available, waitForVoices.
  destruct (isLoaded s && nonEmpty (cachedVoices s)).
  - intros [= <-]. repeat split.
  - destruct (nonEmpty (synthVoices s)); [|discriminate].
    intros [= <-]. repeat split.
Qed.

Lemma waitForVoices_suspend k s :
  available s = None ->
  waitForVoices k s
  = set_timers (timers s ++ [((now s + 2000)%N, length (waits s))])
      (set_voiceListeners (voiceListeners s ++ [length (waits s)])
         (set_waits (waits s ++ [mkWait Pending k]) s)).
Proof.
  unfold available, waitForVoices.
  destruct (isLoaded s && nonEmpty (cachedVoices s)); [discriminate|].
  destruct (nonEmpty (synthVoices s)); [discriminate|]. reflexivity.
Qed.




(** Scenario 4: [speak(text, "UK", 0.05, 2)] with only an [en-US] voice. *)
Example scenario_speak_clamped :
  let s := run [LCall (CPlayTextToSpeech hello UK (5 # 100) 2); LYield]
             (init [voiceUS] OvcNull) in
  synthQueue s
  = [mkUtterance hello (1 # 10) 1 1 (Some voiceUS) (js "en-US");
     mkUtterance hello (1 # 10) 1 1 (Some voiceUS) (js "en-US")]
  /\ ops s = [Resolved] /\ stopSignals s = 1%nat.
Proof. vm_compute. repeat split. Qed.

(** ** Voice selection *)

Lemma find_first {A} (f : A -> bool) l v :
  List.find f l = Some v <-> first_with f l v.
Proof.
  split.
  - induction l as [|x l IH]; simpl; [discriminate|].
    destruct (f x) eqn:E.
    + intros [= <-]. exists [], l. repeat split; [exact E|]. intros y [].
    + intros H. destruct (IH H) as (l1 & l2 & -> & Hv & Hl).
      exists (x :: l1), l2. repeat split; [exact Hv|].
      intros y [<-|Hy]; auto.
  - intros (l1 & l2 & -> & Hv & Hl).
    induction l1 as [|x l1 IH]; simpl.
    + rewrite Hv. reflexivity.
    + rewrite (Hl x) by (left; reflexivity). apply IH.
      intros y Hy. apply Hl. right. exact Hy.
Qed.

Lemma find_none_iff {A} (f : A -> bool) l :
  List.find f l = None <-> forall x, In x l -> f x = false.
Proof.
  split; [apply find_none|]. intros H.
  destruct (List.find f l) as [v|] eqn:E; [|reflexivity].
  apply find_some in E as [Hin Hv]. rewrite (H v Hin) in Hv. discriminate.
Qed.

Lemma targetVoice_spec voices tag :
  match targetVoice voices tag with
  | Some v =>
      first_with (hasLang tag) voices v
      \/ ((forall x, In x voices -> hasLang tag x = false)
          /\ first_with isEnglish voices v)
  | None =>
      forall x, In x voices -> hasLang tag x = false /\ isEnglish x = false
  end.
Proof.
  unfold targetVoice. fold (hasLang tag). fold isEnglish.
  destruct (List.find (hasLang tag) voices) as [v|] eqn:E1.
  - left. apply find_first, E1.
  - destruct (List.find isEnglish voices) as [v|] eqn:E2.
    + right. split; [apply find_none_iff, E1 | apply find_first, E2].
    + intros x Hx. split.
      * eapply find_none_iff in E1; eauto.
      * eapply find_none_iff in E2; eauto.
Qed.

(** C6 as stated fails: with no [en-GB] voice and an [en-US] voice in the
    catalog, another English voice listed earlier is selected. *)
Lemma C6_counterexample :
  let voices := [voiceAU; voiceUS] in
  (forall x, In x voices -> lang x <> js "en-GB")
  /\ In voiceUS voices /\ lang voiceUS = js "en-US"
  /\ targetVoice voices (langTagOf UK) = Some voiceAU
  /\ lang voiceAU <> js "en-US"
  /\ (u_voice <$> synthQueue
        (run [LCall (CPlayTextToSpeech hello UK 1 1); LYield]
           (init voices OvcNull)))
     = [Some voiceAU].
Proof.
  simpl. split; [|split; [|split; [|split; [|split]]]].
  - intros x [<-|[<-|[]]]; discriminate.
  - right. left. reflexivity.
  - reflexivity.
  - reflexivity.
  - discriminate.
  - reflexivity.
Qed.

(** C6 (amended). For every catalog the selected voice is the first voice
    whose [lang] equals the accent's tag ([en-GB] for UK, [en-US] for US);
    when there is none, the first voice whose [lang] starts with [en]; when
    there is none either, no voice.  The utterances queued carry the
    selected voice and its [lang], or no voice and the accent's tag.  So
    with no [en-GB] voice, an [en-US] voice is selected when it is the
    first voice of the catalog whose [lang] starts with [en]. *)
Theorem C6_voice_selection (voices : list Voice) (accent : Accent) :
  let tag := langTagOf accent in
  tag = match accent with UK => js "en-GB" | US => js "en-US" end
  /\ match targetVoice voices tag with
     | Some v =>
         (first_with (hasLang tag) voices v
          \/ ((forall x, In x voices -> lang x <> tag)
              /\ first_with isEnglish voices v))
         /\ forall text rate,
              u_voice (makeUtterance text rate (Some v) tag) = Some v
              /\ u_lang (makeUtterance text rate (Some v) tag) = lang v
     | None =>
         (forall x, In x voices ->
                    lang x <> tag /\ startsWith (lang x) (js "en") = false)
         /\ forall text rate,
              u_voice (makeUtterance text rate None tag) = None
              /\ u_lang (makeUtterance text rate None tag) = tag
     end
  /\ (forall text rate repeat op t,
        synthQueue (ttsContinue (mkTtsK text accent rate repeat op) voices t)
        = synthQueue t
            ++ replicate (Z.to_nat repeat)
                 (makeUtterance text rate (targetVoice voices tag) tag))
  /\ (forall v,
        (forall x, In x voices -> lang x <> js "en-GB") ->
        lang v = js "en-US" -> first_with isEnglish voices v ->
        targetVoice voices (langTagOf UK) = Some v).
Proof.
  intros tag. split; [destruct accent; reflexivity|]. split; [|split].
  - pose proof (targetVoice_spec voices tag) as H.
    destruct (targetVoice voices tag) as [v|].
    + split; [|intros; split; reflexivity].
      destruct H as [H|[Hn H]]; [left; exact H|]. right. split; [|exact H].
      intros x Hx. specialize (Hn x Hx). unfold hasLang in Hn.
      apply bool_decide_eq_false in Hn. exact Hn.
    + split; [|intros; split; reflexivity].
      intros x Hx. destruct (H x Hx) as [H1 H2]. split; [|exact H2].
      unfold hasLang in H1. apply bool_decide_eq_false in H1. exact H1.
  - intros text rate repeat op t. apply ttsContinue_synthQueue.
  - intros v Hn Hv Hf. unfold targetVoice.
    replace (List.find _ voices) with (@None Voice).
    + apply find_first. exact Hf.
    + symmetry. apply find_none_iff. intros x Hx.
      apply bool_decide_eq_false. apply Hn, Hx.
Qed.

Lemma C6_voice_selection_witness :
  targetVoice [voiceFR; voiceUS; voiceAU] (langTagOf UK) = Some voiceUS.
Proof.
  apply (C6_voice_selection [voiceFR; voiceUS; voiceAU] UK).
  - intros x [<-|[<-|[<-|[]]]]; discriminate.
  - reflexivity.
  - exists [voiceFR], [voiceAU]. repeat split.
    intros x [<-|[]]. reflexivity.
Defined.

(** ** Every function is a sequence of atomic changes *)

Lemma fmap_waiter_alter f a (l : list AudioEl) :
  (forall el, a_waiter (f el) = a_waiter el) ->
  a_waiter <$> alter f a l = a_waiter <$> l.
Proof.
  intros Hf. rewrite (list_fmap_alter a_waiter f id).
  - apply list_alter_id. reflexivity.
  - apply Forall_forall. intros x _. apply Hf.
Qed.

(** Case analysis on an atomic change, with fixed names. *)
Ltac destruct_move Hm :=
  destruct Hm as
    [ ? ? HframeM | ? HvoicesM | kM ? HavailM | wM ? HvoicesM
    | dueM wM restM ? HtimersM HdueM | kM vM ? HavailM | ? | pM ? HpM
    | opM ? | textM ? HencM HokM | textM opM ? HencM HokM
    | urlM wM ? HwM | dtM ? | vM ? HvM ].

Lemma frame_eq_refl s : frame_eq s s.
Proof. repeat split. Qed.

Lemma waiters_ok_audios okText s s' :
  (a_waiter <$> audios s') = (a_waiter <$> audios s) ->
  waiters_ok okText s -> waiters_ok okText s'.
Proof.
  intros A H i el Hi.
  assert ((a_waiter <$> audios s') !! i = Some (a_waiter el)) as Hw.
  { rewrite list_lookup_fmap, Hi. reflexivity. }
  rewrite A, list_lookup_fmap in Hw.
  destruct (audios s !! i) as [el0|] eqn:E; [|discriminate].
  simpl in Hw. injection Hw as <-. eapply H, E.
Qed.

Lemma resolveWait_audios w v s : audios (resolveWait w v s) = audios s.
Proof. apply resolveWait_same_audio. Qed.

Section Chain.
Variable okText : jsstring -> Prop.
Variable okVoices : list Voice -> Prop.

Let move := move okText okVoices.
Let moves := moves okText okVoices.
Let waiters_ok := waiters_ok okText.

Lemma moves_refl s : moves s s.
Proof. apply rtc_refl. Qed.

Lemma moves_trans s1 s2 s3 : moves s1 s2 -> moves s2 s3 -> moves s1 s3.
Proof. apply rtc_trans. Qed.

Lemma moves_frame s s' : frame_eq s s' -> moves s s'.
Proof. intros H. apply rtc_once, mv_frame, H. Qed.

Lemma move_waiters_ok s s' : move s s' -> waiters_ok s -> waiters_ok s'.
Proof.
  intros Hm H. destruct_move Hm;
    try (eapply waiters_ok_audios; [|exact H]; reflexivity).
  - eapply waiters_ok_audios; [apply HframeM | exact H].
  - eapply waiters_ok_audios; [|exact H].
    rewrite resolveWait_audios. reflexivity.
  - eapply waiters_ok_audios; [|exact H]. unfold timeoutCallback.
    rewrite resolveWait_audios. reflexivity.
  - intros i el. wsimpl. intros Hi.
    apply lookup_app_Some in Hi as [Hi|[_ Hi]]; [eapply H, Hi|].
    destruct (i - length (audios _))%nat; [|discriminate].
    injection Hi as <-. assumption.
Qed.

Lemma moves_waiters_ok s s' : moves s s' -> waiters_ok s -> waiters_ok s'.
Proof. induction 1; eauto using move_waiters_ok. Qed.

(** Frame steps: decided by unfolding. *)
Ltac frame :=
  apply moves_frame; repeat split; wsimpl;
  rewrite ?fmap_waiter_alter by reflexivity; reflexivity.

Lemma moves_updateVoices s : moves s (updateVoices s).
Proof.
  unfold updateVoices. destruct (nonEmpty (synthVoices s)) eqn:E.
  - apply rtc_once, mv_cache, E.
  - apply moves_refl.
Qed.

Lemma moves_preloadVoices s : moves s (preloadVoices s).
Proof.
  unfold preloadVoices.
  eapply moves_trans; [apply moves_updateVoices|].
  destruct (onvoiceschanged (updateVoices s)); [apply moves_refl | frame..].
Qed.

Lemma moves_stopAudio s : moves s (stopAudio s).
Proof.
  unfold stopAudio. wsimpl. destruct (currentAudio s) eqn:E; frame.
Qed.

Lemma moves_unlockAudio s : moves s (unlockAudio s).
Proof.
  unfold unlockAudio, synth_resume_if_paused. destruct (synthPaused s); frame.
Qed.

Lemma moves_update_audio f a s :
  (forall el, a_waiter (f el) = a_waiter el) -> moves s (update_audio f a s).
Proof.
  intros Hf. apply moves_frame. wsimpl. repeat split.
  apply fmap_waiter_alter, Hf.
Qed.

Lemma moves_playUrl url r w s :
  ok_waiter okText w -> moves s (playUrl url r w s).
Proof.
  intros Hw. unfold playUrl.
  eapply moves_trans; [apply moves_stopAudio|].
  eapply moves_trans; [apply rtc_once, mv_audio, Hw|].
  frame.
Qed.

Lemma available_cached s :
  isLoaded s && nonEmpty (cachedVoices s) = true ->
  available s = Some (cachedVoices s).
Proof. intros H. unfold available. rewrite H. reflexivity. Qed.

Lemma moves_waitForVoices k s : moves s (waitForVoices k s).
Proof.
  unfold waitForVoices.
  destruct (isLoaded s && nonEmpty (cachedVoices s)) eqn:E1.
  - apply rtc_once, mv_push, available_cached, E1.
  - destruct (nonEmpty (synthVoices s)) eqn:E2.
    + eapply moves_trans; [apply rtc_once, mv_cache, E2|].
      apply rtc_once, (mv_push _ _ k (synthVoices s)).
      unfold available. wsimpl. rewrite E2. reflexivity.
    + apply rtc_once.
      assert (available s = None) as A
        by (unfold available; rewrite E1, E2; reflexivity).
      exact (mv_register okText okVoices k s A).
Qed.

Lemma moves_speakLoop n u s : moves s (speakLoop n u s).
Proof.
  revert s. induction n as [|n IH]; intros s; simpl; [apply moves_refl|].
  eapply moves_trans; [|apply IH]. frame.
Qed.

Lemma moves_ttsContinue k v s : moves s (ttsContinue k v s).
Proof.
  unfold ttsContinue.
  eapply moves_trans; [apply moves_speakLoop|].
  apply rtc_once, mv_resolve_op.
Qed.

Lemma moves_playTextToSpeech text accent rate repeat s :
  moves s (playTextToSpeech text accent rate repeat s).
Proof.
  unfold playTextToSpeech.
  destruct (negb (nonEmpty text) || (repeat <=? 0)%Z).
  - apply rtc_once, mv_new_op. discriminate.
  - eapply moves_trans; [apply rtc_once, (mv_new_op _ _ Pending); discriminate|].
    eapply moves_trans; [apply moves_stopAudio|].
    eapply moves_trans; [|apply moves_waitForVoices].
    unfold synth_resume_if_paused.
    destruct (synthPaused _); [frame | apply moves_refl].
Qed.

Lemma moves_sentenceLookup text accent speed op s :
  okText text -> moves s (sentenceLookup text accent speed op s).
Proof.
  intros Ht. unfold sentenceLookup.
  destruct (encodeURIComponent text) eqn:E.
  - apply moves_playUrl. exact Ht.
  - apply rtc_once, (mv_reject _ _ text); assumption.
Qed.

Lemma moves_resume w outcome s :
  ok_waiter okText w -> moves s (resume w outcome s).
Proof.
  intros Hw. destruct w, outcome; simpl; try apply moves_refl;
    try (apply rtc_once, mv_resolve_op).
  - eapply moves_trans; [|apply rtc_once, mv_resolve_op].
    eapply moves_trans; [|apply moves_playTextToSpeech]. frame.
  - eapply moves_trans; [|apply moves_sentenceLookup, Hw]. frame.
  - eapply moves_trans; [|apply rtc_once, mv_resolve_op].
    apply moves_playTextToSpeech.
Qed.

Lemma moves_settle a outcome s :
  waiters_ok s -> moves s (settle a outcome s).
Proof.
  intros H. unfold settle. destruct (audios s !! a) as [el|] eqn:E;
    [|apply moves_refl].
  destruct (a_promise el); try apply moves_refl.
  eapply moves_trans;
    [apply (moves_update_audio (with_promise outcome) a); reflexivity|].
  apply moves_resume. eapply H, E.
Qed.

Lemma moves_clearIfCurrent a s : moves s (clearIfCurrent a s).
Proof.
  unfold clearIfCurrent.
  destruct (decide (currentAudio s = Some a)); [frame | apply moves_refl].
Qed.

Lemma moves_handler f a outcome s :
  (forall el, a_waiter (f el) = a_waiter el) -> waiters_ok s ->
  moves s (settle a outcome (clearIfCurrent a (update_audio f a s))).
Proof.
  intros Hf H.
  assert (moves s (clearIfCurrent a (update_audio f a s))) as Hm.
  { eapply moves_trans; [apply moves_update_audio, Hf|].
    apply moves_clearIfCurrent. }
  eapply moves_trans; [exact Hm|].
  apply moves_settle. eapply moves_waiters_ok; eassumption.
Qed.

Lemma moves_voicesHandler w s : moves s (voicesHandler w s).
Proof.
  unfold voicesHandler. destruct (nonEmpty (synthVoices s)) eqn:E;
    [|apply moves_refl].
  eapply moves_trans; [apply rtc_once, mv_cache, E|].
  apply rtc_once, (mv_voices _ _ w (cache_voices (synthVoices s) s)), E.
Qed.

Lemma moves_foldl {B} (f : World -> B -> World) l :
  (forall s b, moves s (f s b)) -> forall s, moves s (foldl f s l).
Proof.
  intros Hf. induction l as [|b l IH]; intros s; simpl.
  - apply moves_refl.
  - eapply moves_trans; [apply Hf | apply IH].
Qed.

Lemma moves_fireVoicesChanged s : moves s (fireVoicesChanged s).
Proof.
  unfold fireVoicesChanged.
  eapply moves_trans;
    [| apply moves_foldl; intros; apply moves_voicesHandler].
  destruct (onvoiceschanged s);
    auto using moves_refl, moves_updateVoices.
Qed.

Lemma moves_drain s : moves s (drain s).
Proof.
  unfold drain.
  eapply moves_trans; [apply rtc_once, mv_drain|].
  apply moves_foldl. intros. apply moves_ttsContinue.
Qed.

Lemma moves_call c s : ok_call okText c -> moves s (call c s).
Proof.
  intros Hc. destruct c; simpl in *.
  - apply moves_preloadVoices.
  - apply moves_stopAudio.
  - apply moves_unlockAudio.
  - apply moves_playUrl. exact I.
  - apply moves_playTextToSpeech.
  - unfold playWordAudio. destruct (negb (nonEmpty text)).
    + apply rtc_once, mv_new_op. discriminate.
    + destruct (encodeURIComponent text) eqn:E.
      * eapply moves_trans;
          [apply rtc_once, (mv_new_op _ _ Pending); discriminate|].
        apply moves_playUrl. exact Hc.
      * apply rtc_once, (mv_reject_new _ _ text); assumption.
  - unfold playSentenceAudio.
    eapply moves_trans;
      [apply rtc_once, (mv_new_op _ _ Pending); discriminate|].
    destruct (truthy explicitUrl).
    + apply moves_playUrl. exact Hc.
    + apply moves_sentenceLookup. exact Hc.
Qed.

Lemma moves_handle e s :
  ok_event okVoices e -> waiters_ok s -> moves s (handle e s).
Proof.
  intros He H. destruct e; simpl in *.
  - apply moves_handler; [reflexivity | exact H].
  - apply moves_handler; [reflexivity | exact H].
  - apply moves_handler; [reflexivity | exact H].
  - destruct (audios s !! a) as [el|]; [|apply moves_refl].
    destruct (playing el); [|apply moves_refl].
    apply moves_update_audio. reflexivity.
  - eapply moves_trans; [apply rtc_once, mv_platform, He|].
    destruct fire; [apply moves_fireVoicesChanged | apply moves_refl].
  - destruct (timers s) as [|[due w] rest] eqn:E; [apply moves_refl|].
    destruct (due <=? now s)%N eqn:D; [|apply moves_refl].
    apply rtc_once, (mv_timeout _ _ due w rest); [exact E|].
    apply N.leb_le, D.
  - apply rtc_once, mv_tick.
  - destruct (synthPaused s); [apply moves_refl | frame].
Qed.

Lemma moves_step l s :
  ok_label okText okVoices l -> waiters_ok s -> moves s (step l s).
Proof.
  intros Hl H. destruct l; simpl in *.
  - apply moves_call, Hl.
  - eapply moves_trans; [apply moves_drain|].
    eapply moves_trans; [|apply moves_drain].
    apply moves_handle; [exact Hl|].
    eapply moves_waiters_ok; [apply moves_drain | exact H].
  - apply moves_drain.
Qed.

Lemma moves_run ls s :
  Forall (ok_label okText okVoices) ls -> waiters_ok s -> moves s (run ls s).
Proof.
  intros Hls. revert s.
  induction Hls as [|l ls Hl Hls IH]; intros s H; cbn [run foldl].
  - apply moves_refl.
  - pose proof (moves_step l s Hl H) as Hm.
    eapply moves_trans; [exact Hm|].
    apply IH. eapply moves_waiters_ok; eassumption.
Qed.

(** An invariant of the atomic changes is an invariant of every run. *)
Lemma moves_invariant (P : World -> Prop) s s' :
  (forall t t', move t t' -> P t -> P t') -> moves s s' -> P s -> P s'.
Proof. intros HP. induction 1; eauto. Qed.
End Chain.


Lemma ok_label_any l : ok_label (fun _ => True) (fun _ => True) l.
Proof. destruct l as [[]|[]|]; exact I. Qed.

Lemma waiters_ok_any s : waiters_ok (fun _ => True) s.
Proof. intros i el _. destruct (a_waiter el); exact I. Qed.

(** Without restrictions every run is a sequence of atomic changes. *)
Lemma moves_run_any ls s :
  moves (fun _ => True) (fun _ => True) s (run ls s).
Proof.
  apply moves_run; [|apply waiters_ok_any].
  apply Forall_forall. intros l _. apply ok_label_any.
Qed.

(** ** The cached voice catalog *)

Lemma resolveWait_cachedVoices w v s :
  cachedVoices (resolveWait w v s) = cachedVoices s.
Proof. unfold resolveWait. destruct (waits s !! w) as [[[] k]|]; reflexivity. Qed.

Lemma move_cached okText okVoices s s' :
  move okText okVoices s s' ->
  nonEmpty (cachedVoices s) = true -> nonEmpty (cachedVoices s') = true.
Proof.
  intros Hm H. destruct_move Hm; try exact H.
  - destruct HframeM as (-> & _). exact H.
  - assumption.
  - rewrite resolveWait_cachedVoices. exact H.
  - unfold timeoutCallback. rewrite resolveWait_cachedVoices. exact H.
Qed.

Lemma run_cached ls s :
  nonEmpty (cachedVoices s) = true ->
  nonEmpty (cachedVoices (run ls s)) = true.
Proof.
  apply (moves_invariant (fun _ => True) (fun _ => True)
           (fun t => nonEmpty (cachedVoices t) = true) s (run ls s)).
  - apply move_cached.
  - apply moves_run_any.
Qed.

Lemma move_cache_write okText okVoices s s' :
  move okText okVoices s s' ->
  cachedVoices s' = cachedVoices s
  \/ (cachedVoices s' = synthVoices s /\ nonEmpty (synthVoices s) = true).
Proof.
  intros Hm. destruct_move Hm; try (left; reflexivity).
  - left. apply HframeM.
  - right. split; [reflexivity | assumption].
  - left. rewrite resolveWait_cachedVoices. reflexivity.
  - left. unfold timeoutCallback. rewrite resolveWait_cachedVoices.
    reflexivity.
Qed.

Lemma fills_cached ls s :
  nonEmpty (cachedVoices s) = true -> fills ls s = 0%nat.
Proof.
  revert s. induction ls as [|l ls IH]; intros s H; simpl; [reflexivity|].
  rewrite H. simpl. apply IH. apply (run_cached [l] s H).
Qed.

Lemma fills_le_1 ls s : (fills ls s <= 1)%nat.
Proof.
  revert s. induction ls as [|l ls IH]; intros s; simpl; [lia|].
  destruct (nonEmpty (cachedVoices s)) eqn:E; simpl.
  - rewrite fills_cached; [lia|]. apply (run_cached [l] s E).
  - destruct (nonEmpty (cachedVoices (step l s))) eqn:E'; simpl.
    + rewrite fills_cached by exact E'. lia.
    + apply IH.
Qed.

Lemma move_loaded okText okVoices s s' :
  move okText okVoices s s' ->
  isLoaded s = nonEmpty (cachedVoices s) ->
  isLoaded s' = nonEmpty (cachedVoices s').
Proof.
  intros Hm H. destruct_move Hm; try exact H.
  - destruct HframeM as (-> & -> & _). exact H.
  - wsimpl. symmetry. assumption.
  - unfold resolveWait. destruct (waits _ !! wM) as [[[] k]|]; exact H.
  - unfold timeoutCallback, resolveWait.
    destruct (waits _ !! wM) as [[[] k]|]; exact H.
Qed.

(** C9. Once the cached catalog is non-empty it stays non-empty, whatever
    calls and platform events follow; along any run it goes from empty to
    non-empty at most once.  The three writers ([updateVoices], installed by
    [preloadVoices] as the [voiceschanged] callback; the listener of
    [waitForVoices]; the probe at the start of [waitForVoices]) store the
    platform's list only when it is non-empty, and no other atomic change
    of the module writes the cache.  In reachable states [isLoaded] says
    exactly that the cache is non-empty. *)
Theorem C9_cache_stays_nonempty :
  (forall ls s, nonEmpty (cachedVoices s) = true ->
                nonEmpty (cachedVoices (run ls s)) = true)
  /\ (forall ls s, (fills ls s <= 1)%nat)
  /\ (forall s, cachedVoices (updateVoices s)
                = if nonEmpty (synthVoices s) then synthVoices s
                  else cachedVoices s)
  /\ (forall w s, cachedVoices (voicesHandler w s)
                  = if nonEmpty (synthVoices s) then synthVoices s
                    else cachedVoices s)
  /\ (forall k s, cachedVoices (waitForVoices k s)
                  = if isLoaded s && nonEmpty (cachedVoices s)
                    then cachedVoices s
                    else if nonEmpty (synthVoices s) then synthVoices s
                         else cachedVoices s)
  /\ (forall okText okVoices s s',
        move okText okVoices s s' ->
        cachedVoices s' = cachedVoices s
        \/ (cachedVoices s' = synthVoices s
            /\ nonEmpty (synthVoices s) = true))
  /\ (forall s, reachable s -> isLoaded s = nonEmpty (cachedVoices s)).
Proof.
  split; [|split; [|split; [|split; [|split; [|split]]]]].
  - apply run_cached.
  - apply fills_le_1.
  - intros s. unfold updateVoices.
    destruct (nonEmpty (synthVoices s)); reflexivity.
  - intros w s. unfold voicesHandler.
    destruct (nonEmpty (synthVoices s)); [|reflexivity].
    rewrite resolveWait_cachedVoices. reflexivity.
  - intros k s. unfold waitForVoices.
    destruct (isLoaded s && nonEmpty (cachedVoices s)); [reflexivity|].
    destruct (nonEmpty (synthVoices s)); reflexivity.
  - apply move_cache_write.
  - intros s (v & o & ls & ->).
    apply (moves_invariant (fun _ => True) (fun _ => True)
             (fun t => isLoaded t = nonEmpty (cachedVoices t))
             (init v o) (run ls (init v o))).
    + apply move_loaded.
    + apply moves_run_any.
    + reflexivity.
Qed.

Lemma C9_cache_stays_nonempty_witness :
  let s := run [LCall CPreloadVoices] (init [voiceUS] OvcNull) in
  nonEmpty (cachedVoices
              (run [LEvent (EvVoices [] true);
                    LCall (CPlayTextToSpeech hello US 1 1);
                    LEvent (EvTick 2000); LEvent EvTimer] s)) = true
  /\ isLoaded s = nonEmpty (cachedVoices s).
Proof.
  intros s. split.
  - apply (proj1 C9_cache_stays_nonempty). reflexivity.
  - apply (proj2 (proj2 (proj2 (proj2 (proj2 (proj2
             C9_cache_stays_nonempty)))))).
    exists [voiceUS], OvcNull, [LCall CPreloadVoices]. reflexivity.
Defined.

(** The platform's list going empty leaves the cached catalog in place. *)
Example cache_survives_empty_list :
  let s := run [LCall CPreloadVoices; LEvent (EvVoices [] true)]
             (init [voiceUS] OvcNull) in
  cachedVoices s = [voiceUS] /\ synthVoices s = []
  /\ onvoiceschanged s = OvcUpdateVoices.
Proof. vm_compute. repeat split. Qed.

(** ** The empty-text guard *)

(** C10. [playWordAudio] with empty text returns at once: the state is
    unchanged but for the resolved promise of the call (no stop, no signal,
    nothing queued, no element).  [playSentenceAudio] has no such guard:
    with empty text and no explicit URL it runs [stopAudio] (signal
    dispatched, tracked element stopped, speech cancelled) and plays the
    lookup URL built from the empty string. *)
Theorem C10_empty_text_guard (s : World) (accent : Accent) (speed : Q) :
  (playWordAudio [] accent speed s = new_op Resolved s
   /\ stopSignals (playWordAudio [] accent speed s) = stopSignals s
   /\ currentAudio (playWordAudio [] accent speed s) = currentAudio s
   /\ audios (playWordAudio [] accent speed s) = audios s
   /\ synthQueue (playWordAudio [] accent speed s) = synthQueue s
   /\ microtasks (playWordAudio [] accent speed s) = microtasks s
   /\ waits (playWordAudio [] accent speed s) = waits s)
  /\ (let s' := playSentenceAudio [] None accent speed s in
      let url := js "https://dict.youdao.com/dictvoice?audio=&type="
                   ++ typeOf accent in
      s' = playUrl url speed
             (WSentenceLookup [] accent speed (length (ops s)))
             (new_op Pending s)
      /\ stopSignals s' = S (stopSignals s)
      /\ synthQueue s' = []
      /\ currentAudio s' = Some (length (audios s))
      /\ audios s'
         = audios (stopAudio s)
             ++ [mkAudio url speed false false false 0 Pending
                   (WSentenceLookup [] accent speed (length (ops s)))]
      /\ ops s' = ops s ++ [Pending])
  /\ playSentenceAudio [] (Some []) accent speed s
     = playSentenceAudio [] None accent speed s.
Proof.
  split; [|split].
  - repeat split.
  - intros s' url.
    assert (s' = playUrl url speed
                   (WSentenceLookup [] accent speed (length (ops s)))
                   (new_op Pending s)) as E by reflexivity.
    split; [exact E|]. rewrite E.
    destruct (playUrl_frame url speed
                (WSentenceLookup [] accent speed (length (ops s)))
                (new_op Pending s)) as (_ & _ & _ & O & _).
    split; [rewrite playUrl_stopSignals; reflexivity|].
    split; [apply playUrl_synthQueue|].
    split; [apply (playUrl_currentAudio _ _ _ (new_op Pending s))|].
    split; [rewrite playUrl_audios, stopAudio_new_op_audios; reflexivity|].
    exact O.
  - reflexivity.
Qed.

(** With a word playing, the empty-text calls differ as stated. *)
Example empty_text_asymmetry :
  let s := run [LCall (CPlayWordAudio hello US 1)] (init [] OvcNull) in
  let w := playWordAudio [] US 1 s in
  let p := playSentenceAudio [] None US 1 s in
  (playing <$> audios w) = [true] /\ stopSignals w = stopSignals s
  /\ (playing <$> audios p) = [false; true]
  /\ stopSignals p = S (stopSignals s)
  /\ (a_src <$> audios p) !! 1%nat
     = Some (js "https://dict.youdao.com/dictvoice?audio=&type=2").
Proof. vm_compute. repeat split. Qed.

(** ** The promises of the entry points *)

Lemma resolveWait_ops w v s : ops (resolveWait w v s) = ops s.
Proof. unfold resolveWait. destruct (waits s !! w) as [[[] k]|]; reflexivity. Qed.














Lemma playTextToSpeech_ops text accent rate repeat s :
  ops (playTextToSpeech text accent rate repeat s)
  = ops s ++ [if negb (nonEmpty text) || (repeat <=? 0)%Z
              then Resolved else Pending].
Proof.
  unfold playTextToSpeech.
  destruct (negb (nonEmpty text) || (repeat <=? 0)%Z); [reflexivity|].
  destruct (waitForVoices_frame
              (mkTtsK text accent rate repeat (length (ops s)))
              (synth_resume_if_paused (stopAudio (new_op Pending s))))
    as (_&_&_& -> &_).
  unfold synth_resume_if_paused. destruct (synthPaused _); wsimpl;
    destruct (stopAudio_frame (new_op Pending s))
      as (_&_&_&_&_&_&_&_& -> &_); reflexivity.
Qed.




Lemma run_app ls ls' s : run (ls ++ ls') s = run ls' (run ls s).
Proof. apply foldl_app. Qed.




Lemma playUrl_ops url r w s : ops (playUrl url r w s) = ops s.
Proof. apply playUrl_frame. Qed.








(** ** [waitForVoices] *)

Lemma resolveWait_waits w v s :
  waits (resolveWait w v s)
  = match waits s !! w with
    | Some (mkWait Pending k) => <[w := mkWait Resolved k]> (waits s)
    | _ => waits s
    end.
Proof. unfold resolveWait. destruct (waits s !! w) as [[[] k]|]; reflexivity. Qed.

Lemma resolveWait_microtasks w v s :
  microtasks (resolveWait w v s)
  = match waits s !! w with
    | Some (mkWait Pending k) => microtasks s ++ [(k, v)]
    | _ => microtasks s
    end.
Proof. unfold resolveWait. destruct (waits s !! w) as [[[] k]|]; reflexivity. Qed.

Lemma resolveWait_frame w v s :
  synthVoices (resolveWait w v s) = synthVoices s
  /\ timers (resolveWait w v s) = timers s
  /\ now (resolveWait w v s) = now s
  /\ voiceListeners (resolveWait w v s) = voiceListeners s
  /\ cachedVoices (resolveWait w v s) = cachedVoices s
  /\ isLoaded (resolveWait w v s) = isLoaded s.
Proof.
  unfold resolveWait. destruct (waits s !! w) as [[[] k]|]; repeat split.
Qed.

(** What resolving wait [w'] does to wait [w]. *)
Lemma resolveWait_other w w' v k st s :
  wait_is w k st s ->
  wait_is w k (if decide (w' = w) then
                 match st with Pending => Resolved | _ => st end
               else st)
    (resolveWait w' v s).
Proof.
  unfold wait_is. intros H. rewrite resolveWait_waits.
  destruct (decide (w' = w)) as [->|Hne].
  - rewrite H. destruct st; try exact H.
    apply list_lookup_insert_eq. eapply lookup_lt_Some, H.
  - destruct (waits s !! w') as [[[] k']|]; try exact H.
    rewrite list_lookup_insert_ne by assumption. exact H.
Qed.

Lemma resolveWait_resolved w w' v k s :
  wait_is w k Resolved s -> wait_is w k Resolved (resolveWait w' v s).
Proof.
  intros H. pose proof (resolveWait_other w w' v k Resolved s H) as H'.
  destruct (decide (w' = w)); exact H'.
Qed.

(** A wait is never rejected. *)
Lemma move_wait_not_rejected okText okVoices s s' :
  move okText okVoices s s' ->
  (forall w x, waits s !! w = Some x -> w_state x <> Rejected) ->
  forall w x, waits s' !! w = Some x -> w_state x <> Rejected.
Proof.
  intros Hm H w0 x. destruct_move Hm; wsimpl; try apply H.
  - destruct HframeM as (_&_&_&_& -> &_). apply H.
  - intros Hl. apply lookup_app_Some in Hl as [Hl|[_ Hl]]; [eapply H, Hl|].
    destruct (w0 - length (waits _))%nat; [|discriminate].
    injection Hl as <-. discriminate.
  - rewrite resolveWait_waits. wsimpl.
    destruct (waits _ !! wM) as [[[] k]|] eqn:E; try apply H.
    intros Hl. apply list_lookup_insert_Some in Hl as [(_ & <- & _)|(_ & Hl)];
      [discriminate | eapply H, Hl].
  - unfold timeoutCallback. rewrite resolveWait_waits. wsimpl.
    destruct (waits _ !! wM) as [[[] k]|] eqn:E; try apply H.
    intros Hl. apply list_lookup_insert_Some in Hl as [(_ & <- & _)|(_ & Hl)];
      [discriminate | eapply H, Hl].
Qed.

(** A resolved wait stays resolved. *)
Lemma move_wait_resolved okText okVoices w k s s' :
  move okText okVoices s s' ->
  wait_is w k Resolved s -> wait_is w k Resolved s'.
Proof.
  unfold wait_is. intros Hm H. destruct_move Hm; wsimpl; try exact H.
  - destruct HframeM as (_&_&_&_& -> &_). exact H.
  - apply lookup_app_l_Some, H.
  - apply resolveWait_resolved. exact H.
  - unfold timeoutCallback. apply resolveWait_resolved. exact H.
Qed.

(** A pending wait has its listener installed. *)
Lemma move_listening okText okVoices s s' :
  move okText okVoices s s' -> listening s -> listening s'.
Proof.
  unfold listening, wait_is. intros Hm H w0 k0.
  assert (forall w v t,
            (forall w k, waits t !! w = Some (mkWait Pending k) ->
                         w ∈ voiceListeners t) ->
            waits (resolveWait w v (removeListener w t)) !! w0
            = Some (mkWait Pending k0) ->
            w0 ∈ voiceListeners (resolveWait w v (removeListener w t)))
    as Hres.
  { intros w v t Ht. rewrite resolveWait_waits.
    destruct (resolveWait_frame w v (removeListener w t))
      as (_&_&_& -> &_).
    wsimpl. intros Hl. apply list_elem_of_filter.
    destruct (decide (w0 = w)) as [->|Hne].
    - destruct (waits t !! w) as [[[] k]|] eqn:E; try congruence.
      rewrite list_lookup_insert_eq in Hl by (eapply lookup_lt_Some, E).
      discriminate.
    - split; [exact Hne|].
      destruct (waits t !! w) as [[[] k]|] eqn:E;
        try (eapply Ht, Hl).
      rewrite list_lookup_insert_ne in Hl by congruence. eapply Ht, Hl. }
  destruct_move Hm; wsimpl; try apply H.
  - destruct HframeM as (_&_&_& -> & -> &_). apply H.
  - intros Hl. apply elem_of_app.
    apply lookup_app_Some in Hl as [Hl|[Hge Hl]].
    + left. eapply H, Hl.
    + right. destruct (w0 - length (waits _))%nat eqn:E; [|discriminate].
      apply list_elem_of_singleton. lia.
  - apply Hres, H.
  - unfold timeoutCallback. apply (Hres wM (synthVoices _) (set_timers restM _)).
    exact H.
Qed.

Lemma move_wait_alive okText okVoices w k s s' :
  move okText okVoices s s' -> wait_alive w k s -> wait_alive w k s'.
Proof.
  intros Hm (st & H & Hst). unfold wait_alive, wait_is in *.
  destruct_move Hm; wsimpl; try (exists st; split; [exact H | exact Hst]).
  - destruct HframeM as (_&_&_&_& -> &_). eauto.
  - exists st. split; [apply lookup_app_l_Some, H | exact Hst].
  - eexists. split; [apply (resolveWait_other w wM _ k st), H|].
    destruct (decide (wM = w)); [destruct st|]; congruence.
  - eexists. split;
      [unfold timeoutCallback; apply (resolveWait_other w wM _ k st), H|].
    destruct (decide (wM = w)); [destruct st|]; congruence.
Qed.

(** If wait [w] is pending after resolving [w'], it was pending before and
    [w'] is another wait. *)
Lemma resolveWait_pending_inv w w' v k s :
  wait_is w k Pending (resolveWait w' v s) ->
  wait_is w k Pending s /\ w' <> w.
Proof.
  unfold wait_is. rewrite resolveWait_waits. intros H.
  destruct (decide (w' = w)) as [->|Hne].
  - destruct (waits s !! w) as [[[] k']|] eqn:E; try congruence.
    rewrite list_lookup_insert_eq in H by (eapply lookup_lt_Some, E).
    discriminate.
  - split; [|exact Hne].
    destruct (waits s !! w') as [[[] k']|]; try exact H.
    rewrite list_lookup_insert_ne in H by assumption. exact H.
Qed.

Lemma move_timers_near okText okVoices s s' :
  move okText okVoices s s' -> timers_near s -> timers_near s'.
Proof.
  unfold timers_near. intros Hm H. destruct_move Hm; wsimpl; try exact H.
  - destruct HframeM as (_&_&_&_&_& -> & -> &_). exact H.
  - apply Forall_app. split; [exact H|].
    apply Forall_singleton. simpl. lia.
  - destruct (resolveWait_frame wM (synthVoices s) (removeListener wM s))
      as (_ & -> & -> & _). exact H.
  - unfold timeoutCallback.
    destruct (resolveWait_frame wM
                (synthVoices (removeListener wM (set_timers restM s)))
                (removeListener wM (set_timers restM s)))
      as (_ & -> & -> & _).
    wsimpl. rewrite HtimersM in H. eapply Forall_cons_1, H.
  - eapply Forall_impl; [exact H|]. simpl. intros x Hx. lia.
Qed.

Lemma move_timer_queued okText okVoices w k B s s' :
  move okText okVoices s s' ->
  (w < length (waits s))%nat /\ timer_queued w k B s ->
  (w < length (waits s'))%nat /\ timer_queued w k B s'.
Proof.
  unfold timer_queued, wait_is. intros Hm [Hw H].
  destruct_move Hm; wsimpl; try (split; [exact Hw | exact H]).
  - destruct HframeM as (_&_&_&_& -> & -> &_). auto.
  - split; [rewrite length_app; simpl; lia|]. intros Hp.
    rewrite lookup_app_l in Hp by exact Hw.
    destruct (H Hp) as (pre & post & -> & Hpre).
    exists pre, (post ++ [((now s + 2000)%N, length (waits s))]).
    split; [|exact Hpre]. rewrite <- app_assoc. reflexivity.
  - destruct (resolveWait_frame wM (synthVoices s) (removeListener wM s))
      as (_ & -> & _).
    split.
    + rewrite resolveWait_waits. wsimpl.
      destruct (waits s !! wM) as [[[] k']|]; rewrite ?length_insert; exact Hw.
    + intros Hp. apply resolveWait_pending_inv in Hp as [Hp _].
      apply H, Hp.
  - unfold timeoutCallback.
    destruct (resolveWait_frame wM
                (synthVoices (removeListener wM (set_timers restM s)))
                (removeListener wM (set_timers restM s)))
      as (_ & -> & _).
    split.
    + rewrite resolveWait_waits. wsimpl.
      destruct (waits s !! wM) as [[[] k']|]; rewrite ?length_insert; exact Hw.
    + intros Hp. apply resolveWait_pending_inv in Hp as [Hp Hne].
      destruct (H Hp) as (pre & post & E & Hpre). wsimpl.
      rewrite HtimersM in E. destruct pre as [|x pre].
      * simpl in E. injection E as _ <- _. contradiction.
      * simpl in E. injection E as <- ->.
        exists pre, post. split; [reflexivity|].
        eapply Forall_cons_1, Hpre.
Qed.

Lemma move_pending_until okText w k B s s' :
  move okText noVoices s s' ->
  pending_until w k B s -> pending_until w k B s'.
Proof.
  unfold pending_until, wait_is. intros Hm (Hv & Hw & Ht & Hp).
  assert (nonEmpty (synthVoices s) = true -> False) as Hno.
  { rewrite Hv. discriminate. }
  destruct_move Hm; wsimpl;
    try (split; [exact Hv | split; [exact Hw | split; [exact Ht | exact Hp]]]);
    try (exfalso; auto; fail).
  - destruct HframeM as (_&_& -> &_& -> & -> & -> &_). auto.
  - split; [exact Hv|]. split; [rewrite length_app; simpl; lia|]. split.
    + intros d Hd. apply elem_of_app in Hd as [Hd|Hd]; [apply Ht, Hd|].
      apply list_elem_of_singleton in Hd. injection Hd as _ Hd. lia.
    + intros Hn. apply lookup_app_l_Some, Hp, Hn.
  - unfold timeoutCallback.
    destruct (resolveWait_frame wM
                (synthVoices (removeListener wM (set_timers restM s)))
                (removeListener wM (set_timers restM s)))
      as (-> & -> & -> & _).
    wsimpl. split; [exact Hv|]. split; [|split].
    + rewrite resolveWait_waits. wsimpl.
      destruct (waits s !! wM) as [[[] k']|]; rewrite ?length_insert; exact Hw.
    + intros d Hd. apply Ht. rewrite HtimersM. right. exact Hd.
    + intros Hn.
      pose proof (resolveWait_other w wM
                    (synthVoices (removeListener wM (set_timers restM s)))
                    k Pending (removeListener wM (set_timers restM s))
                    (Hp Hn)) as Hr.
      destruct (decide (wM = w)) as [->|Hne]; [|exact Hr].
      assert (dueM = B) as -> by (apply Ht; rewrite HtimersM; left).
      lia.
  - split; [exact Hv|]. split; [exact Hw|]. split; [exact Ht|].
    intros Hn. apply Hp. lia.
  - split; [exact HvM|]. auto.
Qed.

Lemma speakLoop_voice_frame n u s :
  now (speakLoop n u s) = now s
  /\ synthVoices (speakLoop n u s) = synthVoices s
  /\ voiceListeners (speakLoop n u s) = voiceListeners s.
Proof.
  revert s. induction n as [|n IH]; intros s; simpl; [tauto|].
  destruct (IH (synth_speak u s)) as (?&?&?). tauto.
Qed.

Lemma ttsContinue_voice_frame k v s :
  waits (ttsContinue k v s) = waits s
  /\ timers (ttsContinue k v s) = timers s
  /\ now (ttsContinue k v s) = now s
  /\ synthVoices (ttsContinue k v s) = synthVoices s
  /\ voiceListeners (ttsContinue k v s) = voiceListeners s.
Proof.
  unfold ttsContinue. wsimpl.
  set (u := makeUtterance _ _ _ _).
  destruct (speakLoop_frame (Z.to_nat (k_repeat k)) u s)
    as (_&_& W & T &_).
  destruct (speakLoop_voice_frame (Z.to_nat (k_repeat k)) u s)
    as (N & V & L).
  tauto.
Qed.

Lemma drain_voice_frame s :
  waits (drain s) = waits s
  /\ timers (drain s) = timers s
  /\ now (drain s) = now s
  /\ synthVoices (drain s) = synthVoices s
  /\ voiceListeners (drain s) = voiceListeners s.
Proof.
  unfold drain.
  generalize (microtasks s). intros l.
  change (waits s) with (waits (set_microtasks [] s)).
  change (timers s) with (timers (set_microtasks [] s)).
  change (now s) with (now (set_microtasks [] s)).
  change (synthVoices s) with (synthVoices (set_microtasks [] s)).
  change (voiceListeners s) with (voiceListeners (set_microtasks [] s)).
  generalize (set_microtasks [] s). clear s.
  induction l as [|[k v] l IH]; intros s; simpl; [tauto|].
  destruct (IH (ttsContinue k v s)) as (-> & -> & -> & -> & ->).
  apply ttsContinue_voice_frame.
Qed.

Lemma wait_is_drain w k st s : wait_is w k st (drain s) <-> wait_is w k st s.
Proof.
  unfold wait_is. destruct (drain_voice_frame s) as (-> & _). tauto.
Qed.

(** One timer event when the oldest timer is due. *)
Lemma timer_step d w' rest t :
  timers t = (d, w') :: rest -> (d <= now t)%N ->
  timers (step (LEvent EvTimer) t) = rest
  /\ now (step (LEvent EvTimer) t) = now t
  /\ forall w k st,
       wait_is w k st t ->
       wait_is w k (if decide (w' = w) then
                      match st with Pending => Resolved | _ => st end
                    else st)
         (step (LEvent EvTimer) t).
Proof.
  intros Ht Hd. cbn [step].
  destruct (drain_voice_frame t) as (W & T & N & _).
  assert (handle EvTimer (drain t)
          = timeoutCallback w' (set_timers rest (drain t))) as E.
  { cbn [handle]. rewrite T, Ht, N.
    destruct (d <=? now t)%N eqn:D; [reflexivity|].
    apply N.leb_gt in D. lia. }
  rewrite E. unfold timeoutCallback.
  set (t1 := removeListener w' (set_timers rest (drain t))).
  destruct (drain_voice_frame (resolveWait w' (synthVoices t1) t1))
    as (W2 & T2 & N2 & _).
  destruct (resolveWait_frame w' (synthVoices t1) t1) as (_ & T3 & N3 & _).
  split; [rewrite T2, T3; reflexivity|].
  split; [rewrite N2, N3; exact N|].
  intros w k st Hw. apply wait_is_drain.
  apply resolveWait_other. unfold wait_is, t1. wsimpl. rewrite W. exact Hw.
Qed.

(** Once the timer of a wait is due, timer events resolve the wait. *)
Lemma timers_fire w k B pre :
  forall post t st,
    timers t = pre ++ (B, w) :: post ->
    Forall (fun x => (fst x <= B)%N) pre -> (B <= now t)%N ->
    wait_is w k st t -> st <> Rejected ->
    wait_is w k Resolved (run (timer_events (S (length pre))) t).
Proof.
  induction pre as [|[d w'] pre IH]; intros post t st Ht Hpre HB Hw Hst.
  - simpl in Ht. destruct (timer_step B w post t Ht HB) as (_ & _ & Hs).
    specialize (Hs w k st Hw).
    destruct (decide (w = w)); [|congruence].
    cbn [timer_events replicate run foldl length].
    destruct st; [exact Hs | exact Hs | congruence].
  - simpl in Ht. apply Forall_cons in Hpre as [Hd Hpre]. simpl in Hd.
    destruct (timer_step d w' _ t Ht ltac:(lia)) as (T & N & Hs).
    specialize (Hs w k st Hw).
    change (run (timer_events (S (length ((d, w') :: pre)))) t)
      with (run (timer_events (S (length pre)))
              (step (LEvent EvTimer) t)).
    eapply (IH post); [exact T | exact Hpre | rewrite N; exact HB
                      | exact Hs |].
    destruct (decide (w' = w)); [destruct st|]; congruence.
Qed.

(** Timer events bring a timer of a pending wait to the head of the queue,
    due. *)
Lemma timers_reach w k B pre :
  forall post t,
    timers t = pre ++ (B, w) :: post ->
    Forall (fun x => (fst x <= B)%N) pre -> (B <= now t)%N ->
    wait_is w k Pending t ->
    exists n d rest,
      wait_is w k Pending (run (timer_events n) t)
      /\ timers (run (timer_events n) t) = (d, w) :: rest
      /\ (d <= now (run (timer_events n) t))%N.
Proof.
  induction pre as [|[d0 w0] pre IH]; intros post t Ht Hpre HB Hw.
  - exists 0%nat, B, post. auto.
  - simpl in Ht. apply Forall_cons in Hpre as [Hd Hpre]. simpl in Hd.
    destruct (decide (w0 = w)) as [->|Hne].
    + exists 0%nat, d0, (pre ++ (B, w) :: post).
      split; [exact Hw|]. split; [exact Ht|]. simpl. lia.
    + destruct (timer_step d0 w0 _ t Ht ltac:(lia)) as (T & N & Hs).
      specialize (Hs w k Pending Hw).
      destruct (decide (w0 = w)) as [|_]; [contradiction|].
      destruct (IH post (step (LEvent EvTimer) t) T Hpre
                  ltac:(rewrite N; exact HB) Hs) as (n & d & rest & H).
      exists (S n), d, rest. exact H.
Qed.

(** The timer of wait [w] at the head of the queue. *)
Lemma timer_head w k d rest t :
  wait_is w k Pending t -> timers t = (d, w) :: rest ->
  ((d <= now t)%N ->
   wait_is w k Resolved (handle EvTimer t)
   /\ (k, synthVoices t) ∈ microtasks (handle EvTimer t))
  /\ ((now t < d)%N -> handle EvTimer t = t).
Proof.
  intros Hp Ht. split.
  - intros HB. cbn [handle]. rewrite Ht.
    destruct (d <=? now t)%N eqn:D; [|apply N.leb_gt in D; lia].
    unfold timeoutCallback.
    set (t1 := removeListener w (set_timers rest t)).
    pose proof (resolveWait_other w w (synthVoices t1) k Pending t1 Hp)
      as Hr.
    destruct (decide (w = w)); [|congruence].
    split; [exact Hr|].
    rewrite resolveWait_microtasks. unfold wait_is in Hp.
    change (waits t1) with (waits t). rewrite Hp.
    apply elem_of_app. right. apply list_elem_of_singleton. reflexivity.
  - intros HB. cbn [handle]. rewrite Ht.
    destruct (d <=? now t)%N eqn:D; [apply N.leb_le in D; lia|].
    reflexivity.
Qed.

Lemma voiceless_timer_events n : voiceless (timer_events n).
Proof.
  unfold voiceless, timer_events. apply Forall_forall. intros l Hl.
  apply elem_of_replicate in Hl as [-> _]. exact I.
Qed.

(** ['voiceschanged'] with a non-empty list resolves every pending wait
    that is listening. *)
Lemma voicesHandlers_resolve l :
  forall t,
    nonEmpty (synthVoices t) = true ->
    let t' := foldl (fun s w => voicesHandler w s) t l in
    synthVoices t' = synthVoices t
    /\ (forall m, m ∈ microtasks t -> m ∈ microtasks t')
    /\ (forall w k, wait_is w k Resolved t -> wait_is w k Resolved t')
    /\ (forall w k, w ∈ l -> wait_is w k Pending t ->
                    wait_is w k Resolved t'
                    /\ (k, synthVoices t) ∈ microtasks t')
    /\ (l <> [] -> cachedVoices t' = synthVoices t).
Proof.
  induction l as [|x l IH]; intros t Hv; cbv zeta; cbn [foldl].
  - split; [reflexivity|]. split; [auto|]. split; [auto|].
    split; [|congruence].
    intros w k Hw. apply elem_of_nil in Hw. contradiction.
  - set (v := synthVoices t).
    assert (voicesHandler x t
            = resolveWait x v (removeListener x (cache_voices v t))) as E.
    { unfold voicesHandler. rewrite Hv. reflexivity. }
    rewrite E. set (t0 := removeListener x (cache_voices v t)).
    destruct (resolveWait_frame x v t0) as (V1 & _ & _ & _ & C1 & _).
    assert (synthVoices (resolveWait x v t0) = v) as V1' by (rewrite V1; reflexivity).
    assert (nonEmpty (synthVoices (resolveWait x v t0)) = true) as Hv1
      by (rewrite V1'; exact Hv).
    pose proof (IH (resolveWait x v t0) Hv1) as IH'. cbv zeta in IH'.
    destruct IH' as (Va & Ma & Ra & Pa & Ca).
    rewrite V1' in *.
    assert (forall m, m ∈ microtasks t -> m ∈ microtasks (resolveWait x v t0))
      as M1.
    { intros m Hm. rewrite resolveWait_microtasks.
      destruct (waits t0 !! x) as [[[] k']|]; try exact Hm.
      apply elem_of_app. left. exact Hm. }
    split; [exact Va|]. split; [auto|]. split; [|split].
    + intros w k Hw. apply Ra. apply resolveWait_resolved. exact Hw.
    + intros w k Hin Hw.
      pose proof (resolveWait_other w x v k Pending t0 Hw) as Hr.
      destruct (decide (x = w)) as [->|Hne].
      * split; [apply Ra, Hr|]. apply Ma.
        rewrite resolveWait_microtasks.
        unfold wait_is in Hw. change (waits t0) with (waits t).
        rewrite Hw. apply elem_of_app. right. apply list_elem_of_singleton.
        reflexivity.
      * apply Pa; [|exact Hr].
        apply elem_of_cons in Hin as [->|Hin]; [congruence | exact Hin].
    + intros _. destruct l as [|y l].
      * cbn [foldl]. rewrite C1. reflexivity.
      * apply Ca. discriminate.
Qed.

Lemma resolveWait_length w v s :
  length (waits (resolveWait w v s)) = length (waits s).
Proof.
  rewrite resolveWait_waits.
  destruct (waits s !! w) as [[[] k]|]; rewrite ?length_insert; reflexivity.
Qed.

Lemma move_timers_bound okText okVoices s s' :
  move okText okVoices s s' -> timers_bound s -> timers_bound s'.
Proof.
  unfold timers_bound. intros Hm H. destruct_move Hm; wsimpl; try exact H.
  - destruct HframeM as (_&_&_&_& -> & -> &_). exact H.
  - rewrite length_app. simpl. apply Forall_app. split.
    + eapply Forall_impl; [exact H|]. simpl. intros x Hx. lia.
    + apply Forall_singleton. simpl. lia.
  - rewrite resolveWait_length.
    destruct (resolveWait_frame wM (synthVoices s) (removeListener wM s))
      as (_ & -> & _). exact H.
  - unfold timeoutCallback. rewrite resolveWait_length.
    destruct (resolveWait_frame wM
                (synthVoices (removeListener wM (set_timers restM s)))
                (removeListener wM (set_timers restM s)))
      as (_ & -> & _).
    wsimpl. rewrite HtimersM in H. eapply Forall_cons_1, H.
Qed.

(** What holds at module load and survives every atomic change holds in
    every reachable state. *)
Lemma reachable_invariant (P : World -> Prop) s :
  (forall v o, P (init v o)) ->
  (forall t t', move anyText anyVoices t t' -> P t -> P t') ->
  reachable s -> P s.
Proof.
  intros Hi Hm (v & o & ls & ->).
  apply (moves_invariant anyText anyVoices P (init v o)); auto.
  apply moves_run_any.
Qed.

Lemma moves_any_invariant (P : World -> Prop) s ls :
  (forall t t', move anyText anyVoices t t' -> P t -> P t') ->
  P s -> P (run ls s).
Proof.
  intros Hm. apply (moves_invariant anyText anyVoices P s); [exact Hm|].
  apply moves_run_any.
Qed.

Lemma moves_voiceless_invariant (P : World -> Prop) s ls :
  (forall t t', move anyText noVoices t t' -> P t -> P t') ->
  voiceless ls -> P s -> P (run ls s).
Proof.
  intros Hm Hls. apply (moves_invariant anyText noVoices P s); [exact Hm|].
  apply moves_run; [exact Hls | apply waiters_ok_any].
Qed.

Lemma available_None s :
  available s = None ->
  isLoaded s && nonEmpty (cachedVoices s) = false /\ synthVoices s = [].
Proof.
  unfold available.
  destruct (isLoaded s && nonEmpty (cachedVoices s)); [discriminate|].
  destruct (synthVoices s); [auto | discriminate].
Qed.

Lemma voicesHandlers_idle l t :
  nonEmpty (synthVoices t) = false ->
  foldl (fun s w => voicesHandler w s) t l = t.
Proof.
  intros Hv. induction l as [|x l IH]; cbn [foldl]; [reflexivity|].
  unfold voicesHandler at 2. rewrite Hv. exact IH.
Qed.

Lemma fireVoicesChanged_idle t :
  nonEmpty (synthVoices t) = false -> fireVoicesChanged t = t.
Proof.
  intros Hv. unfold fireVoicesChanged, updateVoices. rewrite Hv.
  destruct (onvoiceschanged t); apply voicesHandlers_idle, Hv.
Qed.

Lemma fireVoicesChanged_resolves w k t :
  nonEmpty (synthVoices t) = true ->
  wait_is w k Pending t -> w ∈ voiceListeners t ->
  wait_is w k Resolved (fireVoicesChanged t)
  /\ (k, synthVoices t) ∈ microtasks (fireVoicesChanged t)
  /\ cachedVoices (fireVoicesChanged t) = synthVoices t.
Proof.
  intros Hv Hw Hl. unfold fireVoicesChanged.
  set (t0 := match onvoiceschanged t with
             | OvcUpdateVoices => updateVoices t
             | _ => t
             end).
  assert (synthVoices t0 = synthVoices t /\ waits t0 = waits t
          /\ voiceListeners t0 = voiceListeners t) as (V & W & L).
  { unfold t0, updateVoices. destruct (onvoiceschanged t); auto.
    rewrite Hv. auto. }
  assert (nonEmpty (synthVoices t0) = true) as Hv0 by (rewrite V; exact Hv).
  pose proof (voicesHandlers_resolve (voiceListeners t0) t0 Hv0) as H.
  cbv zeta in H. destruct H as (_ & _ & _ & Hp & Hc).
  rewrite V in *.
  assert (wait_is w k Pending t0) as Hw0 by (unfold wait_is; rewrite W; exact Hw).
  assert (w ∈ voiceListeners t0) as Hl0 by (rewrite L; exact Hl).
  destruct (Hp w k Hl0 Hw0) as [Hr Hm].
  split; [exact Hr|]. split; [exact Hm|].
  apply Hc. intros E. rewrite E in Hl0. apply elem_of_nil in Hl0. exact Hl0.
Qed.

Lemma init_timers_ok v o :
  timers_near (init v o) /\ timers_bound (init v o) /\ listening (init v o).
Proof.
  split; [apply Forall_nil_2|]. split; [apply Forall_nil_2|].
  intros w k H. destruct w; discriminate.
Qed.

(** C7 as stated fails: with nothing cached but voices present on the
    platform, [waitForVoices] does not suspend; it caches the platform's
    list and delivers it at once, installing neither listener nor timer. *)
Lemma C7_counterexample :
  let s := init [voiceUS] OvcNull in
  isLoaded s && nonEmpty (cachedVoices s) = false
  /\ microtasks (waitForVoices sampleK s) = [(sampleK, [voiceUS])]
  /\ waits (waitForVoices sampleK s) = []
  /\ timers (waitForVoices sampleK s) = []
  /\ voiceListeners (waitForVoices sampleK s) = []
  /\ cachedVoices (waitForVoices sampleK s) = [voiceUS]
  /\ (let t := run [LCall (CPlayTextToSpeech hello US 1 1); LYield] s in
      now t = 0 /\ ops t = [Resolved] /\ length (synthQueue t) = 1%nat).
Proof. vm_compute. repeat split. Qed.

(** C7 (amended).  [waitForVoices] delivers the cached catalog at once when
    voices are cached; with nothing cached it delivers (and caches) the
    platform's current list at once when that list is non-empty; otherwise
    it suspends behind a [voiceschanged] listener and a timer due 2000 ms
    later.  A suspended wait is resolved by a [voiceschanged] notification
    that finds a non-empty list, with that list, or by its timer, with
    whatever the platform has then; an empty list or a silent change of the
    list leaves it pending; it is never rejected and stays resolved.  When
    the platform never has voices the wait is pending at every time before
    the 2000 ms have passed, and after that timer events resolve it: the
    event of its own timer finds it pending and delivers the empty list. *)
Theorem C7_waitForVoices (s : World) (k : TtsK) :
  let w := length (waits s) in
  let B := (now s + 2000)%N in
  let s1 := waitForVoices k s in
  (isLoaded s && nonEmpty (cachedVoices s) = true ->
   s1 = push_microtask k (cachedVoices s) s)
  /\ (isLoaded s && nonEmpty (cachedVoices s) = false ->
      nonEmpty (synthVoices s) = true ->
      s1 = push_microtask k (synthVoices s) (cache_voices (synthVoices s) s))
  /\ (available s = None ->
      waits s1 = waits s ++ [mkWait Pending k]
      /\ voiceListeners s1 = voiceListeners s ++ [w]
      /\ timers s1 = timers s ++ [(B, w)]
      /\ microtasks s1 = microtasks s
      /\ cachedVoices s1 = cachedVoices s)
  /\ (available s = None -> reachable s ->
      forall ls v,
        wait_is w k Pending (run ls s1) -> nonEmpty v = true ->
        wait_is w k Resolved (handle (EvVoices v true) (run ls s1))
        /\ (k, v) ∈ microtasks (handle (EvVoices v true) (run ls s1))
        /\ cachedVoices (handle (EvVoices v true) (run ls s1)) = v)
  /\ (forall t v fire,
        wait_is w k Pending t -> v = [] \/ fire = false ->
        wait_is w k Pending (handle (EvVoices v fire) t))
  /\ (forall t d rest,
        wait_is w k Pending t -> timers t = (d, w) :: rest ->
        ((d <= now t)%N ->
         wait_is w k Resolved (handle EvTimer t)
         /\ (k, synthVoices t) ∈ microtasks (handle EvTimer t))
        /\ ((now t < d)%N -> handle EvTimer t = t))
  /\ (available s = None ->
      forall ls,
        wait_alive w k (run ls s1)
        /\ forall ls', wait_is w k Resolved (run ls s1) ->
                       wait_is w k Resolved (run (ls ++ ls') s1))
  /\ (available s = None -> reachable s ->
      forall ls,
        voiceless ls ->
        synthVoices (run ls s1) = []
        /\ ((now (run ls s1) < B)%N -> wait_is w k Pending (run ls s1))
        /\ ((B <= now (run ls s1))%N ->
            (exists n,
               wait_is w k Resolved (run (timer_events n) (run ls s1)))
            /\ (wait_is w k Pending (run ls s1) ->
                exists n,
                  let t := drain (run (timer_events n) (run ls s1)) in
                  wait_is w k Pending t
                  /\ wait_is w k Resolved (handle EvTimer t)
                  /\ (k, []) ∈ microtasks (handle EvTimer t)))).
Proof.
  intros w B s1.
  assert (available s = None ->
          s1 = set_timers (timers s ++ [(B, w)])
                 (set_voiceListeners (voiceListeners s ++ [w])
                    (set_waits (waits s ++ [mkWait Pending k]) s))) as Hs1.
  { intros A. apply waitForVoices_suspend, A. }
  assert (available s = None -> wait_is w k Pending s1) as Hpend.
  { intros A. rewrite (Hs1 A). unfold wait_is. wsimpl.
    apply list_lookup_middle. reflexivity. }
  split; [|split; [|split; [|split; [|split; [|split; [|split]]]]]].
  - intros Hc. unfold s1, waitForVoices. rewrite Hc. reflexivity.
  - intros Hc Hv. unfold s1, waitForVoices. rewrite Hc, Hv. reflexivity.
  - intros A. rewrite (Hs1 A). repeat split.
  - intros A Hr ls v Hp Hv.
    assert (listening (run ls s1)) as Hl.
    { apply (moves_any_invariant listening).
      - intros t t'. apply move_listening.
      - apply (moves_invariant anyText anyVoices listening s s1).
        + intros t t'. apply move_listening.
        + apply moves_waitForVoices.
        + revert Hr. apply reachable_invariant.
          * intros v0 o0. apply init_timers_ok.
          * intros t t'. apply move_listening. }
    cbn [handle].
    pose proof (fireVoicesChanged_resolves w k
                  (set_synthVoices v (run ls s1)) Hv Hp (Hl w k Hp)) as H.
    exact H.
  - intros t v fire Hp [-> | ->].
    + cbn [handle]. destruct fire; [|exact Hp].
      rewrite fireVoicesChanged_idle by reflexivity. exact Hp.
    + exact Hp.
  - intros t d rest. apply timer_head.
  - intros A ls. split.
    + apply (moves_any_invariant (wait_alive w k)).
      * intros t t'. apply move_wait_alive.
      * exists Pending. split; [apply Hpend, A | discriminate].
    + intros ls' Hr. rewrite run_app.
      apply (moves_any_invariant (wait_is w k Resolved));
        [|exact Hr].
      intros t t'. apply move_wait_resolved.
  - intros A Hr ls Hls.
    destruct (available_None s A) as [_ Hv].
    assert (timers_near s /\ timers_bound s) as [Hnear Hbound].
    { split; revert Hr; apply reachable_invariant;
        try (intros v0 o0; apply init_timers_ok).
      - intros t t'. apply move_timers_near.
      - intros t t'. apply move_timers_bound. }
    assert (pending_until w k B s1) as Hpu.
    { rewrite (Hs1 A). unfold pending_until, wait_is. wsimpl.
      split; [exact Hv|]. split; [rewrite length_app; simpl; lia|].
      split.
      - intros d Hd. apply elem_of_app in Hd as [Hd|Hd].
        + unfold timers_bound in Hbound.
          rewrite Forall_forall in Hbound.
          specialize (Hbound _ Hd). simpl in Hbound. unfold w in Hbound.
          lia.
        + apply list_elem_of_singleton in Hd. congruence.
      - intros _. apply list_lookup_middle. reflexivity. }
    assert (forall ls0, voiceless ls0 -> pending_until w k B (run ls0 s1))
      as Hinv.
    { intros ls0 Hls0.
      apply moves_voiceless_invariant; [|exact Hls0|exact Hpu].
      intros t t'. apply move_pending_until. }
    destruct (Hinv ls Hls) as (Hv' & _ & _ & Hp).
    split; [exact Hv'|]. split; [exact Hp|].
    intros HB.
    assert (wait_alive w k (run ls s1)) as (st & Hst & Hne).
    { apply (moves_any_invariant (wait_alive w k)).
      - intros t t'. apply move_wait_alive.
      - exists Pending. split; [apply Hpend, A | discriminate]. }
    assert ((w < length (waits (run ls s1)))%nat
            /\ timer_queued w k B (run ls s1)) as [_ Hq].
    { apply (moves_any_invariant
               (fun t => (w < length (waits t))%nat /\ timer_queued w k B t)).
      - intros t t'. apply move_timer_queued.
      - rewrite (Hs1 A). unfold timer_queued. wsimpl.
        split; [rewrite length_app; simpl; lia|].
        intros _. exists (timers s), []. split; [reflexivity|].
        eapply Forall_impl; [exact Hnear|]. simpl. intros x Hx. unfold B.
        exact Hx. }
    split.
    + destruct st; [| exists 0%nat; exact Hst | congruence].
      destruct (Hq Hst) as (pre & post & Ht & Hpre).
      exists (S (length pre)).
      apply (timers_fire w k B pre post _ Pending); auto; discriminate.
    + intros Hpend'.
      destruct (Hq Hpend') as (pre & post & Ht & Hpre).
      destruct (timers_reach w k B pre post _ Ht Hpre HB Hpend')
        as (n & d & rest & Hw' & Ht' & Hd').
      exists n. cbv zeta.
      set (t' := run (timer_events n) (run ls s1)) in *.
      destruct (drain_voice_frame t') as (_ & T & N & V & _).
      assert (synthVoices t' = []) as Hnil.
      { unfold t'. rewrite <- run_app. apply Hinv.
        apply Forall_app. split; [exact Hls | apply voiceless_timer_events]. }
      assert (wait_is w k Pending (drain t')) as Hwd
        by (apply wait_is_drain; exact Hw').
      split; [exact Hwd|].
      destruct (timer_head w k d rest (drain t') Hwd
                  ltac:(rewrite T; exact Ht')) as [Hfire _].
      rewrite V, Hnil in Hfire. apply Hfire. rewrite N. exact Hd'.
Qed.

Lemma C7_waitForVoices_witness :
  let s := init [] OvcNull in
  let s1 := waitForVoices sampleK s in
  timers s1 = [(2000, 0%nat)]
  /\ wait_is 0 sampleK Pending
       (run [LEvent (EvTick 1999); LEvent EvTimer] s1)
  /\ (exists n,
        wait_is 0 sampleK Resolved
          (run (timer_events n) (run [LEvent (EvTick 2000)] s1)))
  /\ (exists n,
        (sampleK, []) ∈
          microtasks
            (handle EvTimer
               (drain (run (timer_events n)
                         (run [LEvent (EvTick 2000)] s1)))))
  /\ wait_is 0 sampleK Resolved (handle (EvVoices [voiceGB] true) s1).
Proof.
  intros s s1.
  pose proof (C7_waitForVoices s sampleK) as H. cbv zeta in H.
  destruct H as (_ & _ & H3 & H4 & _ & _ & _ & H8).
  assert (reachable s) as Hr by (exists [], OvcNull, []; reflexivity).
  split; [|split; [|split; [|split]]].
  - apply (H3 eq_refl).
  - apply (H8 eq_refl Hr [LEvent (EvTick 1999); LEvent EvTimer]).
    + repeat constructor.
    + reflexivity.
  - apply (H8 eq_refl Hr [LEvent (EvTick 2000)]).
    + repeat constructor.
    + vm_compute. discriminate.
  - destruct (H8 eq_refl Hr [LEvent (EvTick 2000)]) as (_ & _ & Hlate).
    + repeat constructor.
    + destruct Hlate as [_ Hn].
      * vm_compute. discriminate.
      * destruct Hn as (n & _ & _ & Hm); [reflexivity|].
        exists n. exact Hm.
  - apply (H4 eq_refl Hr [] [voiceGB]); reflexivity.
Defined.

(** Scenario 3: no voices, no notification.  After 1999 ms the call is still
    waiting; once 2000 ms have passed the timer delivers the empty list and
    the utterance is queued without a voice. *)
Example scenario_no_voices :
  let speak := LCall (CPlayTextToSpeech hello UK 1 1) in
  let early := run [speak; LYield; LEvent (EvTick 1999); LEvent EvTimer]
                 (init [] OvcNull) in
  let late := run [LEvent (EvTick 1); LEvent EvTimer] early in
  ops early = [Pending] /\ synthQueue early = []
  /\ (w_state <$> waits early) = [Pending] /\ timers early = [(2000, 0%nat)]
  /\ ops late = [Resolved] /\ (w_state <$> waits late) = [Resolved]
  /\ synthQueue late = [mkUtterance hello 1 1 1 None (js "en-GB")]
  /\ timers late = [] /\ voiceListeners late = [] /\ cachedVoices late = [].
Proof. vm_compute. repeat split. Qed.

(** * Further properties of the module *)

(** ** Every function is a sequence of primitive actions *)

Section Actions.
Variable d : bool.

Lemma acts_refl s : acts d s s.
Proof. apply rtc_refl. Qed.

Lemma acts_trans s1 s2 s3 : acts d s1 s2 -> acts d s2 s3 -> acts d s1 s3.
Proof. apply rtc_trans. Qed.

Lemma acts_once s s' : act d s s' -> acts d s s'.
Proof. apply rtc_once. Qed.

Lemma acts_updateVoices s : acts d s (updateVoices s).
Proof.
  unfold updateVoices. destruct (nonEmpty (synthVoices s)) eqn:E.
  - apply acts_once, act_cache, E.
  - apply acts_refl.
Qed.

Lemma acts_preloadVoices s : acts d s (preloadVoices s).
Proof.
  unfold preloadVoices.
  eapply acts_trans; [apply acts_updateVoices|].
  destruct (onvoiceschanged (updateVoices s)) eqn:E;
    [apply acts_refl | apply acts_once, act_install; congruence..].
Qed.

Lemma acts_unlockAudio s : acts d s (unlockAudio s).
Proof.
  unfold unlockAudio.
  eapply acts_trans; [apply acts_once, act_resume|].
  apply acts_once, act_speak, spoken_unlock.
Qed.

Lemma acts_waitForVoices k s : acts d s (waitForVoices k s).
Proof.
  unfold waitForVoices.
  destruct (isLoaded s && nonEmpty (cachedVoices s)) eqn:E1.
  - apply acts_once, act_push.
  - destruct (nonEmpty (synthVoices s)) eqn:E2.
    + eapply acts_trans; [apply acts_once, act_cache, E2|].
      apply acts_once, (act_push d k (synthVoices s)).
    + apply acts_once.
      assert (available s = None) as A
        by (unfold available; rewrite E1, E2; reflexivity).
      exact (act_register d k s A).
Qed.

Lemma acts_speakLoop n u s : spoken u -> acts d s (speakLoop n u s).
Proof.
  intros Hu. revert s.
  induction n as [|n IH]; intros s; simpl; [apply acts_refl|].
  eapply acts_trans; [|apply IH]. apply acts_once, act_speak, Hu.
Qed.

Lemma acts_ttsContinue k v s : acts d s (ttsContinue k v s).
Proof.
  unfold ttsContinue.
  eapply acts_trans; [apply acts_speakLoop, spoken_tts|].
  apply acts_once, act_resolve_op.
Qed.

Lemma acts_playTextToSpeech text accent rate repeat s :
  acts d s (playTextToSpeech text accent rate repeat s).
Proof.
  unfold playTextToSpeech.
  destruct (negb (nonEmpty text) || (repeat <=? 0)%Z).
  - apply acts_once, act_new_op.
  - eapply acts_trans; [apply acts_once, (act_new_op d Pending)|].
    eapply acts_trans; [apply acts_once, act_stop|].
    eapply acts_trans; [apply acts_once, act_resume|].
    apply acts_waitForVoices.
Qed.

(** The code awaiting element [a], resumed in a state where [a] still
    carries it. *)
Lemma acts_resume a el outcome s :
  audios s !! a = Some el -> acts d s (resume (a_waiter el) outcome s).
Proof.
  intros Hel. destruct (a_waiter el) eqn:W, outcome; simpl;
    try apply acts_refl; try (apply acts_once, act_resolve_op).
  - eapply acts_trans; [apply acts_once, act_log|].
    eapply acts_trans; [apply acts_playTextToSpeech|].
    apply acts_once, act_resolve_op.
  - eapply acts_trans; [apply acts_once, act_log|].
    unfold sentenceLookup. destruct (encodeURIComponent text).
    + apply acts_once. eapply (act_play_inherit d _ _ _ _ _ _ a el);
        [exact Hel | exact W].
    + apply acts_once. eapply (act_reject_inherit d _ _ _ _ a el);
        [exact Hel | exact W].
  - eapply acts_trans; [apply acts_playTextToSpeech|].
    apply acts_once, act_resolve_op.
Qed.

Lemma acts_settle a outcome s :
  currentAudio s <> Some a -> outcome <> Pending ->
  acts d s (settle a outcome s).
Proof.
  intros Hc Ho. unfold settle.
  destruct (audios s !! a) as [el|] eqn:E; [|apply acts_refl].
  destruct (a_promise el) eqn:P; try apply acts_refl.
  eapply acts_trans;
    [apply acts_once, (act_settle d a outcome);
     [exact Hc | rewrite E; simpl; congruence | exact Ho]|].
  apply (acts_resume a (with_promise outcome el)).
  wsimpl. rewrite list_lookup_alter_eq, E. reflexivity.
Qed.

Lemma clearIfCurrent_not_current a s :
  currentAudio (clearIfCurrent a s) <> Some a.
Proof.
  unfold clearIfCurrent. destruct (decide (currentAudio s = Some a)); wsimpl;
    congruence.
Qed.

Lemma acts_handler f a outcome s :
  is_mark f -> outcome <> Pending ->
  acts d s (settle a outcome (clearIfCurrent a (update_audio f a s))).
Proof.
  intros Hf Ho.
  eapply acts_trans; [apply acts_once, act_mark, Hf|].
  eapply acts_trans; [apply acts_once, act_clear|].
  apply acts_settle; [apply clearIfCurrent_not_current | exact Ho].
Qed.

Lemma removeListener_gone w s : w ∉ voiceListeners (removeListener w s).
Proof.
  unfold removeListener. wsimpl. intros H.
  apply list_elem_of_filter in H as [H _]. apply H. reflexivity.
Qed.

Lemma acts_voicesHandler w s : acts d s (voicesHandler w s).
Proof.
  unfold voicesHandler. destruct (nonEmpty (synthVoices s)) eqn:E;
    [|apply acts_refl].
  eapply acts_trans; [apply acts_once, act_cache, E|].
  eapply acts_trans; [apply acts_once, (act_unlisten d w)|].
  apply acts_once, (act_resolve_wait d w (synthVoices s)),
    removeListener_gone.
Qed.

Lemma acts_foldl {B} (f : World -> B -> World) l :
  (forall s b, acts d s (f s b)) -> forall s, acts d s (foldl f s l).
Proof.
  intros Hf. induction l as [|b l IH]; intros s; simpl.
  - apply acts_refl.
  - eapply acts_trans; [apply Hf | apply IH].
Qed.

Lemma acts_fireVoicesChanged s : acts d s (fireVoicesChanged s).
Proof.
  unfold fireVoicesChanged.
  eapply acts_trans;
    [| apply acts_foldl; intros; apply acts_voicesHandler].
  destruct (onvoiceschanged s); auto using acts_refl, acts_updateVoices.
Qed.

Lemma acts_call c s : acts d s (call c s).
Proof.
  destruct c; simpl.
  - apply acts_preloadVoices.
  - apply acts_once, act_stop.
  - apply acts_unlockAudio.
  - apply acts_once, act_play_external.
  - apply acts_playTextToSpeech.
  - unfold playWordAudio. destruct (negb (nonEmpty text)).
    + apply acts_once, act_new_op.
    + destruct (encodeURIComponent text).
      * apply acts_once, act_play_fresh. reflexivity.
      * apply acts_once, act_new_op.
  - unfold playSentenceAudio, sentenceLookup.
    destruct (truthy explicitUrl).
    + apply acts_once, act_play_fresh. reflexivity.
    + destruct (encodeURIComponent text).
      * apply acts_once, act_play_fresh. reflexivity.
      * apply acts_once, act_reject_fresh.
Qed.

Lemma acts_handle e s : acts d s (handle e s).
Proof.
  destruct e; simpl.
  - apply acts_handler; [constructor | discriminate].
  - apply acts_handler; [constructor | discriminate].
  - apply acts_handler; [constructor | discriminate].
  - destruct (audios s !! a) as [el|] eqn:E; [|apply acts_refl].
    destruct (playing el) eqn:P; [|apply acts_refl].
    apply acts_once, (act_time d a t el); assumption.
  - eapply acts_trans; [apply acts_once, act_voices|].
    destruct fire; [apply acts_fireVoicesChanged | apply acts_refl].
  - destruct (timers s) as [|[due w] rest] eqn:E; [apply acts_refl|].
    destruct (due <=? now s)%N eqn:D; [|apply acts_refl].
    eapply acts_trans;
      [apply acts_once, (act_pop_timer d due w rest); [exact E|]|].
    { apply N.leb_le, D. }
    unfold timeoutCallback.
    eapply acts_trans; [apply acts_once, (act_unlisten d w)|].
    apply acts_once, act_resolve_wait, removeListener_gone.
  - apply acts_once, act_tick.
  - destruct (synthPaused s) eqn:E; [apply acts_refl|].
    apply acts_once, act_utterance_end, E.
Qed.

(** An invariant of the actions is an invariant of their sequences. *)
Lemma acts_invariant (P : World -> Prop) s s' :
  (forall t t', act d t t' -> P t -> P t') -> acts d s s' -> P s -> P s'.
Proof. intros HP. induction 1; eauto. Qed.

(** A reflexive and transitive relation that holds of every action holds
    between the ends of their sequences. *)
Lemma acts_relation (R : World -> World -> Prop) s s' :
  (forall t, R t t) -> (forall t1 t2 t3, R t1 t2 -> R t2 t3 -> R t1 t3) ->
  (forall t t', act d t t' -> R t t') -> acts d s s' -> R s s'.
Proof. intros Hr Ht HR. induction 1; eauto. Qed.
End Actions.

Lemma act_weaken d t t' : act false t t' -> act d t t'.
Proof.
  intros H. destruct H; try (econstructor; eassumption); try constructor;
    try assumption.
  discriminate.
Qed.

Lemma acts_drain s : acts true s (drain s).
Proof.
  unfold drain.
  eapply acts_trans; [apply acts_once, act_drain; reflexivity|].
  apply acts_foldl. intros. apply acts_ttsContinue.
Qed.

Lemma acts_step l s : acts true s (step l s).
Proof.
  destruct l; simpl.
  - apply acts_call.
  - eapply acts_trans; [apply acts_drain|].
    eapply acts_trans; [apply acts_handle | apply acts_drain].
  - apply acts_drain.
Qed.

Lemma acts_run ls s : acts true s (run ls s).
Proof.
  revert s. induction ls as [|l ls IH]; intros s; cbn [run foldl].
  - apply acts_refl.
  - eapply acts_trans; [apply acts_step | apply IH].
Qed.

(** What holds at module load and is kept by every action holds in every
    reachable state. *)
Lemma reachable_by_acts (P : World -> Prop) s :
  (forall v o, P (init v o)) ->
  (forall t t', act true t t' -> P t -> P t') ->
  reachable s -> P s.
Proof.
  intros Hi HP (v & o & ls & ->).
  eapply acts_invariant; [exact HP | apply acts_run | apply Hi].
Qed.
(** ** Invariants of the actions *)

(** Case analysis on an action, the compound ones unfolded. *)
Ltac act_cases Ha :=
  destruct Ha;
  unfold playUrl, stopAudio, synth_resume_if_paused, resolveWait,
    clearIfCurrent, removeListener in *;
  repeat match goal with
         | |- context [match ?x with _ => _ end] => destruct x eqn:?
         | |- context [if ?x then _ else _] => destruct x eqn:?
         end;
  wsimpl.

(** What the resumed code may touch is all that [drain] touches. *)
Lemma drain_preserves (P : World -> Prop) s :
  (forall t, P t -> P (set_microtasks [] t)) ->
  (forall u t, P t -> P (synth_speak u t)) ->
  (forall op t, P t -> P (resolve_op op t)) ->
  P s -> P (drain s).
Proof.
  intros Hm Hs Ho H. unfold drain.
  assert (forall n u t, P t -> P (speakLoop n u t)) as Hl.
  { induction n as [|n IH]; intros u t Ht; simpl; auto. }
  generalize (microtasks s). intros l.
  apply Hm in H. revert H. generalize (set_microtasks [] s). clear s.
  induction l as [|[k v] l IH]; intros s H; simpl; [exact H|].
  apply IH. unfold ttsContinue. apply Ho, Hl, H.
Qed.

Lemma drain_cache_frame s :
  cachedVoices (drain s) = cachedVoices s
  /\ onvoiceschanged (drain s) = onvoiceschanged s.
Proof.
  split.
  - apply (drain_preserves (fun t => cachedVoices t = cachedVoices s)); auto.
  - apply (drain_preserves
             (fun t => onvoiceschanged t = onvoiceschanged s)); auto.
Qed.

Lemma act_ovc d t t' :
  act d t t' ->
  (onvoiceschanged t = OvcUpdateVoices -> onvoiceschanged t' = OvcUpdateVoices)
  /\ (onvoiceschanged t = OvcUndefined -> onvoiceschanged t' = OvcUndefined).
Proof. intros Ha. act_cases Ha; split; intros; congruence. Qed.

Lemma preloadVoices_twice s :
  preloadVoices (preloadVoices s) = preloadVoices s.
Proof.
  unfold preloadVoices, updateVoices.
  destruct s as [c l cur v p q o li n co au wa ti no mi op]. wsimpl.
  destruct (nonEmpty v) eqn:E; wsimpl; destruct o; wsimpl; rewrite ?E;
    reflexivity.
Qed.

Lemma preloadVoices_installs s :
  onvoiceschanged s <> OvcUndefined ->
  onvoiceschanged (preloadVoices s) = OvcUpdateVoices.
Proof.
  intros H. unfold preloadVoices, updateVoices.
  destruct (nonEmpty (synthVoices s)); wsimpl;
    destruct (onvoiceschanged s) eqn:E; wsimpl; congruence.
Qed.

Lemma voicesHandlers_cache l :
  forall t, nonEmpty (synthVoices t) = true ->
            cachedVoices t = synthVoices t ->
            cachedVoices (foldl (fun s w => voicesHandler w s) t l)
            = synthVoices t.
Proof.
  intros t Hv Hc. destruct l as [|x l]; [exact Hc|].
  apply (voicesHandlers_resolve (x :: l) t Hv). discriminate.
Qed.

(** [preloadVoices] can be repeated without effect; where the platform has
    the [onvoiceschanged] property its callback stays installed for good,
    so that every later ['voiceschanged'] that finds a non-empty list makes
    that list the cached catalog; where the platform lacks the property the
    module never sets it. *)
Theorem preloadVoices_keeps_cache_fresh :
  (forall s, preloadVoices (preloadVoices s) = preloadVoices s)
  /\ (forall s ls v,
        onvoiceschanged s <> OvcUndefined -> nonEmpty v = true ->
        onvoiceschanged (run ls (preloadVoices s)) = OvcUpdateVoices
        /\ cachedVoices
             (step (LEvent (EvVoices v true)) (run ls (preloadVoices s)))
           = v)
  /\ (forall s ls,
        onvoiceschanged s = OvcUndefined ->
        onvoiceschanged (run ls s) = OvcUndefined).
Proof.
  split; [apply preloadVoices_twice|]. split.
  - intros s ls v Ho Hv.
    assert (onvoiceschanged (run ls (preloadVoices s)) = OvcUpdateVoices)
      as Hi.
    { apply (acts_invariant true
               (fun t => onvoiceschanged t = OvcUpdateVoices)
               (preloadVoices s)).
      - intros t t' Ha. apply (act_ovc _ _ _ Ha).
      - apply acts_run.
      - apply preloadVoices_installs, Ho. }
    split; [exact Hi|].
    set (t := run ls (preloadVoices s)) in *.
    cbn [step handle].
    destruct (drain_cache_frame t) as [_ Hd].
    destruct (drain_cache_frame
                (fireVoicesChanged (set_synthVoices v (drain t))))
      as [-> _].
    unfold fireVoicesChanged. wsimpl. rewrite Hd, Hi.
    unfold updateVoices. wsimpl. rewrite Hv.
    rewrite voicesHandlers_cache; [reflexivity | exact Hv | reflexivity].
  - intros s ls Ho.
    apply (acts_invariant true
             (fun t => onvoiceschanged t = OvcUndefined) s).
    + intros t t' Ha. apply (act_ovc _ _ _ Ha).
    + apply acts_run.
    + exact Ho.
Qed.

Lemma preloadVoices_keeps_cache_fresh_witness :
  cachedVoices
    (step (LEvent (EvVoices [voiceGB; voiceUS] true))
       (run [LCall (CPlayTextToSpeech hello US 1 1); LYield]
          (preloadVoices (init [voiceUS] OvcNull))))
  = [voiceGB; voiceUS].
Proof.
  apply (proj1 (proj2 preloadVoices_keeps_cache_fresh)
           (init [voiceUS] OvcNull)
           [LCall (CPlayTextToSpeech hello US 1 1); LYield]
           [voiceGB; voiceUS]).
  - discriminate.
  - reflexivity.
Defined.

(** *** Utterances *)

Lemma langTag_english accent : startsWith (langTagOf accent) (js "en") = true.
Proof. destruct accent; reflexivity. Qed.

Lemma targetVoice_english voices accent v :
  targetVoice voices (langTagOf accent) = Some v ->
  startsWith (lang v) (js "en") = true.
Proof.
  intros H. pose proof (targetVoice_spec voices (langTagOf accent)) as S.
  rewrite H in S. destruct S as [(l1 & l2 & _ & Hv & _)|[_ (l1 & l2 & _ & Hv & _)]].
  - unfold hasLang in Hv. apply bool_decide_eq_true in Hv. rewrite Hv.
    apply langTag_english.
  - exact Hv.
Qed.

Lemma spoken_ok u : spoken u -> speech_ok u.
Proof.
  intros [|text rate voices accent].
  - repeat split; try discriminate. right. split; reflexivity.
  - destruct (targetVoice voices (langTagOf accent)) as [v|] eqn:E; simpl.
    + repeat split; try apply safeRate_bounds.
      * intros v' [= <-]. reflexivity.
      * left. simpl. eapply targetVoice_english, E.
    + repeat split; try apply safeRate_bounds.
      * discriminate.
      * left. simpl. apply langTag_english.
Qed.

Lemma act_speech d t t' :
  act d t t' -> Forall speech_ok (synthQueue t) ->
  Forall speech_ok (synthQueue t').
Proof.
  intros Ha H. act_cases Ha; auto using Forall_nil_2.
  - apply Forall_app. split; [exact H|].
    apply Forall_singleton, spoken_ok. assumption.
  - destruct (synthQueue s) as [|u q]; [exact H|].
    apply Forall_cons in H as [_ H]. exact H.
Qed.

(** Whatever calls and events came before, every utterance in the speech
    queue has a rate within [0.1, 10] and pitch 1, carries the language of
    its voice when it has one, and is tagged English unless it is the
    silent utterance of [unlockAudio]. *)
Theorem speech_queue_well_formed (s : World) (Hs : reachable s) :
  Forall speech_ok (synthQueue s).
Proof.
  revert Hs.
  apply (reachable_by_acts (fun t => Forall speech_ok (synthQueue t))).
  - intros v o. apply Forall_nil_2.
  - apply act_speech.
Qed.

Lemma speech_queue_well_formed_witness :
  let s := run [LCall CUnlockAudio;
                LCall (CPlayTextToSpeech hello UK (1 # 20) 2); LYield]
             (init [voiceFR; voiceUS] OvcNull) in
  length (synthQueue s) = 2%nat /\ Forall speech_ok (synthQueue s).
Proof.
  split; [reflexivity|].
  apply speech_queue_well_formed. eexists _, _, _. reflexivity.
Defined.

(** *** The tracked handle *)





(** *** Playback is announced *)

Lemma announced_refl s : announced s s.
Proof. split; [lia|]. intros _ i el Hi Hp. eauto. Qed.

Lemma announced_trans s1 s2 s3 :
  announced s1 s2 -> announced s2 s3 -> announced s1 s3.
Proof.
  intros [L1 H1] [L2 H2]. split; [lia|].
  intros E i el Hi Hp.
  destruct (H2 ltac:(lia) i el Hi Hp) as (el2 & Hi2 & Hp2).
  apply (H1 ltac:(lia) i el2 Hi2 Hp2).
Qed.

Lemma announced_same s s' :
  stopSignals s' = stopSignals s -> audios s' = audios s -> announced s s'.
Proof.
  intros E A. split; [lia|]. intros _ i el. rewrite A. eauto.
Qed.

Lemma announced_signal s s' :
  stopSignals s' = S (stopSignals s) -> announced s s'.
Proof. intros E. split; lia. Qed.

Lemma announced_update f a s :
  (forall el, playing (f el) = true -> playing el = true) ->
  announced s (update_audio f a s).
Proof.
  intros Hf. split; [reflexivity|]. wsimpl. intros _ i el' Hi Hp.
  destruct (decide (a = i)) as [->|Hne].
  - rewrite list_lookup_alter_eq in Hi.
    destruct (audios s !! i) as [el|]; [|discriminate].
    injection Hi as <-. eauto.
  - rewrite list_lookup_alter_ne in Hi by exact Hne. eauto.
Qed.

Lemma mark_stops f el : is_mark f -> playing (f el) = false.
Proof.
  intros []; destruct el as [src r [] [] [] ti p w]; reflexivity.
Qed.

Lemma act_announced d t t' : act d t t' -> announced t t'.
Proof.
  intros Ha. destruct Ha;
    try (apply announced_same; reflexivity);
    try (apply announced_signal; rewrite playUrl_stopSignals; reflexivity).
  - apply announced_signal, stopAudio_stopSignals.
  - unfold synth_resume_if_paused. destruct (synthPaused s);
      apply announced_same; reflexivity.
  - apply announced_same; [|apply resolveWait_audios].
    unfold resolveWait. destruct (waits s !! w) as [[[] k]|]; reflexivity.
  - apply announced_update. intros el. rewrite (mark_stops f el H).
    discriminate.
  - apply announced_same; [|apply clearIfCurrent_audios].
    unfold clearIfCurrent. destruct (decide _); reflexivity.
  - apply announced_update. intros el. rewrite playing_with_promise. auto.
  - apply announced_update. intros el0. rewrite playing_with_currentTime.
    auto.
Qed.
Lemma act_audios_bound d t t' :
  act d t t' -> (length (audios t) <= stopSignals t)%nat ->
  (length (audios t') <= stopSignals t')%nat.
Proof.
  intros Ha H. destruct Ha;
    try (rewrite playUrl_length, playUrl_stopSignals; wsimpl; lia);
    wsimpl; rewrite ?length_alter; try exact H.
  - rewrite stopAudio_length, stopAudio_stopSignals. lia.
  - unfold synth_resume_if_paused. destruct (synthPaused s); exact H.
  - rewrite resolveWait_audios.
    unfold resolveWait. destruct (waits s !! w) as [[[] k]|]; exact H.
  - unfold clearIfCurrent. destruct (decide _); exact H.
Qed.

(** An element begins to play only in a step that dispatches the Stop
    Signal: between two states of a run with the same count of dispatched
    signals no element has begun to play, so a module that was silent is
    silent still; and no more elements exist than signals were
    dispatched. *)
Theorem playback_is_announced :
  (forall ls s, announced s (run ls s))
  /\ (forall ls s, stopSignals (run ls s) = stopSignals s ->
                   silent s -> silent (run ls s))
  /\ (forall s, reachable s -> (length (audios s) <= stopSignals s)%nat).
Proof.
  assert (forall ls s, announced s (run ls s)) as H.
  { intros ls s. apply (acts_relation true announced).
    - apply announced_refl.
    - apply announced_trans.
    - apply act_announced.
    - apply acts_run. }
  split; [exact H|]. split.
  - intros ls s E Hs i el Hi.
    destruct (playing el) eqn:Hp; [|reflexivity].
    destruct (H ls s) as [_ Hsub].
    destruct (Hsub E i el Hi Hp) as (el0 & Hi0 & Hp0).
    rewrite (Hs i el0 Hi0) in Hp0. discriminate.
  - intros s.
    apply (reachable_by_acts
             (fun t => (length (audios t) <= stopSignals t)%nat)).
    + intros v o. simpl. lia.
    + apply act_audios_bound.
Qed.

Lemma playback_is_announced_witness :
  let s := run [LCall CPreloadVoices; LCall (CPlayTextToSpeech [] US 1 1);
                LEvent (EvTick 5); LCall CUnlockAudio]
             (init [voiceUS] OvcNull) in
  stopSignals s = 0%nat /\ silent s.
Proof.
  split; [reflexivity|].
  apply (proj1 (proj2 playback_is_announced)); [reflexivity|].
  intros i el Hi. discriminate.
Defined.

(** *** Listeners and timers of [waitForVoices] *)

Lemma wait_is_frame w k st s s' :
  waits s' = waits s -> wait_is w k st s -> wait_is w k st s'.
Proof. unfold wait_is. intros ->. auto. Qed.

Lemma listeners_live_frame s s' :
  voiceListeners s' = voiceListeners s -> waits s' = waits s ->
  listeners_live s -> listeners_live s'.
Proof. unfold listeners_live, wait_is. intros -> ->. auto. Qed.

Lemma act_listeners_live d t t' :
  act d t t' -> listeners_live t -> listeners_live t'.
Proof.
  intros Ha H.
  destruct Ha;
    try (revert H; apply listeners_live_frame;
         unfold playUrl, stopAudio, synth_resume_if_paused, clearIfCurrent;
         wsimpl;
         repeat match goal with
                | |- context [match ?x with _ => _ end] => destruct x
                | |- context [if ?x then _ else _] => destruct x
                end;
         reflexivity).
  - destruct H as [Hn Hl]. unfold listeners_live, wait_is. wsimpl. split.
    + apply NoDup_app. split; [exact Hn|]. split; [|apply NoDup_singleton].
      intros w Hw Hw'. apply list_elem_of_singleton in Hw'. subst w.
      destruct (Hl _ Hw) as (k' & Hk). apply lookup_lt_Some in Hk. lia.
    + intros w Hw. apply elem_of_app in Hw as [Hw|Hw].
      * destruct (Hl w Hw) as (k' & Hk). exists k'.
        apply lookup_app_l_Some, Hk.
      * apply list_elem_of_singleton in Hw. subst w. exists k.
        apply list_lookup_middle. reflexivity.
  - destruct H as [Hn Hl]. unfold listeners_live, removeListener, wait_is.
    wsimpl. split; [apply NoDup_filter, Hn|].
    intros w' Hw'. apply list_elem_of_filter in Hw' as [_ Hw'].
    exact (Hl w' Hw').
  - destruct H as [Hn Hl].
    destruct (resolveWait_frame w v s) as (_ & _ & _ & L & _).
    unfold listeners_live. rewrite L. split; [exact Hn|].
    intros w' Hw'. destruct (Hl w' Hw') as (k & Hk). exists k.
    pose proof (resolveWait_other w' w v k Pending s Hk) as Hr.
    destruct (decide (w = w')) as [->|]; [contradiction | exact Hr].
Qed.

Lemma move_timers_cover okText okVoices s s' :
  move okText okVoices s s' -> timers_cover s -> timers_cover s'.
Proof.
  unfold timers_cover, wait_is. intros Hm H.
  destruct_move Hm; wsimpl; try exact H.
  - destruct HframeM as (_&_&_&_& -> & -> &_). exact H.
  - intros w k Hw. apply lookup_app_Some in Hw as [Hw|[Hge Hw]].
    + destruct (H w k Hw) as (due & Hd). exists due.
      apply elem_of_app. left. exact Hd.
    + apply list_lookup_singleton_Some in Hw as [E _].
      exists (now s + 2000)%N. apply elem_of_app. right.
      apply list_elem_of_singleton. f_equal. lia.
  - intros w k Hw.
    destruct (resolveWait_frame wM (synthVoices s) (removeListener wM s))
      as (_ & -> & _).
    apply resolveWait_pending_inv in Hw as [Hw _]. apply (H w k Hw).
  - intros w k Hw. unfold timeoutCallback in *.
    destruct (resolveWait_frame wM
                (synthVoices (removeListener wM (set_timers restM s)))
                (removeListener wM (set_timers restM s)))
      as (_ & -> & _).
    apply resolveWait_pending_inv in Hw as [Hw Hne]. wsimpl.
    destruct (H w k Hw) as (due & Hd). exists due.
    rewrite HtimersM in Hd. apply elem_of_cons in Hd as [Hd|Hd]; [|exact Hd].
    injection Hd as _ ->. contradiction.
Qed.

(** In every reachable state the ['voiceschanged'] listeners are exactly
    the pending waits, each listed once, and every pending wait has a timer
    queued that is due within 2000 ms: a wait that has been resolved, by
    the notification or by its timer, leaves no listener behind. *)
Theorem waits_hold_no_stale_listener (s : World) (Hs : reachable s) :
  NoDup (voiceListeners s)
  /\ (forall w, w ∈ voiceListeners s <-> exists k, wait_is w k Pending s)
  /\ (forall w k, wait_is w k Pending s ->
                  exists due, (due, w) ∈ timers s /\ (due <= now s + 2000)%N)
  /\ (forall w k, wait_is w k Resolved s -> w ∉ voiceListeners s).
Proof.
  assert (listeners_live s) as [Hn Hl].
  { revert Hs. apply (reachable_by_acts listeners_live).
    - intros v o. split; [apply NoDup_nil_2|].
      intros w Hw. apply elem_of_nil in Hw. contradiction.
    - apply act_listeners_live. }
  assert (listening s) as Hp.
  { revert Hs. apply reachable_invariant.
    - intros v o. apply init_timers_ok.
    - intros t t'. apply move_listening. }
  assert (timers_cover s) as Hc.
  { revert Hs. apply reachable_invariant.
    - intros v o w k Hw. destruct w; discriminate.
    - intros t t'. apply move_timers_cover. }
  assert (timers_near s) as Hnear.
  { revert Hs. apply reachable_invariant.
    - intros v o. apply init_timers_ok.
    - intros t t'. apply move_timers_near. }
  split; [exact Hn|]. split; [|split].
  - intros w. split; [apply Hl|]. intros (k & Hk). apply (Hp w k Hk).
  - intros w k Hw. destruct (Hc w k Hw) as (due & Hd). exists due.
    split; [exact Hd|]. unfold timers_near in Hnear.
    rewrite Forall_forall in Hnear. apply (Hnear _ Hd).
  - intros w k Hw Hin. destruct (Hl w Hin) as (k' & Hk').
    unfold wait_is in *. congruence.
Qed.

Lemma waits_hold_no_stale_listener_witness :
  let s := run [LCall (CPlayTextToSpeech hello US 1 1);
                LCall (CPlayTextToSpeech hello UK 1 1);
                LEvent (EvTick 2000); LEvent EvTimer]
             (init [] OvcNull) in
  voiceListeners s = [1%nat]
  /\ (forall w, w ∈ voiceListeners s <-> exists k, wait_is w k Pending s).
Proof.
  split; [reflexivity|].
  apply waits_hold_no_stale_listener. eexists _, _, _. reflexivity.
Defined.
(** *** The promise of [playTextToSpeech] *)

Lemma waiters_stopAudio s : waiters (stopAudio s) = waiters s.
Proof.
  unfold waiters. rewrite stopAudio_audios.
  destruct (currentAudio s); [|reflexivity].
  apply fmap_waiter_alter. reflexivity.
Qed.

Lemma waiters_playUrl url r w s :
  waiters (playUrl url r w s) = waiters s ++ [w].
Proof.
  unfold waiters. rewrite playUrl_audios, fmap_app.
  fold (waiters (stopAudio s)). rewrite waiters_stopAudio. reflexivity.
Qed.

Lemma waiters_update f a s :
  (forall el, a_waiter (f el) = a_waiter el) ->
  waiters (update_audio f a s) = waiters s.
Proof. intros Hf. unfold waiters. wsimpl. apply fmap_waiter_alter, Hf. Qed.

Lemma waiters_elem a el s :
  audios s !! a = Some el -> a_waiter el ∈ waiters s.
Proof.
  intros H. unfold waiters. apply list_elem_of_fmap. exists el.
  split; [reflexivity|]. eapply list_elem_of_lookup_2, H.
Qed.

(** What an action does to the waiters and to the number of promises. *)
Lemma act_waiters d t t' :
  act d t t' ->
  (length (ops t) <= length (ops t'))%nat
  /\ (waiters t' = waiters t
      \/ (exists w, waiters t' = waiters t ++ [w]
                    /\ (waiter_op w = None
                        \/ (waiter_op w = Some (length (ops t))
                            /\ length (ops t') = S (length (ops t)))
                        \/ (exists text accent speed op,
                              w = WSentenceLookup text accent speed op
                              /\ WSentenceExplicit text accent speed op
                                 ∈ waiters t)))).
Proof.
  intros Ha. destruct Ha;
    try (split; [reflexivity | left; reflexivity]).
  - split; [rewrite (proj1 (proj2 (proj2 (proj2 (proj2 (proj2 (proj2
              (proj2 (proj2 (stopAudio_frame s)))))))))); reflexivity|].
    left. apply waiters_stopAudio.
  - split; [rewrite playUrl_ops; reflexivity|]. right. exists WExternal.
    split; [apply waiters_playUrl|]. left. reflexivity.
  - split; [rewrite playUrl_ops; wsimpl; rewrite length_app; lia|].
    right. exists w. split; [rewrite waiters_playUrl; reflexivity|].
    right. left.
    split; [assumption|]. rewrite playUrl_ops. wsimpl.
    rewrite length_app. simpl. lia.
  - split; [rewrite playUrl_ops; reflexivity|]. right.
    exists (WSentenceLookup text accent speed op).
    split; [apply waiters_playUrl|]. right. right.
    exists text, accent, speed, op. split; [reflexivity|].
    rewrite <- H0. eapply waiters_elem, H.
  - split; [|left]; unfold synth_resume_if_paused;
      destruct (synthPaused s); reflexivity.
  - split; [rewrite resolveWait_ops; reflexivity|]. left.
    unfold waiters. rewrite resolveWait_audios. reflexivity.
  - split; [|left; reflexivity]. wsimpl. rewrite length_app. lia.
  - split; [|left; reflexivity]. wsimpl. rewrite length_insert. lia.
  - split; [|left; reflexivity]. wsimpl.
    rewrite length_insert, length_app. lia.
  - split; [|left; reflexivity]. wsimpl. rewrite length_insert. lia.
  - split; [reflexivity|]. left. apply waiters_update. destruct H; reflexivity.
  - split; [|left]; unfold clearIfCurrent; destruct (decide _); reflexivity.
  - split; [reflexivity|]. left. apply waiters_update. reflexivity.
  - split; [reflexivity|]. left. apply waiters_update. reflexivity.
Qed.

Lemma act_waiter_bound d t t' :
  act d t t' -> waiter_bound t -> waiter_bound t'.
Proof.
  intros Ha H. destruct (act_waiters d t t' Ha) as [Hl [E|(w & E & Hw)]];
    intros w' op; rewrite E.
  - intros Hin Ho. specialize (H w' op Hin Ho). lia.
  - intros Hin Ho. apply elem_of_app in Hin as [Hin|Hin].
    + specialize (H w' op Hin Ho). lia.
    + apply list_elem_of_singleton in Hin. subst w'.
      destruct Hw as [Hw|[[Hw Hw']|(te & ac & sp & op' & -> & Hw)]].
      * congruence.
      * rewrite Hw in Ho. injection Ho as <-. lia.
      * simpl in Ho. injection Ho as <-.
        specialize (H _ op' Hw eq_refl). lia.
Qed.

Lemma act_op_unshared d op t t' :
  act d t t' -> op_unshared op t -> op_unshared op t'.
Proof.
  intros Ha [Hlt H]. destruct (act_waiters d t t' Ha) as [Hl [E|(w & E & Hw)]];
    (split; [lia|]); intros te ac sp; rewrite E; [apply H|].
  intros Hin. apply elem_of_app in Hin as [Hin|Hin]; [eapply H, Hin|].
  apply list_elem_of_singleton in Hin. subst w.
  destruct Hw as [Hw|[[Hw _]|(te' & ac' & sp' & op' & Hw & _)]].
  - discriminate.
  - simpl in Hw. injection Hw as ->. lia.
  - discriminate.
Qed.

Lemma lookup_insert_Resolved (l : list PState) i j :
  l !! j = Some Resolved -> <[i := Resolved]> l !! j = Some Resolved.
Proof.
  intros H. destruct (decide (i = j)) as [->|Hne].
  - apply list_lookup_insert_eq. eapply lookup_lt_Some, H.
  - rewrite list_lookup_insert_ne by exact Hne. exact H.
Qed.

(** A resolved promise that no code awaiting an explicit URL holds stays
    resolved. *)
Lemma act_stays_resolved d op t t' :
  act d t t' -> op_unshared op t -> ops t !! op = Some Resolved ->
  ops t' !! op = Some Resolved.
Proof.
  intros Ha [Hlt Hu] H. destruct Ha;
    try exact H; try (rewrite playUrl_ops; wsimpl);
    try (rewrite lookup_app_l by exact Hlt);
    try exact H.
  - rewrite (proj1 (proj2 (proj2 (proj2 (proj2 (proj2 (proj2
              (proj2 (proj2 (stopAudio_frame s)))))))))). exact H.
  - unfold synth_resume_if_paused. destruct (synthPaused s); exact H.
  - rewrite resolveWait_ops. exact H.
  - wsimpl. apply lookup_app_l_Some, H.
  - wsimpl. apply lookup_insert_Resolved, H.
  - wsimpl. rewrite list_lookup_insert_ne by lia.
    apply lookup_app_l_Some, H.
  - wsimpl. rewrite list_lookup_insert_ne; [exact H|].
    intros ->. apply (Hu text accent speed).
    rewrite <- H1. eapply waiters_elem, H0.
  - unfold clearIfCurrent. destruct (decide _); exact H.
Qed.
(** A promise that no code awaiting an explicit URL holds is never
    rejected. *)
Lemma act_not_rejected d op t t' :
  act d t t' -> op_unshared op t -> ops t !! op <> Some Rejected ->
  ops t' !! op <> Some Rejected.
Proof.
  intros Ha [Hlt Hu] H. destruct Ha;
    try exact H; try (rewrite playUrl_ops; wsimpl);
    try (rewrite lookup_app_l by exact Hlt);
    try exact H.
  - rewrite (proj1 (proj2 (proj2 (proj2 (proj2 (proj2 (proj2
              (proj2 (proj2 (stopAudio_frame s)))))))))). exact H.
  - unfold synth_resume_if_paused. destruct (synthPaused s); exact H.
  - rewrite resolveWait_ops. exact H.
  - wsimpl. rewrite lookup_app_l by exact Hlt. exact H.
  - wsimpl. destruct (decide (op0 = op)) as [->|Hne].
    + rewrite list_lookup_insert_eq by exact Hlt. discriminate.
    + rewrite list_lookup_insert_ne by exact Hne. exact H.
  - wsimpl. rewrite list_lookup_insert_ne by lia.
    rewrite lookup_app_l by exact Hlt. exact H.
  - wsimpl. rewrite list_lookup_insert_ne; [exact H|].
    intros ->. apply (Hu text accent speed).
    rewrite <- H1. eapply waiters_elem, H0.
  - unfold clearIfCurrent. destruct (decide _); exact H.
Qed.

Lemma acts_stay_resolved d op t t' :
  acts d t t' -> op_unshared op t -> ops t !! op = Some Resolved ->
  op_unshared op t' /\ ops t' !! op = Some Resolved.
Proof.
  intros Ha Hu Hr.
  apply (acts_invariant d
           (fun x => op_unshared op x /\ ops x !! op = Some Resolved) t);
    [|exact Ha | split; assumption].
  intros x x' Hx [Hu' Hr']. split.
  - eapply act_op_unshared; eassumption.
  - eapply act_stays_resolved; eassumption.
Qed.

Lemma acts_op_unshared d op t t' :
  acts d t t' -> op_unshared op t -> op_unshared op t'.
Proof.
  intros Ha. apply (acts_invariant d (op_unshared op) t); [|exact Ha].
  intros x x'. apply act_op_unshared.
Qed.

(** Calls and handlers only add microtasks. *)
Lemma act_microtasks t t' m :
  act false t t' -> m ∈ microtasks t -> m ∈ microtasks t'.
Proof.
  intros Ha H. destruct Ha;
    try exact H;
    try (rewrite (proj1 (playUrl_frame _ _ _ _)); exact H).
  - rewrite (proj1 (stopAudio_frame s)). exact H.
  - unfold synth_resume_if_paused. destruct (synthPaused s); exact H.
  - wsimpl. apply elem_of_app. left. exact H.
  - rewrite resolveWait_microtasks.
    destruct (waits s !! w) as [[[] k]|]; try exact H.
    apply elem_of_app. left. exact H.
  - unfold clearIfCurrent. destruct (decide _); exact H.
  - discriminate.
Qed.

(** A pending wait stays pending until it is resolved, which queues the
    code that awaits it. *)
Lemma act_wait_step d w k t t' :
  act d t t' -> wait_is w k Pending t ->
  wait_is w k Pending t' \/ exists v, (k, v) ∈ microtasks t'.
Proof.
  intros Ha H. destruct Ha;
    try (left; exact H);
    try (left; revert H; apply wait_is_frame;
         rewrite (proj1 (proj2 (playUrl_frame _ _ _ _))); reflexivity).
  - left. revert H. apply wait_is_frame.
    rewrite (proj1 (proj2 (proj2 (proj2 (proj2 (stopAudio_frame s)))))).
    reflexivity.
  - left. unfold synth_resume_if_paused. destruct (synthPaused s); exact H.
  - left. unfold wait_is in *. wsimpl. apply lookup_app_l_Some, H.
  - destruct (decide (w0 = w)) as [->|Hne].
    + right. exists v. rewrite resolveWait_microtasks.
      unfold wait_is in H. rewrite H. apply elem_of_app. right.
      apply list_elem_of_singleton. reflexivity.
    + left. pose proof (resolveWait_other w w0 v k Pending s H) as Hr.
      destruct (decide (w0 = w)); [contradiction | exact Hr].
  - left. unfold clearIfCurrent. destruct (decide _); exact H.
Qed.

Lemma act_tts_progress k ow t t' :
  act false t t' -> op_unshared (k_op k) t ->
  tts_progress k ow t -> tts_progress k ow t'.
Proof.
  intros Ha Hu [H|[(v & H)|(w & -> & H)]].
  - left. eapply act_stays_resolved; eassumption.
  - right. left. exists v. eapply act_microtasks; eassumption.
  - destruct (act_wait_step false w k t t' Ha H) as [H'|H'].
    + right. right. exists w. auto.
    + right. left. exact H'.
Qed.

Lemma acts_tts_progress k ow t t' :
  acts false t t' -> op_unshared (k_op k) t -> tts_progress k ow t ->
  op_unshared (k_op k) t' /\ tts_progress k ow t'.
Proof.
  intros Ha Hu Hp.
  apply (acts_invariant false
           (fun x => op_unshared (k_op k) x /\ tts_progress k ow x) t);
    [|exact Ha | split; assumption].
  intros x x' Hx [Hu' Hp']. split.
  - eapply act_op_unshared; eassumption.
  - eapply act_tts_progress; eassumption.
Qed.

(** Running the microtasks resolves the promise of every queued
    continuation of [playTextToSpeech]. *)
Lemma drain_resolves k v s :
  (k_op k < length (ops s))%nat -> (k, v) ∈ microtasks s ->
  ops (drain s) !! k_op k = Some Resolved.
Proof.
  intros Hlt Hin. unfold drain.
  assert (forall l t,
             (k_op k < length (ops t))%nat ->
             (k, v) ∈ l \/ ops t !! k_op k = Some Resolved ->
             ops (foldl (fun s m => ttsContinue (fst m) (snd m) s) t l)
               !! k_op k = Some Resolved) as H.
  { induction l as [|[k' v'] l IH]; intros t Ht Hc; cbn [foldl].
    - destruct Hc as [Hc|Hc]; [|exact Hc].
      apply elem_of_nil in Hc. contradiction.
    - apply IH.
      + cbn [fst snd]. rewrite ttsContinue_ops, length_insert. exact Ht.
      + cbn [fst snd]. rewrite ttsContinue_ops.
        destruct Hc as [Hc|Hc].
        * apply elem_of_cons in Hc as [Hc|Hc]; [|left; exact Hc].
          injection Hc as <- <-. right.
          apply list_lookup_insert_eq. exact Ht.
        * right. apply lookup_insert_Resolved, Hc. }
  apply H; [exact Hlt | left; exact Hin].
Qed.

Lemma drain_tts_progress k ow t :
  op_unshared (k_op k) t -> tts_progress k ow t ->
  op_unshared (k_op k) (drain t)
  /\ (ops (drain t) !! k_op k = Some Resolved
      \/ exists w, ow = Some w /\ wait_is w k Pending (drain t)).
Proof.
  intros Hu Hp. split; [eapply acts_op_unshared; [apply acts_drain|exact Hu]|].
  destruct Hp as [H|[(v & H)|(w & -> & H)]].
  - left. eapply acts_stay_resolved; [apply acts_drain | exact Hu | exact H].
  - left. eapply drain_resolves; [apply Hu | exact H].
  - right. exists w. split; [reflexivity|]. apply wait_is_drain, H.
Qed.

Lemma step_tts_progress k ow l t :
  op_unshared (k_op k) t -> tts_progress k ow t ->
  op_unshared (k_op k) (step l t) /\ tts_progress k ow (step l t).
Proof.
  intros Hu Hp.
  assert (forall x, op_unshared (k_op k) x -> tts_progress k ow x ->
                    op_unshared (k_op k) (drain x)
                    /\ tts_progress k ow (drain x)) as Hd.
  { intros x Hx Hpx. destruct (drain_tts_progress k ow x Hx Hpx) as [H1 H2].
    split; [exact H1|].
    destruct H2 as [H2|H2]; [left | right; right]; exact H2. }
  destruct l as [c|e|]; cbn [step].
  - apply (acts_tts_progress k ow t); [apply acts_call | exact Hu | exact Hp].
  - destruct (Hd t Hu Hp) as [Hu1 Hp1].
    destruct (acts_tts_progress k ow (drain t) (handle e (drain t))
                (acts_handle false e (drain t)) Hu1 Hp1) as [Hu2 Hp2].
    apply Hd; assumption.
  - apply Hd; assumption.
Qed.

Lemma run_tts_progress k ow ls t :
  op_unshared (k_op k) t -> tts_progress k ow t ->
  op_unshared (k_op k) (run ls t) /\ tts_progress k ow (run ls t).
Proof.
  revert t. induction ls as [|l ls IH]; intros t Hu Hp; cbn [run foldl].
  - split; assumption.
  - destruct (step_tts_progress k ow l t Hu Hp) as [Hu' Hp'].
    apply IH; assumption.
Qed.

Lemma run_stay_resolved op ls t :
  op_unshared op t -> ops t !! op = Some Resolved ->
  ops (run ls t) !! op = Some Resolved.
Proof.
  intros Hu Hr. eapply acts_stay_resolved; [apply acts_run | exact Hu | exact Hr].
Qed.

Lemma timer_events_S n : timer_events (S n) = timer_events n ++ [LEvent EvTimer].
Proof. unfold timer_events. simpl. apply replicate_cons_app. Qed.

Lemma reachable_waiter_bound s : reachable s -> waiter_bound s.
Proof.
  apply (reachable_by_acts waiter_bound).
  - intros v o w op Hw. apply elem_of_nil in Hw. contradiction.
  - apply act_waiter_bound.
Qed.

Lemma waiters_playTextToSpeech text accent rate repeat s :
  waiters (playTextToSpeech text accent rate repeat s) = waiters s.
Proof.
  unfold playTextToSpeech.
  destruct (negb (nonEmpty text) || (repeat <=? 0)%Z); [reflexivity|].
  unfold waiters at 1.
  destruct (waitForVoices_same_audio
              (mkTtsK text accent rate repeat (length (ops s)))
              (synth_resume_if_paused (stopAudio (new_op Pending s))))
    as [-> _].
  unfold synth_resume_if_paused. destruct (synthPaused _); wsimpl;
    apply (waiters_stopAudio (new_op Pending s)).
Qed.

(** The promise of every [playTextToSpeech] call is resolved, whatever
    calls and events follow it: at once when the guard fires, else as soon
    as the code awaiting the voices has run, which is the case at the
    latest when 2000 ms have passed since the call and the timers that are
    due have fired.  It is never rejected, and once resolved it stays
    resolved. *)
Theorem playTextToSpeech_settles (s : World) (text : jsstring)
    (accent : Accent) (rate : Q) (repeat : Z) (Hs : reachable s) :
  let op := length (ops s) in
  let s' := playTextToSpeech text accent rate repeat s in
  forall ls,
    ops (run ls s') !! op <> Some Rejected
    /\ (ops (run ls s') !! op = Some Resolved ->
        forall ls', ops (run (ls ++ ls') s') !! op = Some Resolved)
    /\ ((now s + 2000 <= now (run ls s'))%N ->
        exists n,
          ops (run (timer_events n) (run ls s')) !! op = Some Resolved).
Proof.
  intros op s' ls.
  set (k := mkTtsK text accent rate repeat op).
  set (s0 := synth_resume_if_paused (stopAudio (new_op Pending s))).
  assert (ops s' = ops s ++ [if negb (nonEmpty text) || (repeat <=? 0)%Z
                             then Resolved else Pending]) as Hops
    by apply playTextToSpeech_ops.
  assert (op_unshared op s') as Hu.
  { split; [rewrite Hops, length_app; simpl; unfold op; lia|].
    intros te ac sp Hin. unfold s' in Hin.
    rewrite waiters_playTextToSpeech in Hin.
    pose proof (reachable_waiter_bound s Hs _ op Hin eq_refl) as Hb.
    unfold op in Hb. lia. }
  assert (forall t, acts true s' t -> op_unshared op t) as Hut.
  { intros t Ht. eapply acts_op_unshared; [exact Ht | exact Hu]. }
  split.
  { apply (acts_invariant true
             (fun x => op_unshared op x /\ ops x !! op <> Some Rejected) s');
      [| apply acts_run |].
    - intros x x' Hx [Hu' Hr']. split.
      + eapply act_op_unshared; eassumption.
      + eapply act_not_rejected; eassumption.
    - split; [exact Hu|]. rewrite Hops.
      rewrite list_lookup_middle by reflexivity.
      destruct (negb (nonEmpty text) || (repeat <=? 0)%Z); discriminate. }
  split.
  { intros Hr ls'. rewrite run_app.
    apply run_stay_resolved; [apply Hut, acts_run | exact Hr]. }
  intros HB.
  (* once the code awaiting the voices is queued, a task boundary is enough *)
  assert (forall t, op_unshared op t ->
                    ops t !! op = Some Resolved
                    \/ (exists v, (k, v) ∈ microtasks t) ->
                    ops (step (LEvent EvTimer) t) !! op = Some Resolved)
    as Hone.
  { intros t Ht Hc. cbn [step].
    assert (ops (drain t) !! op = Some Resolved) as Hd.
    { destruct Hc as [Hc|(v & Hc)].
      - eapply acts_stay_resolved; [apply acts_drain | exact Ht | exact Hc].
      - apply (drain_resolves k v t); [apply Ht | exact Hc]. }
    eapply (acts_stay_resolved true op (drain t));
      [ eapply acts_trans; [apply acts_handle | apply acts_drain]
      | eapply acts_op_unshared; [apply acts_drain | exact Ht]
      | exact Hd ]. }
  destruct (negb (nonEmpty text) || (repeat <=? 0)%Z) eqn:G.
  { (* the guard fires *)
    exists 0%nat. cbn [timer_events replicate run foldl].
    apply run_stay_resolved; [exact Hu|].
    rewrite Hops. apply list_lookup_middle. reflexivity. }
  apply orb_false_iff in G as [Gt Gr].
  apply negb_false_iff in Gt. apply Z.leb_gt in Gr.
  assert (s' = waitForVoices k s0) as Es'
    by (apply playTextToSpeech_go; assumption).
  assert (timers s0 = timers s /\ now s0 = now s /\ waits s0 = waits s)
    as (T0 & N0 & W0).
  { unfold s0.
    destruct (synth_resume_frame (stopAudio (new_op Pending s)))
      as (_&_&_&_&_&_&_& -> & -> &_& -> &_).
    destruct (stopAudio_frame (new_op Pending s))
      as (_&_&_&_& -> & -> &_& -> &_).
    auto. }
  destruct (available s0) as [v|] eqn:A.
  - (* voices at hand: the code is queued by the call *)
    assert (tts_progress k None s') as Hp.
    { right. left. exists v. rewrite Es'.
      destruct (waitForVoices_now k v s0 A) as (-> & _).
      apply elem_of_app. right. apply list_elem_of_singleton. reflexivity. }
    destruct (run_tts_progress k None ls s' Hu Hp)
      as [Hu' [Hr|[Hm|(w & [=] & _)]]].
    + exists 0%nat. exact Hr.
    + exists 1%nat. apply Hone; [exact Hu' | right; exact Hm].
  - (* no voices: the call waits behind a listener and a timer *)
    set (w := length (waits s)).
    set (B := (now s + 2000)%N) in *.
    assert (s' = set_timers (timers s0 ++ [(B, w)])
                   (set_voiceListeners (voiceListeners s0 ++ [w])
                      (set_waits (waits s0 ++ [mkWait Pending k]) s0)))
      as Es1.
    { rewrite Es', (waitForVoices_suspend k s0 A), N0, W0. reflexivity. }
    assert (tts_progress k (Some w) s') as Hp.
    { right. right. exists w. split; [reflexivity|].
      rewrite Es1. unfold wait_is. wsimpl. unfold w. rewrite <- W0.
      apply list_lookup_middle. reflexivity. }
    assert (timers_near s) as Hnear.
    { revert Hs. apply reachable_invariant.
      - intros v o. apply init_timers_ok.
      - intros t t'. apply move_timers_near. }
    set (t := run ls s') in *.
    assert ((w < length (waits t))%nat /\ timer_queued w k B t) as [_ Hq].
    { apply (moves_any_invariant
               (fun x => (w < length (waits x))%nat
                         /\ timer_queued w k B x)).
      - intros x x'. apply move_timer_queued.
      - rewrite Es1. unfold timer_queued. wsimpl.
        split; [rewrite length_app, W0; simpl; unfold w; lia|].
        intros _. exists (timers s0), []. split; [reflexivity|].
        rewrite T0. eapply Forall_impl; [exact Hnear|]. simpl.
        intros x Hx. unfold B. exact Hx. }
    destruct (run_tts_progress k (Some w) ls s' Hu Hp)
      as [Hu' [Hr|[Hm|(w' & [= <-] & Hw)]]].
    + exists 0%nat. exact Hr.
    + exists 1%nat. apply Hone; [exact Hu' | right; exact Hm].
    + fold t in Hw, Hu'.
      destruct (Hq Hw) as (pre & post & Ht & Hpre).
      destruct (timers_reach w k B pre post t Ht Hpre HB Hw)
        as (n & due & rest & Hw' & Ht' & Hd').
      exists (S n). rewrite timer_events_S, run_app.
      set (t' := run (timer_events n) t) in *.
      assert (op_unshared op t') as Hu''.
      { eapply acts_op_unshared; [apply acts_run | exact Hu']. }
      cbn [run foldl step].
      destruct (drain_voice_frame t') as (_ & T & N & _).
      assert (wait_is w k Pending (drain t')) as Hwd
        by (apply wait_is_drain; exact Hw').
      destruct (timer_head w k due rest (drain t') Hwd
                  ltac:(rewrite T; exact Ht')) as [Hfire _].
      destruct Hfire as [_ Hm]; [rewrite N; exact Hd'|].
      apply (drain_resolves k (synthVoices (drain t'))); [|exact Hm].
      eapply acts_op_unshared;
        [ eapply acts_trans; [apply acts_drain | apply (acts_handle true)]
        | exact Hu'' ].
Qed.

Lemma playTextToSpeech_settles_witness :
  let s' := playTextToSpeech hello UK 1 2 (init [] OvcNull) in
  exists n,
    ops (run (timer_events n)
           (run [LCall (CPlayUrl (js "a.mp3") 1); LEvent (EvTick 2500)] s'))
      !! 0%nat = Some Resolved.
Proof.
  apply (playTextToSpeech_settles (init [] OvcNull) hello UK 1 2).
  - exists [], OvcNull, []. reflexivity.
  - vm_compute. discriminate.
Defined.
(** ** The lookup URL *)

Ltac dlia := zify; Z.to_euclidean_division_equations; lia.

Lemma encode_cons c rest :
  encodeURIComponent (c :: rest)
  = if isUnescaped c then cons c <$> encodeURIComponent rest
    else if isTrailingSurrogate c then None
    else if isLeadingSurrogate c then
      match rest with
      | d :: rest' =>
          if isTrailingSurrogate d
          then app (percentEncode (utf8 (surrogatePairToCodePoint c d)))
                 <$> encodeURIComponent rest'
          else None
      | [] => None
      end
    else app (percentEncode (utf8 c)) <$> encodeURIComponent rest.
Proof. reflexivity. Qed.

Lemma in_range_spec lo hi c : in_range lo hi c = true <-> lo <= c <= hi.
Proof.
  unfold in_range. rewrite andb_true_iff, !N.leb_le. tauto.
Qed.

Lemma in_range_false lo hi c : in_range lo hi c = false <-> c < lo \/ hi < c.
Proof.
  unfold in_range. rewrite andb_false_iff, !N.leb_gt. tauto.
Qed.

Lemma hexDigit_unescaped d : d < 16 -> isUnescaped (hexDigit d) = true.
Proof.
  intros H.
  assert (d ∈ (N.of_nat <$> seq 0 16)) as Hd.
  { apply list_elem_of_fmap. exists (N.to_nat d). split; [lia|].
    apply elem_of_seq. lia. }
  cbn in Hd. repeat (apply elem_of_cons in Hd as [->|Hd]; [reflexivity|]).
  apply elem_of_nil in Hd. contradiction.
Qed.

Lemma hexDigit_inj d d' :
  d < 16 -> d' < 16 -> hexDigit d = hexDigit d' -> d = d'.
Proof.
  unfold hexDigit. intros H H'.
  destruct (d <? 10) eqn:E, (d' <? 10) eqn:E';
    rewrite ?N.ltb_lt, ?N.ltb_ge in *; lia.
Qed.

Lemma percentEncode_cons b bs :
  percentEncode (b :: bs)
  = 37 :: hexDigit (b / 16) :: hexDigit (b mod 16) :: percentEncode bs.
Proof. reflexivity. Qed.

Lemma percentEncode_safe octets :
  Forall (fun b => b < 256) octets -> Forall urlSafe (percentEncode octets).
Proof.
  induction 1 as [|b bs Hb _ IH]; [constructor|].
  rewrite percentEncode_cons.
  apply Forall_cons. split; [right; reflexivity|].
  apply Forall_cons. split; [left; apply hexDigit_unescaped; dlia|].
  apply Forall_cons. split; [left; apply hexDigit_unescaped; dlia|].
  exact IH.
Qed.

Lemma utf8_octets cp : cp < 0x110000 -> Forall (fun b => b < 256) (utf8 cp).
Proof.
  intros H. unfold utf8.
  destruct (cp <? 0x80) eqn:E1; [|destruct (cp <? 0x800) eqn:E2;
    [|destruct (cp <? 0x10000) eqn:E3]];
    rewrite ?N.ltb_lt, ?N.ltb_ge in *; repeat constructor; dlia.
Qed.

Lemma pair_range lead trail :
  isLeadingSurrogate lead = true -> isTrailingSurrogate trail = true ->
  0x10000 <= surrogatePairToCodePoint lead trail < 0x110000.
Proof.
  unfold isLeadingSurrogate, isTrailingSurrogate, surrogatePairToCodePoint.
  rewrite !in_range_spec. lia.
Qed.

(** One step of [encodeURIComponent]. *)
Lemma encode_head a e :
  codeUnits a -> encodeURIComponent a = Some e ->
  (a = [] /\ e = [])
  \/ (exists c ra ea,
        a = c :: ra /\ isUnescaped c = true /\ e = c :: ea
        /\ encodeURIComponent ra = Some ea)
  \/ (exists u cp ra ea,
        a = u ++ ra /\ escaped_unit u cp /\ cp < 0x110000
        /\ e = percentEncode (utf8 cp) ++ ea
        /\ encodeURIComponent ra = Some ea /\ codeUnits ra
        /\ (length ra < length a)%nat).
Proof.
  intros Hu H. destruct a as [|c rest].
  - left. injection H as <-. auto.
  - right. rewrite encode_cons in H.
    apply Forall_cons in Hu as [Hc Hu].
    destruct (isUnescaped c) eqn:U.
    + left. destruct (encodeURIComponent rest) as [ea|] eqn:E; [|discriminate].
      injection H as <-. exists c, rest, ea. auto.
    + right. destruct (isTrailingSurrogate c) eqn:T; [discriminate|].
      destruct (isLeadingSurrogate c) eqn:L.
      * destruct rest as [|t rest']; [discriminate|].
        destruct (isTrailingSurrogate t) eqn:T'; [|discriminate].
        destruct (encodeURIComponent rest') as [ea|] eqn:E; [|discriminate].
        injection H as <-.
        apply Forall_cons in Hu as [_ Hu].
        exists [c; t], (surrogatePairToCodePoint c t), rest', ea.
        split; [reflexivity|]. split.
        { right. exists c, t. auto. }
        split; [apply pair_range; assumption|].
        split; [reflexivity|]. split; [exact E|].
        split; [exact Hu | simpl; lia].
      * destruct (encodeURIComponent rest) as [ea|] eqn:E; [|discriminate].
        injection H as <-.
        exists [c], c, rest, ea.
        split; [reflexivity|]. split.
        { left. repeat split; auto. }
        split; [lia|].
        split; [reflexivity|]. split; [exact E|].
        split; [exact Hu | simpl; lia].
Qed.

Lemma encode_safe_n n :
  forall a e, (length a <= n)%nat -> codeUnits a ->
              encodeURIComponent a = Some e -> Forall urlSafe e.
Proof.
  induction n as [|n IH]; intros a e Hn Hu H.
  - destruct a; [|simpl in Hn; lia]. injection H as <-. constructor.
  - destruct (encode_head a e Hu H)
      as [[-> ->]|[(c & ra & ea & -> & U & -> & Hr)
                  |(u & cp & ra & ea & -> & _ & Hcp & -> & Hr & Hur & Hl)]].
    + constructor.
    + apply Forall_cons in Hu as [_ Hu]. constructor; [left; exact U|].
      apply (IH ra); [simpl in Hn; lia | exact Hu | exact Hr].
    + apply Forall_app. split.
      * apply percentEncode_safe, utf8_octets, Hcp.
      * apply (IH ra); [lia | exact Hur | exact Hr].
Qed.

Lemma encode_plain s :
  Forall (fun c => isUnescaped c = true) s -> encodeURIComponent s = Some s.
Proof.
  induction 1 as [|c s Hc _ IH]; [reflexivity|].
  rewrite encode_cons, Hc, IH. reflexivity.
Qed.

(** For every text that is a string of code units and that
    [encodeURIComponent] accepts, the encoded text consists of unreserved
    characters and ['%'] only, so that none of [& = # ? / + space] occurs in
    it and the text cannot reach beyond the [audio] parameter of the lookup
    URL; a text of unreserved characters (a plain word) is sent as it
    is. *)
Theorem lookup_url_is_safe (text enc : jsstring) (accent : Accent)
    (Hu : codeUnits text) (He : encodeURIComponent text = Some enc) :
  Forall urlSafe enc
  /\ (forall c, c ∈ [38; 61; 35; 63; 47; 43; 32] -> c ∉ enc)
  /\ (Forall (fun c => isUnescaped c = true) text -> enc = text)
  /\ dictvoiceUrl enc accent
     = js "https://dict.youdao.com/dictvoice?audio=" ++ enc
         ++ js "&type=" ++ match accent with UK => [49] | US => [50] end.
Proof.
  assert (Forall urlSafe enc) as Hs
    by (eapply encode_safe_n; [reflexivity | exact Hu | exact He]).
  split; [exact Hs|]. split; [|split].
  - intros c Hc Hin. rewrite Forall_forall in Hs.
    destruct (Hs c Hin) as [U| ->].
    + repeat (apply elem_of_cons in Hc as [->|Hc]; [discriminate|]).
      apply elem_of_nil in Hc. contradiction.
    + repeat (apply elem_of_cons in Hc as [Hc|Hc]; [discriminate|]).
      apply elem_of_nil in Hc. contradiction.
  - intros Hp. rewrite (encode_plain text Hp) in He. congruence.
  - unfold dictvoiceUrl. destruct accent; reflexivity.
Qed.

Lemma lookup_url_is_safe_witness :
  Forall urlSafe (js "a%26type%3D1") /\ 38 ∉ js "a%26type%3D1".
Proof.
  destruct (lookup_url_is_safe (js "a&type=1") (js "a%26type%3D1") US)
    as (H1 & H2 & _).
  - repeat constructor.
  - reflexivity.
  - split; [exact H1|]. apply H2. left.
Defined.
Lemma escape_inj b b' x y :
  b < 256 -> b' < 256 ->
  37 :: hexDigit (b / 16) :: hexDigit (b mod 16) :: x
  = 37 :: hexDigit (b' / 16) :: hexDigit (b' mod 16) :: y ->
  b = b' /\ x = y.
Proof.
  intros Hb Hb' H. injection H as H1 H2 ->.
  apply hexDigit_inj in H1; [|dlia..].
  apply hexDigit_inj in H2; [|dlia..].
  split; [dlia | reflexivity].
Qed.

(** The escapes of a code point determine it, and where they end. *)
Lemma percentEncode_utf8_inj cp cp' x y :
  cp < 0x110000 -> cp' < 0x110000 ->
  percentEncode (utf8 cp) ++ x = percentEncode (utf8 cp') ++ y ->
  cp = cp' /\ x = y.
Proof.
  intros Hc Hc'. unfold utf8.
  destruct (cp <? 0x80) eqn:E1; [|destruct (cp <? 0x800) eqn:E2;
    [|destruct (cp <? 0x10000) eqn:E3]];
  (destruct (cp' <? 0x80) eqn:F1; [|destruct (cp' <? 0x800) eqn:F2;
    [|destruct (cp' <? 0x10000) eqn:F3]]);
  rewrite ?N.ltb_lt, ?N.ltb_ge in *;
  rewrite ?percentEncode_cons; cbn [percentEncode flat_map app];
  intros H;
  apply escape_inj in H as [B1 H]; try dlia;
  repeat (apply escape_inj in H as [? H]; [|dlia..]);
  (split; [dlia | exact H]).
Qed.

Lemma percentEncode_utf8_head cp :
  exists tl, percentEncode (utf8 cp) = 37 :: tl.
Proof.
  unfold utf8.
  destruct (cp <? 0x80); [|destruct (cp <? 0x800); [|destruct (cp <? 0x10000)]];
    rewrite percentEncode_cons; eauto.
Qed.

Lemma escaped_unit_inj u u' cp :
  escaped_unit u cp -> escaped_unit u' cp -> u = u'.
Proof.
  intros [(-> & H & _)|(l & t & -> & Hl & Ht & E)]
         [(-> & H' & _)|(l' & t' & -> & Hl' & Ht' & E')].
  - reflexivity.
  - pose proof (pair_range l' t' Hl' Ht'). subst cp. lia.
  - pose proof (pair_range l t Hl Ht). subst cp. lia.
  - subst cp. unfold surrogatePairToCodePoint in E'.
    unfold isLeadingSurrogate, isTrailingSurrogate in *.
    rewrite in_range_spec in *.
    assert (l = l' /\ t = t') as [-> ->] by lia. reflexivity.
Qed.

Lemma encode_inj_n n :
  forall a b e, (length a <= n)%nat -> codeUnits a -> codeUnits b ->
                encodeURIComponent a = Some e ->
                encodeURIComponent b = Some e -> a = b.
Proof.
  assert (forall b, codeUnits b -> encodeURIComponent b = Some [] -> b = [])
    as Hnil.
  { intros b Hb Eb.
    destruct (encode_head b _ Hb Eb)
      as [[-> _]|[(c' & rb & eb & _ & _ & E & _)
                 |(u' & cp' & rb & eb & _ & _ & _ & E & _)]];
      [reflexivity | discriminate |].
    destruct (percentEncode_utf8_head cp') as [tl Htl].
    rewrite Htl in E. discriminate. }
  induction n as [|n IH]; intros a b e Hn Ha Hb Ea Eb.
  { destruct a; [|simpl in Hn; lia]. injection Ea as <-.
    symmetry. apply Hnil; assumption. }
  destruct (encode_head a e Ha Ea)
    as [[-> ->]|[(c & ra & ea & -> & U & -> & Hr)
                |(u & cp & ra & ea & -> & Hunit & Hcp & -> & Hr & Hur & Hl)]].
  - symmetry. apply Hnil; assumption.
  - apply Forall_cons in Ha as [_ Ha].
    destruct (encode_head b _ Hb Eb)
      as [[-> E]|[(c' & rb & eb & -> & U' & E & Hr')
                 |(u' & cp' & rb & eb & -> & _ & _ & E & _)]].
    + discriminate.
    + injection E as -> ->. f_equal.
      apply Forall_cons in Hb as [_ Hb].
      apply (IH ra rb eb); auto. simpl in Hn. lia.
    + destruct (percentEncode_utf8_head cp') as [tl Htl].
      rewrite Htl in E. injection E as -> _. discriminate.
  - destruct (percentEncode_utf8_head cp) as [tl Htl].
    destruct (encode_head b _ Hb Eb)
      as [[-> E]|[(c' & rb & eb & -> & U' & E & Hr')
                 |(u' & cp' & rb & eb & -> & Hunit' & Hcp' & E & Hr' & Hur'
                   & Hl')]].
    + rewrite Htl in E. discriminate.
    + rewrite Htl in E. injection E as <- _. discriminate.
    + apply percentEncode_utf8_inj in E as [-> ->]; [|assumption..].
      rewrite (escaped_unit_inj u u' cp' Hunit Hunit'). f_equal.
      apply (IH ra rb eb); auto. lia.
Qed.

(** Two texts (strings of code units that [encodeURIComponent] accepts)
    with the same encoding are the same text, and a lookup URL determines
    the text and the accent it was built from: no two words or sentences
    share a lookup URL. *)
Theorem lookup_url_injective (t1 t2 e1 e2 : jsstring) (a1 a2 : Accent)
    (H1 : codeUnits t1) (H2 : codeUnits t2)
    (E1 : encodeURIComponent t1 = Some e1)
    (E2 : encodeURIComponent t2 = Some e2) :
  (e1 = e2 -> t1 = t2)
  /\ (dictvoiceUrl e1 a1 = dictvoiceUrl e2 a2 -> t1 = t2 /\ a1 = a2).
Proof.
  assert (e1 = e2 -> t1 = t2) as Hinj.
  { intros <-. eapply encode_inj_n; [reflexivity | eassumption..]. }
  split; [exact Hinj|].
  unfold dictvoiceUrl. intros H. apply app_inv_head in H.
  assert (forall a, exists c, typeOf a = [c]
                              /\ (c = 49 /\ a = UK \/ c = 50 /\ a = US))
    as Hty.
  { intros []; eexists; (split; [reflexivity|]); auto. }
  destruct (Hty a1) as (c1 & T1 & Hc1). destruct (Hty a2) as (c2 & T2 & Hc2).
  rewrite T1, T2, !app_assoc in H. apply app_inj_tail in H as [H ->].
  apply app_inv_tail in H. split; [apply Hinj, H|].
  destruct Hc1 as [[-> ->]|[-> ->]], Hc2 as [[E ->]|[E ->]];
    try reflexivity; discriminate.
Qed.

Lemma lookup_url_injective_witness :
  encodeURIComponent (js "caf" ++ [0xE9]) = Some (js "caf%C3%A9")
  /\ dictvoiceUrl (js "caf%C3%A9") UK <> dictvoiceUrl (js "cafe") UK.
Proof.
  split; [reflexivity|]. intros H.
  destruct (lookup_url_injective
              (js "caf" ++ [0xE9]) (js "cafe") (js "caf%C3%A9") (js "cafe")
              UK UK) as [_ Hurl].
  - repeat constructor.
  - repeat constructor.
  - reflexivity.
  - reflexivity.
  - destruct (Hurl H) as [E _]. discriminate.
Defined.
(** * The media sections *)

(** Reduce the page record and its setters. *)
Ltac psimpl :=
  cbn [world lecture scene music set_world set_lecture set_scene set_music
       dispatchStop stopGlobalAudio lecture_effect fmap option_fmap option_map
       lecture_handleStop scene_handleStop music_handleStop
       setIsPlaying setActiveIdx setPlayingId music_setIsPlaying
       music_setActiveIdx music_pause music_play has_audioRef
       l_videos l_activeIdx l_isPlaying sc_sents sc_playingId
       m_sents m_activeIdx m_isPlaying m_paused m_ended] in *.

Ltac pcount :=
  unfold sections_playing, lecture_playing, scene_playing, music_audible;
  psimpl.

Lemma dispatchStop_sections p : sections_playing (dispatchStop p) = 0%nat.
Proof.
  unfold sections_playing, lecture_playing, scene_playing, music_audible.
  destruct p as [w [l|] [s|] [[[|n] i pl pa en]|]]; reflexivity.
Qed.

Lemma stopGlobalAudio_silent p :
  tracked_if_playing (world p) -> page_silent (stopGlobalAudio p).
Proof.
  intros H. split.
  - apply stopAudio_silent, H.
  - apply dispatchStop_sections.
Qed.

Lemma one_source_silent p : page_silent p -> one_source p.
Proof.
  intros [Hs Hc]. split; [apply silent_tracked, Hs|]. split; [lia|].
  intros _. exact Hs.
Qed.

(** A section begins to play on a silent page. *)
Lemma one_source_start p p' :
  page_silent p -> world p' = world p -> (sections_playing p' <= 1)%nat ->
  one_source p'.
Proof.
  intros [Hs Hc] Hw Hn. unfold one_source. rewrite Hw.
  split; [apply silent_tracked, Hs|]. split; [exact Hn|]. intros _. exact Hs.
Qed.

(** The module is left alone and no section begins to play. *)
Lemma one_source_fewer p p' :
  same_audio (world p) (world p') ->
  (sections_playing p' <= sections_playing p)%nat ->
  one_source p -> one_source p'.
Proof.
  intros [Ha Hc] Hn (T & N & S). unfold one_source, tracked_if_playing, silent.
  rewrite Ha, Hc. split; [exact T|]. split; [lia|].
  intros E. apply S. lia.
Qed.

Lemma one_source_module l p : one_source p -> one_source (module_step l p).
Proof.
  intros (T & N & S). unfold module_step.
  pose proof (step_tracked l (world p) T) as T'.
  destruct (stopSignals (world p) <? stopSignals (step l (world p)))%nat
    eqn:E.
  - split; [exact T'|]. rewrite dispatchStop_sections. split; lia.
  - apply Nat.ltb_ge in E.
    destruct (acts_relation true announced (world p) (step l (world p))
                announced_refl announced_trans (act_announced true)
                (acts_step l (world p))) as [Hle Hsub].
    split; [exact T'|]. split; [exact N|].
    intros E1 i el Hi. specialize (S E1).
    destruct (playing el) eqn:Hp; [|reflexivity].
    destruct (Hsub ltac:(lia) i el Hi Hp) as (el0 & Hi0 & Hp0).
    rewrite (S i el0 Hi0) in Hp0. discriminate.
Qed.

Lemma lecture_effect_silent p :
  tracked_if_playing (world p) -> page_silent (lecture_effect p).
Proof.
  intros T. split.
  - apply stopAudio_silent, T.
  - destruct p as [w [l|] [s|] [[[|n] i pl pa en]|]]; reflexivity.
Qed.

Lemma one_source_navigate f p :
  one_source p -> one_source (lecture_navigate f p).
Proof.
  intros H. unfold lecture_navigate.
  destruct (lecture p) as [l|]; [|exact H].
  destruct (1 <? l_videos l)%nat; [|exact H].
  destruct (decide (f l = l_activeIdx l)); [exact H|].
  apply one_source_silent, lecture_effect_silent, H.
Qed.

(** Destructure the page and the flags that decide what plays. *)
Ltac pcases p :=
  destruct p as [?w [[?n ?i [|]]|] [[?n [?j|]]|] [[[|?n] ?i [|] [|] [|]]|]].

Ltac pclose :=
  cbn;
  repeat match goal with
         | |- context [match ?n with O => _ | S _ => _ end] =>
             destruct n; cbn
         end;
  first [lia | split; reflexivity].

Lemma one_source_step l p : one_source p -> one_source (page_step l p).
Proof.
  intros H. pose proof H as (T & N & S).
  destruct l; cbn [page_step].
  - apply one_source_module, H.
  - (* mount lecture *)
    unfold mountLecture. destruct (lecture p) eqn:L; [exact H|].
    apply one_source_silent, lecture_effect_silent, T.
  - apply (one_source_fewer p); [| | exact H]; pcases p; pclose.
  - (* play click *)
    unfold handlePlayClick. destruct (lecture p) as [l|] eqn:L; [|exact H].
    destruct (0 <? l_videos l)%nat; [|exact H].
    destruct (l_isPlaying l) eqn:P; cbn [negb].
    + apply (one_source_fewer p); [apply same_audio_refl | | exact H].
      pcount. rewrite L, P. simpl. lia.
    + apply (one_source_start (stopGlobalAudio p));
        [apply stopGlobalAudio_silent, T | reflexivity |].
      pcases p; pclose.
  - apply one_source_navigate, H.
  - apply one_source_navigate, H.
  - apply (one_source_fewer p); [| | exact H];
      unfold lecture_onEnded; pcases p; pclose.
  - apply (one_source_fewer p); [| | exact H];
      unfold mountScene; pcases p; pclose.
  - apply (one_source_fewer p); [| | exact H]; pcases p; pclose.
  - (* play a scene *)
    unfold handlePlay. destruct (scene p) as [s|] eqn:Sc; [|exact H].
    destruct (idx <? sc_sents s)%nat; [|exact H].
    destruct (decide (sc_playingId s = Some idx)).
    + apply (one_source_fewer p); [| | exact H]; pcases p; pclose.
    + apply (one_source_start (stopGlobalAudio p));
        [apply stopGlobalAudio_silent, T | reflexivity |].
      pcases p; pclose.
  - apply (one_source_fewer p); [| | exact H];
      unfold scene_onEnded; pcases p; pclose.
  - apply (one_source_fewer p); [| | exact H];
      unfold mountMusic; pcases p; pclose.
  - apply (one_source_fewer p); [| | exact H]; pcases p; pclose.
  - (* toggle the music *)
    unfold togglePlay. destruct (music p) as [m|] eqn:M; [|exact H].
    destruct (has_audioRef m) eqn:R; cbn [negb]; [|exact H].
    destruct (m_isPlaying m) eqn:P.
    + apply (one_source_fewer p); [| | exact H]; pcases p; pclose.
    + apply (one_source_start (stopGlobalAudio p));
        [apply stopGlobalAudio_silent, T | reflexivity |].
      pcases p; pclose.
  - apply (one_source_fewer p); [| | exact H];
      unfold music_navigate; pcases p; pclose.
  - apply (one_source_fewer p); [| | exact H];
      unfold music_navigate; pcases p; pclose.
  - apply (one_source_fewer p); [| | exact H];
      unfold music_onEnded; pcases p; pclose.
  - apply (one_source_fewer p); [| | exact H];
      unfold music_playRejected; pcases p; pclose.
  - apply (one_source_fewer p); [| | exact H];
      unfold music_reload; pcases p; pclose.
Qed.
Lemma page_reachable_invariant (P : Page -> Prop) p :
  (forall v o, P (initPage v o)) ->
  (forall l q, P q -> P (page_step l q)) ->
  page_reachable p -> P p.
Proof.
  intros Hi Hs (v & o & ls & ->). unfold page_run.
  generalize (Hi v o). generalize (initPage v o).
  induction ls as [|l ls IH]; intros q Hq; cbn [foldl]; auto.
Qed.

Lemma page_reachable_one_source p : page_reachable p -> one_source p.
Proof.
  apply (page_reachable_invariant one_source).
  - intros v o. apply one_source_silent. split; [|reflexivity].
    intros i el Hi. discriminate.
  - intros l q. apply one_source_step.
Qed.

(** On the page at most one source plays at any time, whatever the user
    and the platform do: at most one of the three sections plays, at most
    one audio element of the module plays (the tracked one), and while a
    section plays no element of the module does. *)
Theorem page_plays_one_source (p : Page) (Hp : page_reachable p) :
  (sections_playing p <= 1)%nat
  /\ (forall i j a b,
        audios (world p) !! i = Some a -> audios (world p) !! j = Some b ->
        playing a = true -> playing b = true -> i = j)
  /\ (forall i el,
        audios (world p) !! i = Some el -> playing el = true ->
        sections_playing p = 0%nat /\ currentAudio (world p) = Some i).
Proof.
  destruct (page_reachable_one_source p Hp) as (T & N & S).
  split; [exact N|]. split.
  - intros i j a b Hi Hj Pa Pb.
    pose proof (T i a Hi Pa). pose proof (T j b Hj Pb). congruence.
  - intros i el Hi Pe. split; [|apply (T i el Hi Pe)].
    destruct (sections_playing p) as [|[|n]] eqn:E; [reflexivity | | lia].
    rewrite (S eq_refl i el Hi) in Pe. discriminate.
Qed.

Lemma page_plays_one_source_witness :
  let p := page_run [PMountLecture 2; PMountMusic 1;
                     PModule (LCall (CPlayUrl (js "a.mp3") 1));
                     PMusicToggle; PLecturePlayClick]
             (initPage [] OvcNull) in
  lecture_playing p = true /\ (sections_playing p <= 1)%nat.
Proof.
  split; [reflexivity|].
  apply page_plays_one_source. eexists _, _, _. reflexivity.
Defined.

(** [stopAudio], called by anyone on the page, leaves nothing playing: no
    element of the module, no section, and an empty speech queue; and a
    step of the module that dispatches the Stop Signal (every call or
    fallback that starts a playback does) stops every section. *)
Theorem stop_silences_page (p : Page) (Hp : page_reachable p) :
  page_silent (stopGlobalAudio p)
  /\ synthQueue (world (stopGlobalAudio p)) = []
  /\ currentAudio (world (stopGlobalAudio p)) = None
  /\ (forall l,
        (stopSignals (world p) < stopSignals (world (module_step l p)))%nat ->
        sections_playing (module_step l p) = 0%nat)
  /\ (forall c, starts_playback c = true ->
                sections_playing (module_step (LCall c) p) = 0%nat).
Proof.
  destruct (page_reachable_one_source p Hp) as (T & _).
  assert (forall l,
             (stopSignals (world p) < stopSignals (world (module_step l p)))%nat ->
             sections_playing (module_step l p) = 0%nat) as Hd.
  { intros l. unfold module_step.
    destruct (stopSignals (world p) <? stopSignals (step l (world p)))%nat
      eqn:E.
    - intros _. apply dispatchStop_sections.
    - apply Nat.ltb_ge in E. psimpl. lia. }
  split; [apply stopGlobalAudio_silent, T|].
  split; [apply stopAudio_synthQueue|].
  split; [apply stopAudio_currentAudio|].
  split; [exact Hd|].
  intros c Hc. apply Hd.
  assert (stopSignals (call c (world p)) = S (stopSignals (world p))) as E.
  { destruct c; try discriminate; cbn [call].
    - apply playUrl_stopSignals.
    - cbn in Hc. apply andb_true_iff in Hc as [Ht Hr].
      apply Z.ltb_lt in Hr.
      rewrite (playTextToSpeech_go text accent rate repeat _ Ht Hr).
      destruct (waitForVoices_frame
                  (mkTtsK text accent rate repeat (length (ops (world p))))
                  (synth_resume_if_paused
                     (stopAudio (new_op Pending (world p)))))
        as (_ & _ & -> & _).
      destruct (synth_resume_frame (stopAudio (new_op Pending (world p))))
        as (_ & _ & -> & _).
      apply (stopAudio_stopSignals (new_op Pending (world p))).
    - cbn in Hc. apply andb_true_iff in Hc as [Ht He].
      apply bool_decide_eq_true in He as [enc He].
      rewrite (playWordAudio_eq text accent speed enc _ Ht He).
      rewrite playUrl_stopSignals. reflexivity.
    - cbn in Hc. unfold playSentenceAudio, sentenceLookup.
      destruct (truthy explicitUrl); cbn in Hc.
      + rewrite playUrl_stopSignals. reflexivity.
      + apply bool_decide_eq_true in Hc as [enc ->].
        rewrite playUrl_stopSignals. reflexivity. }
  unfold module_step. cbn [step].
  destruct (stopSignals (world p) <? stopSignals (call c (world p)))%nat
    eqn:F; psimpl; [|apply Nat.ltb_ge in F]; lia.
Qed.

Lemma stop_silences_page_witness :
  let p := page_run [PMountScene 3; PScenePlay 1] (initPage [] OvcNull) in
  scene_playing p = true
  /\ sections_playing
       (module_step (LCall (CPlayWordAudio hello US 1)) p) = 0%nat.
Proof.
  split; [reflexivity|].
  apply stop_silences_page; [eexists _, _, _; reflexivity | reflexivity].
Defined.
Lemma dispatchStop_indices p : indices_ok p -> indices_ok (dispatchStop p).
Proof.
  intros (Hl & Hs & Hm). unfold indices_ok.
  destruct p as [w l s m]. psimpl. split; [|split].
  - intros l' E. destruct l as [l|]; [|discriminate].
    injection E as <-. apply (Hl l eq_refl).
  - intros s' i E Hi. destruct s as [s|]; [|discriminate].
    injection E as <-. discriminate.
  - intros m' E. destruct m as [m|]; [|discriminate].
    injection E as <-. specialize (Hm m eq_refl).
    destruct m as [[|n] i pl pa en]; exact Hm.
Qed.

Lemma set_world_indices w p : indices_ok p -> indices_ok (set_world w p).
Proof. intros H. exact H. Qed.

Lemma lecture_effect_indices p : indices_ok p -> indices_ok (lecture_effect p).
Proof.
  intros H. unfold lecture_effect, stopGlobalAudio.
  apply (dispatchStop_indices (set_world (stopAudio (world p)) p)) in H.
  destruct H as (Hl & Hs & Hm). unfold indices_ok. psimpl.
  split; [|split; [exact Hs | exact Hm]].
  intros l' E. destruct (lecture p) as [l|]; [|discriminate].
  injection E as <-. apply (Hl _ eq_refl).
Qed.

Lemma indices_step l p : indices_ok p -> indices_ok (page_step l p).
Proof.
  intros H. pose proof H as (Hl & Hs & Hm).
  destruct l; cbn [page_step].
  - unfold module_step. destruct (_ <? _)%nat;
      [apply dispatchStop_indices|]; exact H.
  - unfold mountLecture. destruct (lecture p) eqn:L; [exact H|].
    apply lecture_effect_indices. unfold indices_ok. psimpl.
    split; [|split; [exact Hs | exact Hm]].
    intros l' [= <-]. simpl. lia.
  - unfold indices_ok. psimpl. split; [|split; [exact Hs | exact Hm]].
    discriminate.
  - unfold handlePlayClick. destruct (lecture p) as [l|] eqn:L; [|exact H].
    destruct (0 <? l_videos l)%nat; [|exact H].
    destruct (negb (l_isPlaying l)).
    + apply (dispatchStop_indices (set_world (stopAudio (world p)) p)) in H.
      destruct H as (Hl' & Hs' & Hm'). unfold indices_ok. psimpl.
      split; [|split; [exact Hs' | exact Hm']].
      intros l' E. rewrite L in *. injection E as <-. apply (Hl' _ eq_refl).
    + unfold indices_ok. psimpl. split; [|split; [exact Hs | exact Hm]].
      intros l' [= <-]. apply (Hl l eq_refl).
  - unfold lecture_navigate. destruct (lecture p) as [l|] eqn:L; [|exact H].
    destruct (1 <? l_videos l)%nat eqn:E; [|exact H].
    destruct (decide _); [exact H|].
    apply lecture_effect_indices. unfold indices_ok. psimpl.
    split; [|split; [exact Hs | exact Hm]].
    intros l' [= <-]. apply Nat.ltb_lt in E. specialize (Hl l eq_refl).
    unfold lecture_prev. simpl. lia.
  - unfold lecture_navigate. destruct (lecture p) as [l|] eqn:L; [|exact H].
    destruct (1 <? l_videos l)%nat eqn:E; [|exact H].
    destruct (decide _); [exact H|].
    apply lecture_effect_indices. unfold indices_ok. psimpl.
    split; [|split; [exact Hs | exact Hm]].
    intros l' [= <-]. apply Nat.ltb_lt in E. specialize (Hl l eq_refl).
    unfold lecture_next. simpl. lia.
  - unfold lecture_onEnded. destruct (lecture p) as [l|] eqn:L; [|exact H].
    destruct (l_isPlaying l); [|exact H].
    unfold indices_ok. psimpl. split; [|split; [exact Hs | exact Hm]].
    intros l' [= <-]. apply (Hl l eq_refl).
  - unfold mountScene. destruct (scene p) eqn:Sc; [exact H|].
    unfold indices_ok. psimpl. split; [exact Hl|]. split; [|exact Hm].
    intros s' i [= <-]. discriminate.
  - unfold indices_ok. psimpl. split; [exact Hl|]. split; [|exact Hm].
    discriminate.
  - unfold handlePlay. destruct (scene p) as [s|] eqn:Sc; [|exact H].
    destruct (idx <? sc_sents s)%nat eqn:E; [|exact H].
    destruct (decide _).
    + unfold indices_ok. psimpl. split; [exact Hl|]. split; [|exact Hm].
      intros s' i [= <-]. discriminate.
    + apply (dispatchStop_indices (set_world (stopAudio (world p)) p)) in H.
      destruct H as (Hl' & Hs' & Hm'). unfold indices_ok. psimpl.
      split; [exact Hl'|]. split; [|exact Hm'].
      intros s' i E'. rewrite Sc in E'. injection E' as <-.
      simpl. intros [= <-]. apply Nat.ltb_lt, E.
  - unfold scene_onEnded, indices_ok. psimpl.
    split; [exact Hl|]. split; [|exact Hm].
    intros s' i E. destruct (scene p); [|discriminate].
    injection E as <-. discriminate.
  - unfold mountMusic. destruct (music p) eqn:M; [exact H|].
    unfold indices_ok. psimpl. split; [exact Hl|]. split; [exact Hs|].
    intros m' [= <-]. simpl. lia.
  - unfold indices_ok. psimpl. split; [exact Hl|]. split; [exact Hs|].
    discriminate.
  - unfold togglePlay. destruct (music p) as [m|] eqn:M; [|exact H].
    destruct (negb (has_audioRef m)); [exact H|].
    destruct (m_isPlaying m).
    + unfold indices_ok. psimpl. split; [exact Hl|]. split; [exact Hs|].
      intros m' [= <-]. apply (Hm m eq_refl).
    + apply (dispatchStop_indices (set_world (stopAudio (world p)) p)) in H.
      destruct H as (Hl' & Hs' & Hm'). unfold indices_ok. psimpl.
      split; [exact Hl'|]. split; [exact Hs'|].
      intros m' E. rewrite M in *. injection E as <-.
      specialize (Hm' _ eq_refl). destruct m as [[|k] i pl pa en]; exact Hm'.
  - unfold music_navigate. destruct (music p) as [m|] eqn:M; [|exact H].
    destruct (1 <? m_sents m)%nat eqn:E; [|exact H].
    unfold indices_ok. psimpl. split; [exact Hl|]. split; [exact Hs|].
    intros m' [= <-]. apply Nat.ltb_lt in E. specialize (Hm m eq_refl).
    unfold music_prev. simpl. lia.
  - unfold music_navigate. destruct (music p) as [m|] eqn:M; [|exact H].
    destruct (1 <? m_sents m)%nat eqn:E; [|exact H].
    unfold indices_ok. psimpl. split; [exact Hl|]. split; [exact Hs|].
    intros m' [= <-]. apply Nat.ltb_lt in E. specialize (Hm m eq_refl).
    unfold music_next. simpl. lia.
  - unfold music_onEnded. destruct (music p) as [m|] eqn:M; [|exact H].
    destruct (has_audioRef m); [|exact H].
    unfold indices_ok. psimpl. split; [exact Hl|]. split; [exact Hs|].
    intros m' [= <-]. apply (Hm m eq_refl).
  - unfold music_playRejected. destruct (music p) as [m|] eqn:M; [|exact H].
    destruct (has_audioRef m); [|exact H].
    unfold indices_ok. psimpl. split; [exact Hl|]. split; [exact Hs|].
    intros m' [= <-]. apply (Hm m eq_refl).
  - unfold music_reload, indices_ok. psimpl.
    split; [exact Hl|]. split; [exact Hs|].
    intros m' E. destruct (music p) as [m|] eqn:M; [|discriminate].
    injection E as <-. apply (Hm m eq_refl).
Qed.

Lemma music_ui_step l p : music_ui_ok p -> music_ui_ok (page_step l p).
Proof.
  unfold music_ui_ok, music_audible. intros H.
  destruct l; cbn [page_step];
    unfold module_step, mountLecture, handlePlayClick, lecture_navigate,
      lecture_onEnded, mountScene, handlePlay, scene_onEnded, mountMusic,
      togglePlay, music_navigate, music_onEnded, music_playRejected,
      music_reload;
    destruct p as [w [[n i pl]|] [[n' [j|]]|] [[[|k] mi [|] [|] [|]]|]];
    cbn in *;
    repeat match goal with
           | |- context [if ?b then _ else _] => destruct b; cbn
           end;
    try (intros F; discriminate F);
    try (intros _; eexists; split; reflexivity);
    exfalso; destruct (H eq_refl) as (m & E & F); injection E as <-;
    simpl in F; discriminate.
Qed.

Lemma page_reachable_indices p : page_reachable p -> indices_ok p.
Proof.
  apply (page_reachable_invariant indices_ok).
  - intros v o. repeat split; discriminate.
  - intros l q. apply indices_step.
Qed.

(** For the lists they were given, the sections keep their indices within
    the list: [activeIdx] of the lecture and of the music player is never
    negative and stays below the number of items, and a scene plays only a
    card that exists.  And whenever the [<audio>] element of the music
    player sounds, the player shows its playing state. *)
Theorem sections_keep_indices (p : Page) (Hp : page_reachable p) :
  indices_ok p /\ music_ui_ok p.
Proof.
  split; [apply page_reachable_indices, Hp|]. revert Hp.
  - apply (page_reachable_invariant music_ui_ok).
    + intros v o. discriminate.
    + intros l q. apply music_ui_step.
Qed.

Lemma sections_keep_indices_witness :
  let p := page_run [PMountLecture 3; PLectureNext; PLectureNext;
                     PLectureNext; PLectureNext]
             (initPage [] OvcNull) in
  l_activeIdx <$> lecture p = Some 2%Z /\ indices_ok p.
Proof.
  split; [reflexivity|].
  apply sections_keep_indices. eexists _, _, _. reflexivity.
Defined.

(** The arrows of the lecture section: [Prev] at the first video and [Next]
    at the last change nothing at all; any other navigation moves by one
    and then stops everything on the page (the elements of the module,
    queued speech, the other sections) and leaves the lecture not playing.
    Mounting the section does the same, even when it has no video. *)
Theorem lecture_navigation_stops_media (p : Page) (l : Lecture)
    (Hp : page_reachable p) (Hl : lecture p = Some l) :
  (lecture_prev l = l_activeIdx l <-> l_activeIdx l = 0%Z)
  /\ ((1 < l_videos l)%nat ->
      (lecture_next l = l_activeIdx l
       <-> l_activeIdx l = (Z.of_nat (l_videos l) - 1)%Z))
  /\ (forall f, f l = l_activeIdx l -> lecture_navigate f p = p)
  /\ (forall f,
        f l <> l_activeIdx l -> (1 < l_videos l)%nat ->
        let p' := lecture_navigate f p in
        lecture p' = Some (mkLecture (l_videos l) (f l) false)
        /\ page_silent p' /\ synthQueue (world p') = []
        /\ stopSignals (world p') = S (stopSignals (world p)))
  /\ (forall n q, page_reachable q -> lecture q = None ->
                  page_silent (mountLecture n q)
                  /\ synthQueue (world (mountLecture n q)) = []).
Proof.
  destruct (page_reachable_indices p Hp) as (Hi & _).
  destruct (Hi l Hl) as [H0 Hn].
  split; [unfold lecture_prev; lia|].
  split; [intros H1; unfold lecture_next; lia|].
  split; [|split].
  - intros f Hf. unfold lecture_navigate. rewrite Hl.
    destruct (1 <? l_videos l)%nat; [|reflexivity].
    destruct (decide (f l = l_activeIdx l)); [reflexivity | contradiction].
  - intros f Hf H1 p'. unfold p', lecture_navigate. rewrite Hl.
    apply Nat.ltb_lt in H1. rewrite H1.
    destruct (decide (f l = l_activeIdx l)); [contradiction|].
    split; [reflexivity|].
    split; [apply lecture_effect_silent;
            exact (proj1 (page_reachable_one_source p Hp))|].
    split; [apply stopAudio_synthQueue | apply stopAudio_stopSignals].
  - intros n q Hq Hnone. unfold mountLecture. rewrite Hnone.
    split; [apply lecture_effect_silent;
            exact (proj1 (page_reachable_one_source q Hq))|].
    apply stopAudio_synthQueue.
Qed.

Lemma lecture_navigation_stops_media_witness :
  let p := page_run [PMountLecture 2; PMountMusic 1; PMusicToggle]
             (initPage [] OvcNull) in
  music_audible p = true
  /\ page_silent (lecture_navigate lecture_next p)
  /\ lecture_navigate lecture_prev p = p.
Proof.
  intros p. split; [reflexivity|].
  destruct (lecture_navigation_stops_media p (mkLecture 2 0 false))
    as (_ & _ & Hsame & Hmove & _).
  - eexists _, _, _. reflexivity.
  - reflexivity.
  - split.
    + apply (Hmove lecture_next); [discriminate | simpl; lia].
    + apply Hsame. reflexivity.
Defined.
(** The module's state changes, within the page, by its own steps, by
    [stopAudio], or by a line on the console. *)
Lemma page_step_world l p :
  world (page_step l p) = world p
  \/ world (page_step l p) = stopAudio (world p)
  \/ (exists l', world (page_step l p) = step l' (world p))
  \/ (exists e, world (page_step l p) = log e (world p)).
Proof.
  destruct l; cbn [page_step];
    unfold module_step, mountLecture, handlePlayClick, lecture_navigate,
      lecture_onEnded, mountScene, handlePlay, scene_onEnded, mountMusic,
      togglePlay, music_navigate, music_onEnded, music_playRejected,
      music_reload;
    repeat match goal with
           | |- context [match ?x with _ => _ end] => destruct x
           | |- context [if ?b then _ else _] => destruct b
           end;
    psimpl; eauto.
Qed.

Lemma page_world_moves p :
  page_reachable p ->
  exists v o, moves anyText anyVoices (init v o) (world p).
Proof.
  apply (page_reachable_invariant
           (fun q => exists v o, moves anyText anyVoices (init v o) (world q))).
  - intros v o. exists v, o. apply moves_refl.
  - intros l q (v & o & H). exists v, o.
    eapply moves_trans; [exact H|].
    destruct (page_step_world l q) as [->|[->|[(l' & ->)|(e & ->)]]].
    + apply moves_refl.
    + apply moves_stopAudio.
    + apply moves_step; [apply ok_label_any | apply waiters_ok_any].
    + apply moves_frame. repeat split.
Qed.

Lemma page_world_invariant (P : World -> Prop) p :
  (forall v o, P (init v o)) ->
  (forall t t', move anyText anyVoices t t' -> P t -> P t') ->
  page_reachable p -> P (world p).
Proof.
  intros Hi Hm Hp. destruct (page_world_moves p Hp) as (v & o & H).
  apply (moves_invariant anyText anyVoices P (init v o)); auto.
Qed.

Lemma stopSignals_foldl {B} (f : World -> B -> World) l :
  (forall s b, stopSignals (f s b) = stopSignals s) ->
  forall s, stopSignals (foldl f s l) = stopSignals s.
Proof.
  intros Hf. induction l as [|b l IH]; intros s; simpl; [reflexivity|].
  rewrite IH. apply Hf.
Qed.

Lemma drain_stopSignals s : stopSignals (drain s) = stopSignals s.
Proof.
  apply (drain_preserves (fun t => stopSignals t = stopSignals s)); auto.
Qed.

Lemma voices_step_quiet v fire s :
  stopSignals (step (LEvent (EvVoices v fire)) s) = stopSignals s.
Proof.
  cbn [step handle]. rewrite drain_stopSignals.
  destruct fire; [|apply drain_stopSignals].
  unfold fireVoicesChanged. rewrite stopSignals_foldl.
  - unfold updateVoices. wsimpl.
    destruct (onvoiceschanged (drain s)); try apply drain_stopSignals.
    destruct (nonEmpty v); apply drain_stopSignals.
  - intros t w. unfold voicesHandler.
    destruct (nonEmpty (synthVoices t)); [|reflexivity].
    unfold resolveWait. destruct (waits _ !! w) as [[[] k]|]; reflexivity.
Qed.

(** Running the microtasks queues the utterances of every queued
    continuation of [playTextToSpeech]. *)
Lemma drain_speaks k v s :
  (k, v) ∈ microtasks s ->
  (length (synthQueue s) + Z.to_nat (k_repeat k)
   <= length (synthQueue (drain s)))%nat.
Proof.
  intros Hin. unfold drain.
  assert (forall l t,
             (length (synthQueue t)
              <= length (synthQueue
                           (foldl (fun s m => ttsContinue (fst m) (snd m) s)
                              t l)))%nat
             /\ ((k, v) ∈ l ->
                 (length (synthQueue t) + Z.to_nat (k_repeat k)
                  <= length (synthQueue
                               (foldl (fun s m => ttsContinue (fst m) (snd m) s)
                                  t l)))%nat)) as H.
  { induction l as [|[k' v'] l IH]; intros t; cbn [foldl fst snd].
    - split; [lia|]. intros Hc. apply elem_of_nil in Hc. contradiction.
    - destruct (IH (ttsContinue k' v' t)) as [Hle Hin'].
      rewrite ttsContinue_synthQueue, length_app, length_replicate in *.
      split; [lia|]. intros Hc.
      apply elem_of_cons in Hc as [Hc|Hc].
      + injection Hc as <- <-. lia.
      + specialize (Hin' Hc). lia. }
  apply (H (microtasks s) (set_microtasks [] s)), Hin.
Qed.

(** A [playTextToSpeech] call that is still waiting for the voices is not
    covered by the stop-before-play convention: when the voices arrive, its
    utterances are queued without a Stop Signal, so a section that began to
    play in the meantime keeps playing while the speech starts. *)
Theorem late_speech_is_not_announced (p : Page) (w : nat) (k : TtsK)
    (v : list Voice) (Hp : page_reachable p)
    (Hw : wait_is w k Pending (world p)) (Hv : nonEmpty v = true) :
  let p' := module_step (LEvent (EvVoices v true)) p in
  lecture p' = lecture p /\ scene p' = scene p /\ music p' = music p
  /\ sections_playing p' = sections_playing p
  /\ stopSignals (world p') = stopSignals (world p)
  /\ (Z.to_nat (k_repeat k) <= length (synthQueue (world p')))%nat.
Proof.
  intros p'.
  assert (p' = set_world (step (LEvent (EvVoices v true)) (world p)) p) as E.
  { unfold p', module_step. rewrite voices_step_quiet, Nat.ltb_irrefl.
    reflexivity. }
  rewrite E. psimpl.
  split; [reflexivity|]. split; [reflexivity|]. split; [reflexivity|].
  split; [reflexivity|]. split; [apply voices_step_quiet|].
  assert (listening (world p)) as Hl.
  { revert Hp. apply page_world_invariant.
    - intros v0 o0. apply init_timers_ok.
    - intros t t'. apply move_listening. }
  cbn [step handle].
  set (t := drain (world p)).
  assert (wait_is w k Pending t) as Hwt by (apply wait_is_drain, Hw).
  assert (w ∈ voiceListeners t) as Hlt.
  { unfold t. destruct (drain_voice_frame (world p)) as (_&_&_&_& ->).
    apply (Hl w k Hw). }
  destruct (fireVoicesChanged_resolves w k (set_synthVoices v t) Hv Hwt Hlt)
    as (_ & Hm & _).
  pose proof (drain_speaks k _ _ Hm). lia.
Qed.

Lemma late_speech_is_not_announced_witness :
  let p := page_run [PMountLecture 1;
                     PModule (LCall (CPlayTextToSpeech hello US 1 2));
                     PLecturePlayClick]
             (initPage [] OvcNull) in
  let p' := module_step (LEvent (EvVoices [voiceUS] true)) p in
  lecture_playing p' = true /\ (2 <= length (synthQueue (world p')))%nat.
Proof.
  intros p p'.
  destruct (late_speech_is_not_announced p 0
              (mkTtsK hello US 1 2 0) [voiceUS])
    as (_ & _ & _ & _ & _ & H).
  - eexists _, _, _. reflexivity.
  - reflexivity.
  - reflexivity.
  - split; [reflexivity | exact H].
Defined.
(** * The application shell *)

Section AppProperties.
Context {V : Type} `{EqDecision V}.
Variable truthyValue : V -> bool.
Variable initial : Key -> V.

Lemma syncEffect_eq (old new : App V) st k :
  syncEffect old new st k
  = if writes old new k then setValue k (items new k) st else st.
Proof. reflexivity. Qed.

Lemma foldl_syncEffect (old new : App V) l :
  forall st k,
    foldl (syncEffect old new) st l k
    = if bool_decide (k ∈ l) && writes old new k
      then Some (items new k) else st k.
Proof.
  induction l as [|x l IH]; intros st k; cbn [foldl].
  - rewrite bool_decide_eq_false_2; [reflexivity|]. apply not_elem_of_nil.
  - rewrite IH, syncEffect_eq.
    destruct (decide (k ∈ l)) as [Hin|Hin].
    + rewrite (bool_decide_eq_true_2 _ Hin).
      rewrite (bool_decide_eq_true_2 (k ∈ x :: l)) by (right; exact Hin).
      simpl. destruct (writes old new k) eqn:Wk; [reflexivity|].
      destruct (writes old new x) eqn:Wx; [|reflexivity].
      unfold setValue. destruct (decide (k = x)) as [->|]; [|reflexivity].
      congruence.
    + rewrite (bool_decide_eq_false_2 _ Hin). simpl.
      destruct (decide (k = x)) as [->|Hne].
      * rewrite bool_decide_eq_true_2 by left. simpl.
        destruct (writes old new x); [|reflexivity].
        unfold setValue. rewrite decide_True by reflexivity. reflexivity.
      * rewrite bool_decide_eq_false_2.
        2:{ intros Hc. apply elem_of_cons in Hc as [?|?]; contradiction. }
        simpl. destruct (writes old new x); [|reflexivity].
        unfold setValue. rewrite decide_False by exact Hne. reflexivity.
Qed.

Lemma runEffects_spec (old new : App V) st k :
  runEffects old new st k
  = if bool_decide (k ∈ synced) && writes old new k
    then Some (items new k) else st k.
Proof. apply foldl_syncEffect. Qed.

Lemma handler_loading e st (a : App V) :
  isLoading a = false ->
  isLoading (app_handler truthyValue e st a) = false.
Proof.
  intros Hl. destruct e; cbn [app_handler]; try exact Hl.
  - rewrite Hl. exact Hl.
  - unfold onViewChange. destruct (bool_decide _); exact Hl.
  - destruct (pendingScroll a); exact Hl.
Qed.

Lemma mirrored_step e (s : App V * Storage V) :
  isLoading (fst s) = false -> mirrored s ->
  mirrored (app_step truthyValue e s).
Proof.
  intros Hl Hm k Hk. cbn [app_step fst snd].
  rewrite runEffects_spec, (bool_decide_eq_true_2 _ Hk). simpl.
  destruct (writes _ _ k) eqn:W; [reflexivity|].
  rewrite (Hm k Hk). f_equal.
  unfold writes in W.
  rewrite (handler_loading e (snd s) (fst s) Hl), Hl in W. simpl in W.
  rewrite orb_false_r, andb_true_r in W.
  apply bool_decide_eq_false in W.
  destruct (decide (items (app_handler truthyValue e (snd s) (fst s)) k
                    = items (fst s) k)) as [E|E]; [symmetry; exact E|].
  contradiction.
Qed.

Lemma dictionaries_step e (s : App V * Storage V) :
  snd (app_step truthyValue e s) KDictionaries = snd s KDictionaries.
Proof.
  cbn [app_step fst snd]. rewrite runEffects_spec.
  rewrite bool_decide_eq_false_2; [reflexivity|].
  unfold synced. intros Hc.
  repeat (apply elem_of_cons in Hc as [Hc|Hc]; [discriminate|]).
  apply elem_of_nil in Hc. exact Hc.
Qed.

Lemma adopt_items st (a : App V) k k' :
  items (adopt truthyValue st a k) k'
  = if decide (k' = k)
    then match st k with
         | Some v => if truthyValue v then v else items a k'
         | None => items a k'
         end
    else items a k'.
Proof.
  unfold adopt. destruct (st k) as [v|]; [destruct (truthyValue v)|];
    cbn [setItem items]; destruct (decide (k' = k)); reflexivity.
Qed.

Lemma route_items params (a : App V) :
  items (route params a) = items a /\ isLoading (route params a) = isLoading a.
Proof.
  unfold route.
  repeat match goal with
         | |- context [if ?b then _ else _] => destruct b
         end; split; reflexivity.
Qed.

Lemma loadData_items params st k :
  items (loadData truthyValue params st (initApp initial)) k
  = loaded truthyValue initial st k.
Proof.
  unfold loadData. cbn [setIsLoading items].
  rewrite (proj1 (route_items params _)). cbn [foldl].
  rewrite !adopt_items. unfold loaded. cbn [initApp items].
  destruct k; cbn; reflexivity.
Qed.

Lemma run_mirrored es (s : App V * Storage V) :
  isLoading (fst s) = false -> mirrored s ->
  isLoading (fst (app_run truthyValue es s)) = false
  /\ mirrored (app_run truthyValue es s).
Proof.
  revert s. induction es as [|e es IH]; intros s Hl Hm;
    cbn [app_run foldl]; [auto|].
  apply IH.
  - cbn [app_step fst]. apply handler_loading, Hl.
  - apply mirrored_step; assumption.
Qed.

Lemma run_dictionaries es (s : App V * Storage V) :
  snd (app_run truthyValue es s) KDictionaries = snd s KDictionaries.
Proof.
  revert s. induction es as [|e es IH]; intros s; cbn [app_run foldl];
    [reflexivity|].
  unfold app_run in IH. rewrite IH. apply dictionaries_step.
Qed.

(** Nothing is written to the storage while the application is loading, so
    the initial state never overwrites what is stored.  When the load
    completes, every item takes the stored value (the initial value where
    nothing or a falsy value is stored) and the nine synced items are
    written back: a stored value is written back as it was.  From then on,
    whatever the user does, each synced item of the storage is the one in
    the state.  [dictionaries] is read but never written. *)
Theorem storage_mirrors_state (params : list (jsstring * jsstring))
    (es : list (AppEvent (V := V))) (st0 : Storage V) :
  let s := app_run truthyValue (ALoaded params :: es) (initApp initial, st0) in
  isLoading (fst s) = false
  /\ mirrored s
  /\ snd s KDictionaries = st0 KDictionaries
  /\ (es = [] ->
      forall k,
        items (fst s) k = loaded truthyValue initial st0 k
        /\ (k ∈ synced ->
            forall v, st0 k = Some v -> truthyValue v = true ->
                      snd s k = Some v))
  /\ (forall e (s' : App V * Storage V),
        isLoading (fst (app_step truthyValue e s')) = true ->
        forall k, snd (app_step truthyValue e s') k = snd s' k).
Proof.
  intros s.
  set (s1 := app_step truthyValue (ALoaded params) (initApp initial, st0)).
  assert (isLoading (fst s1) = false) as L1 by reflexivity.
  assert (forall k, items (fst s1) k = loaded truthyValue initial st0 k)
    as I1.
  { intros k. apply loadData_items. }
  assert (mirrored s1) as M1.
  { intros k Hk. unfold s1. cbn [app_step fst snd app_handler initApp isLoading].
    rewrite runEffects_spec, (bool_decide_eq_true_2 _ Hk).
    unfold writes. cbn [isLoading loadData setIsLoading initApp].
    rewrite orb_true_r. reflexivity. }
  assert (s = app_run truthyValue es s1) as Es by reflexivity.
  destruct (run_mirrored es s1 L1 M1) as [Ls Ms].
  split; [rewrite Es; exact Ls|]. split; [rewrite Es; exact Ms|].
  split; [|split].
  - rewrite Es, run_dictionaries. apply dictionaries_step.
  - intros -> k. split; [apply I1|].
    intros Hk v Hv Ht. change (snd s1 k = Some v).
    rewrite (M1 k Hk), I1. unfold loaded.
    rewrite Hv, Ht. reflexivity.
  - intros e s' Hl k. cbn [app_step fst snd] in *.
    rewrite runEffects_spec. unfold writes. rewrite Hl.
    rewrite andb_false_r, andb_false_r. reflexivity.
Qed.

Lemma adopt_frame st (a : App V) k :
  currentView (adopt truthyValue st a k) = currentView a
  /\ detailWord (adopt truthyValue st a k) = detailWord a
  /\ managerTab (adopt truthyValue st a k) = managerTab a
  /\ managerSearchQuery (adopt truthyValue st a k) = managerSearchQuery a
  /\ pendingScroll (adopt truthyValue st a k) = pendingScroll a.
Proof.
  unfold adopt. destruct (st k) as [v|]; [destruct (truthyValue v)|];
    repeat split.
Qed.

Lemma adopts_frame st l :
  forall a : App V,
    currentView (foldl (adopt truthyValue st) a l) = currentView a
    /\ detailWord (foldl (adopt truthyValue st) a l) = detailWord a
    /\ managerTab (foldl (adopt truthyValue st) a l) = managerTab a
    /\ managerSearchQuery (foldl (adopt truthyValue st) a l)
       = managerSearchQuery a
    /\ pendingScroll (foldl (adopt truthyValue st) a l) = pendingScroll a.
Proof.
  induction l as [|k l IH]; intros a; cbn [foldl]; [repeat split|].
  destruct (IH (adopt truthyValue st a k)) as (-> & -> & -> & -> & ->).
  apply adopt_frame.
Qed.

Lemma truthy_default (u : option jsstring) :
  truthy u = true -> Some (default [] u) = u /\ nonEmpty (default [] u) = true.
Proof. destruct u as [x|]; [|discriminate]. intros Hx. split; auto. Qed.

(** The view after loading is decided by the [view] parameter of the URL
    alone, the first one when there are several: [word-detail] needs a
    non-empty [word] as well (without it the dashboard stays), [words]
    takes [tab] and [search] when they are non-empty, [settings] schedules
    the scroll to [section]; any other value, or none, leaves the
    dashboard. *)
Theorem route_by_url (params : list (jsstring * jsstring)) (st : Storage V) :
  let a := loadData truthyValue params st (initApp initial) in
  let view := params_get (js "view") params in
  let word := params_get (js "word") params in
  let tab := params_get (js "tab") params in
  let search := params_get (js "search") params in
  let section := params_get (js "section") params in
  currentView a
    ∈ [js "dashboard"; js "word-detail"; js "words"; js "settings"]
  /\ (currentView a = js "word-detail"
      <-> view = Some (js "word-detail") /\ truthy word = true)
  /\ (currentView a = js "word-detail" ->
      Some (detailWord a) = word /\ nonEmpty (detailWord a) = true)
  /\ (currentView a = js "words" <-> view = Some (js "words"))
  /\ (currentView a = js "settings" <-> view = Some (js "settings"))
  /\ (currentView a = js "words" ->
      managerTab a = (if truthy tab then default [] tab else js "all")
      /\ managerSearchQuery a
         = (if truthy search then default [] search else []))
  /\ (currentView a = js "settings" ->
      pendingScroll a = (if truthy section then section else None))
  /\ (forall name value rest,
        params_get name ((name, value) :: rest) = Some value).
Proof.
  intros a view word tab search section.
  unfold a, loadData.
  set (a0 := foldl (adopt truthyValue st) (initApp initial) _).
  destruct (adopts_frame st
              [KEntries; KScenarios; KStyles; KOriginalText; KInteraction;
               KPageWidget; KEngines; KAnki; KAutoTranslate; KDictionaries]
              (initApp initial)) as (C & D & T & Q & P).
  fold a0 in C, D, T, Q, P. cbn [initApp currentView detailWord managerTab
    managerSearchQuery pendingScroll] in C, D, T, Q, P.
  unfold route. fold view word tab search section.
  assert (forall name value rest,
             params_get name ((name, value) :: rest) = Some value) as Hget.
  { intros name value rest. unfold params_get. cbn [List.find fst].
    rewrite bool_decide_eq_true_2 by reflexivity. reflexivity. }
  destruct (bool_decide (view = Some (js "word-detail"))) eqn:B1;
    [apply bool_decide_eq_true in B1 | apply bool_decide_eq_false in B1];
    destruct (truthy word) eqn:W; cbn [andb];
    try (destruct (bool_decide (view = Some (js "words"))) eqn:B2;
         [apply bool_decide_eq_true in B2 | apply bool_decide_eq_false in B2];
         [|destruct (bool_decide (view = Some (js "settings"))) eqn:B3;
           [apply bool_decide_eq_true in B3
           |apply bool_decide_eq_false in B3]]);
    repeat match goal with
           | |- context [if truthy ?x then _ else _] =>
               destruct (truthy x) eqn:?
           end;
    cbn [setIsLoading setCurrentView setDetailWord setManagerTab
         setManagerSearchQuery setPendingScroll currentView detailWord
         managerTab managerSearchQuery pendingScroll];
    rewrite ?C, ?D, ?T, ?Q, ?P;
    (split; [set_solver|]);
    repeat split; try exact Hget; try tauto; try congruence;
    try discriminate; try (intros; discriminate);
    try (apply truthy_default; assumption);
    try (intros [? ?]; congruence).
Qed.
End AppProperties.

Lemma storage_mirrors_state_witness :
  let truthyNumber := fun n : nat => negb (n =? 0)%nat in
  let st0 : Storage nat :=
    fun k => match k with KStyles => Some 7%nat | _ => None end in
  let s := app_run truthyNumber [ALoaded []] (initApp (fun _ => 1%nat), st0) in
  snd s KStyles = Some 7%nat /\ snd s KAnki = Some 1%nat.
Proof.
  intros truthyNumber st0 s.
  destruct (storage_mirrors_state truthyNumber (fun _ => 1%nat) [] [] st0)
    as (_ & Hm & _ & Hl & _).
  split.
  - apply (Hl eq_refl KStyles); [|reflexivity..].
    unfold synced. apply list_elem_of_In. cbn. tauto.
  - unfold s. rewrite (Hm KAnki);
      [reflexivity | unfold synced; apply list_elem_of_In; cbn; tauto].
Defined.

Lemma route_by_url_witness :
  currentView
    (loadData (fun n : nat => negb (n =? 0)%nat)
       [(js "view", js "word-detail"); (js "view", js "words")]
       (fun _ => None) (initApp (fun _ => 0%nat)))
  = js "dashboard".
Proof.
  destruct (route_by_url (fun n : nat => negb (n =? 0)%nat) (fun _ => 0%nat)
              [(js "view", js "word-detail"); (js "view", js "words")]
              (fun _ => None)) as (Hin & Hd & _ & Hw & Hs & _).
  cbv zeta in *.
  repeat (apply elem_of_cons in Hin as [Hin|Hin]; [|]); try exact Hin.
  - apply Hd in Hin as [_ Hword]. discriminate.
  - apply Hw in Hin. discriminate.
  - apply Hs in Hin. discriminate.
  - apply elem_of_nil in Hin. contradiction.
Defined.
